(** * Nullish-short-circuiting chains: [bind], [pipe], [monad] and their
    asynchronous variants

    A shallow embedding of [isNullish] (the module [./helpers], file
    [src/unnamed/part_002]), [src/src/monad.ts] and
    [src/src/monadAsync.ts], and of the lookups of [src/src/example.ts],
    with the part of the JavaScript runtime these functions rely on: values and strict equality, [typeof],
    [JSON.stringify], calls of user callbacks, and native promises with
    the microtask queue. *)

From Stdlib Require Import ZArith Ascii String List Lia Bool.
From stdpp Require Import base option list.
Import ListNotations.
Local Open Scope string_scope.
Set Warnings "-register-all".

(** ** JavaScript values *)

(** Numbers.  Only the integral doubles, the two infinities and NaN are
    represented; [Number::toString] is injective on finite numbers, which
    is all that the comparisons of serialized forms below depend on. *)
Inductive JsNum : Type :=
| NInt (z : Z)
| NInf (negative : bool)
| NNaN.

(** Values.  Arrays, plain objects, functions and promises carry the
    address that gives them their identity; the field list of an object is
    its own enumerable string-keyed properties in [[OwnPropertyKeys]]
    order.  Objects are plain data: no [toJSON] or [then] method, no
    getter, no cycle; arrays have no hole; a promise is a native one. *)
Inductive JsVal : Type :=
| JUndefined
| JNull
| JBool (b : bool)
| JNum (n : JsNum)
| JBigInt (z : Z)
| JStr (s : string)
| JFun (addr : nat)
| JArr (addr : nat) (items : list JsVal)
| JObj (addr : nat) (fields : list (string * JsVal))
| JPromise (pid : nat).

(** What a [throw] carries.  Nothing in the modelled code catches an
    exception, so a thrown value never flows back into a [JsVal]. *)
Inductive Exn : Type :=
| TypeError (msg : string)
| UserExn (v : JsVal).

(** Result of an expression that may throw. *)
Inductive Res (A : Type) : Type :=
| Ok (a : A)
| Thrown (e : Exn).
Arguments Ok {A} a.
Arguments Thrown {A} e.

#[global] Instance Res_ret : MRet Res := fun A a => Ok a.
#[global] Instance Res_bind : MBind Res := fun A B f m =>
  match m with
  | Ok a => f a
  | Thrown e => Thrown e
  end.

(** [typeof v] *)
Definition typeof (v : JsVal) : string :=
  match v with
  | JUndefined => "undefined"
  | JNull => "object"
  | JBool _ => "boolean"
  | JNum _ => "number"
  | JBigInt _ => "bigint"
  | JStr _ => "string"
  | JFun _ => "function"
  | JArr _ _ | JObj _ _ | JPromise _ => "object"
  end.

Definition num_eq (a b : JsNum) : bool :=
  match a, b with
  | NInt x, NInt y => Z.eqb x y
  | NInf s, NInf t => Bool.eqb s t
  | _, _ => false
  end.

(** [a === b]: primitives by value ([NaN] equal to nothing), everything
    else by identity. *)
Definition strict_eq (a b : JsVal) : bool :=
  match a, b with
  | JUndefined, JUndefined => true
  | JNull, JNull => true
  | JBool x, JBool y => Bool.eqb x y
  | JNum x, JNum y => num_eq x y
  | JBigInt x, JBigInt y => Z.eqb x y
  | JStr x, JStr y => String.eqb x y
  | JFun x, JFun y => Nat.eqb x y
  | JArr x _, JArr y _ => Nat.eqb x y
  | JObj x _, JObj y _ => Nat.eqb x y
  | JPromise x, JPromise y => Nat.eqb x y
  | _, _ => false
  end.

(** [v instanceof Promise] *)
Definition instanceof_Promise (v : JsVal) : bool :=
  match v with
  | JPromise _ => true
  | _ => false
  end.

(** ** [JSON.stringify] *)

Definition dquote : string := String (ascii_of_nat 34) EmptyString.
Definition backslash : string := String (ascii_of_nat 92) EmptyString.

Definition hex_digit (n : nat) : ascii :=
  if (n <? 10)%nat then ascii_of_nat (48 + n) else ascii_of_nat (87 + n).

(** One code unit of QuoteJSONString. *)
Definition quote_unit (c : ascii) : string :=
  let n := nat_of_ascii c in
  if (n =? 34)%nat then backslash ++ dquote
  else if (n =? 92)%nat then backslash ++ backslash
  else if (n =? 8)%nat then backslash ++ "b"
  else if (n =? 9)%nat then backslash ++ "t"
  else if (n =? 10)%nat then backslash ++ "n"
  else if (n =? 12)%nat then backslash ++ "f"
  else if (n =? 13)%nat then backslash ++ "r"
  else if (n <? 32)%nat then
    backslash ++ "u00" ++ String (hex_digit (n / 16)) (String (hex_digit (n mod 16)) EmptyString)
  else String c EmptyString.

Fixpoint quote_units (s : string) : string :=
  match s with
  | EmptyString => EmptyString
  | String c s' => quote_unit c ++ quote_units s'
  end.

Definition QuoteJSONString (s : string) : string :=
  dquote ++ quote_units s ++ dquote.

Definition digit_char (n : nat) : ascii := ascii_of_nat (48 + n).

Fixpoint pos_digits (fuel : nat) (n : N) (acc : string) : string :=
  match fuel with
  | O => acc
  | S fuel' =>
      let acc' := String (digit_char (N.to_nat (n mod 10))) acc in
      if (n / 10 =? 0)%N then acc' else pos_digits fuel' (n / 10)%N acc'
  end.

(** Decimal digits of an integer, as [Number::toString] and
    [BigInt::toString] print them. *)
Definition Z_to_string (z : Z) : string :=
  let n := Z.abs_N z in
  let ds := pos_digits (S (N.to_nat (N.log2 n))) n EmptyString in
  if (z <? 0)%Z then "-" ++ ds else ds.

Definition join_comma (parts : list string) : string :=
  match parts with
  | [] => EmptyString
  | p :: ps => fold_left (fun acc q => acc ++ "," ++ q) ps p
  end.

Definition bigint_error : Exn := TypeError "Do not know how to serialize a BigInt".

(** SerializeJSONProperty, without replacer or indentation: [Ok None]
    stands for the [undefined] result, which an array prints as [null]
    and an object leaves out with its key; a BigInt throws. *)
Fixpoint SerializeJSONProperty (v : JsVal) : Res (option string) :=
  match v with
  | JUndefined | JFun _ => Ok None
  | JNull => Ok (Some "null")
  | JBool true => Ok (Some "true")
  | JBool false => Ok (Some "false")
  | JNum (NInt z) => Ok (Some (Z_to_string z))
  | JNum _ => Ok (Some "null")
  | JBigInt _ => Thrown bigint_error
  | JStr s => Ok (Some (QuoteJSONString s))
  | JArr _ items =>
      let fix elements (l : list JsVal) : Res (list string) :=
        match l with
        | [] => Ok []
        | x :: l' =>
            match SerializeJSONProperty x with
            | Thrown e => Thrown e
            | Ok o =>
                match elements l' with
                | Thrown e => Thrown e
                | Ok ps => Ok (default "null" o :: ps)
                end
            end
        end in
      match elements items with
      | Thrown e => Thrown e
      | Ok ps => Ok (Some ("[" ++ join_comma ps ++ "]"))
      end
  | JObj _ fields =>
      let fix members (l : list (string * JsVal)) : Res (list string) :=
        match l with
        | [] => Ok []
        | (k, x) :: l' =>
            match SerializeJSONProperty x with
            | Thrown e => Thrown e
            | Ok o =>
                match members l' with
                | Thrown e => Thrown e
                | Ok ps =>
                    Ok (match o with
                        | Some s => (QuoteJSONString k ++ ":" ++ s) :: ps
                        | None => ps
                        end)
                end
            end
        end in
      match members fields with
      | Thrown e => Thrown e
      | Ok ps => Ok (Some ("{" ++ join_comma ps ++ "}"))
      end
  | JPromise _ => Ok (Some "{}")
  end.

Definition JSON_stringify (v : JsVal) : Res (option string) :=
  SerializeJSONProperty v.

(** [a === b] on the results of [JSON.stringify] (a string or
    [undefined]). *)
Definition stringified_eq (a b : option string) : bool :=
  match a, b with
  | Some x, Some y => String.eqb x y
  | None, None => true
  | _, _ => false
  end.

(** ** [isNullish] (module [./helpers]) *)

(** [Array.prototype.some] with a callback that may throw: the callback
    runs on the elements in order and stops at the first [true] or the
    first exception. *)
Fixpoint Array_some {A : Type} (f : A -> Res bool) (l : list A) : Res bool :=
  match l with
  | [] => Ok false
  | x :: l' =>
      match f x with
      | Thrown e => Thrown e
      | Ok true => Ok true
      | Ok false => Array_some f l'
      end
  end.

(** The callback of [some] in [isNullish]. *)
Definition marker_test (argument nullish : JsVal) : Res bool :=
  if negb (strict_eq nullish JNull) && String.eqb (typeof nullish) "object" then
    a ← JSON_stringify nullish;
    b ← JSON_stringify argument;
    mret (stringified_eq a b)
  else Ok (strict_eq nullish argument).

Definition isNullish (argument : JsVal) (nullishTypes : list JsVal) : Res bool :=
  Array_some (marker_test argument) nullishTypes.


(** *** The spec's reading of [isNullish] *)

(** A marker that is non-null and of object type. *)
Definition composite (m : JsVal) : Prop :=
  m <> JNull /\ typeof m = "object".

(** [matches v m]: the marker [m] matches the value [v] as the spec words
    it: a composite marker by equality of the serialized forms, any other
    marker by strict equality. *)
Inductive matches (v m : JsVal) : Prop :=
| matches_serialized (s : string) :
    composite m ->
    JSON_stringify m = Ok (Some s) ->
    JSON_stringify v = Ok (Some s) ->
    matches v m
| matches_strict :
    ~ composite m ->
    strict_eq m v = true ->
    matches v m.

(** [JSON.stringify(v)] returns (a string or [undefined]). *)
Definition serializable (v : JsVal) : Prop :=
  exists o, JSON_stringify v = Ok o.

Definition lookup_field (k : string) (fields : list (string * JsVal)) : option JsVal :=
  match find (fun kv => String.eqb (fst kv) k) fields with
  | Some kv => Some (snd kv)
  | None => None
  end.

(** Structural equality proper, against which the comparison of
    serialized forms is measured: primitives by value, arrays element by
    element, objects by having the same keys with structurally equal
    values, whatever the order of the keys. *)
Fixpoint structurally_equal (a b : JsVal) : bool :=
  match a, b with
  | JArr _ xs, JArr _ ys =>
      (fix elements (l : list JsVal) (r : list JsVal) : bool :=
         match l, r with
         | [], [] => true
         | x :: l', y :: r' => structurally_equal x y && elements l' r'
         | _, _ => false
         end) xs ys
  | JObj _ fs, JObj _ gs =>
      Nat.eqb (length fs) (length gs) &&
      (fix members (l : list (string * JsVal)) : bool :=
         match l with
         | [] => true
         | (k, x) :: l' =>
             match lookup_field k gs with
             | Some y => structurally_equal x y && members l'
             | None => false
             end
         end) fs
  | JArr _ _, _ | JObj _ _, _ => false
  | _, _ => strict_eq a b
  end.

(** *** Sample values (those of the test suite) *)

Definition nonNullish : JsVal := JStr "nonNullish".
Definition mockReturn : JsVal := JStr "mockReturn".
Definition mockRest : list JsVal := [JNum (NInt 0); JUndefined].
Definition minus_one : JsVal := JNum (NInt (-1)).
Definition boom : Exn := UserExn (JStr "boom").

(** ** example.ts *)

(** SameValueZero, the key comparison of [Map]. *)
Definition same_value_zero (a b : JsVal) : bool :=
  match a, b with
  | JNum NNaN, JNum NNaN => true
  | _, _ => strict_eq a b
  end.

(** A [Map]: its entries in insertion order, the keys pairwise different. *)
Definition JsMap : Type := list (JsVal * JsVal).

(** [m.set(k, v)] *)
Fixpoint Map_set (m : JsMap) (k v : JsVal) : JsMap :=
  match m with
  | [] => [(k, v)]
  | (k', v') :: m' =>
      if same_value_zero k' k then (k', v) :: m' else (k', v') :: Map_set m' k v
  end.

(** [new Map(entries)] *)
Definition Map_new (entries : list (JsVal * JsVal)) : JsMap :=
  fold_left (fun m kv => Map_set m (fst kv) (snd kv)) entries [].

(** [m.get(k)] *)
Definition Map_get (m : JsMap) (k : JsVal) : JsVal :=
  match find (fun kv => same_value_zero (fst kv) k) m with
  | Some kv => snd kv
  | None => JUndefined
  end.

(** [v.k] for a property name [k] that no built-in prototype defines (such
    as [preference]): the own property of a plain object, [undefined] on
    any other value that can be read from, a [TypeError] on [undefined]
    and [null]. *)
Definition Get (v : JsVal) (k : string) : Res JsVal :=
  match v with
  | JUndefined =>
      Thrown (TypeError ("Cannot read properties of undefined (reading '" ++ k ++ "')"))
  | JNull =>
      Thrown (TypeError ("Cannot read properties of null (reading '" ++ k ++ "')"))
  | JObj _ fields => Ok (default JUndefined (lookup_field k fields))
  | _ => Ok JUndefined
  end.

Definition bikePreference : JsVal :=
  JObj 100 [("description", JStr "A bike made to go superfast"); ("name", JStr "Road bike")].

Definition runningPreference : JsVal :=
  JObj 101 [("description", JStr "Lightweight shoes for long miles");
            ("name", JStr "Running shoes")].

(** [db.userMap] *)
Definition userMap : JsMap :=
  Map_new [ (JStr "firstUser", JObj 102 [("preference", JStr "cycling")]);
            (JStr "secondUser", JObj 103 [("preference", JStr "running")]);
            (JStr "thirdUser", JObj 104 [("preference", JStr "missingPreference")]);
            (JStr "fourthUser", JObj 105 [("preference", JUndefined)]) ].

(** [db.preferenceItemMap] *)
Definition preferenceItemMap : JsMap :=
  Map_new [ (JStr "cycling", JBigInt 123); (JStr "running", JBigInt 456) ].

(** [db.itemInfoMap] *)
Definition itemInfoMap : JsMap :=
  Map_new [ (JBigInt 123, bikePreference); (JBigInt 456, runningPreference) ].

Definition getUser (userId : JsVal) : JsVal := Map_get userMap userId.

Definition getUserPreference (user : JsVal) : Res JsVal := Get user "preference".

Definition getPreferredItemId (preference : JsVal) : JsVal :=
  Map_get preferenceItemMap preference.

Definition getItemDetails (itemId : JsVal) : JsVal := Map_get itemInfoMap itemId.

(** What the chain of the four lookups is expected to give for a user
    id: the item of the first and of the second user, nothing for anyone
    else. *)
Definition suggestion (userId : JsVal) : JsVal :=
  if strict_eq userId (JStr "firstUser") then bikePreference
  else if strict_eq userId (JStr "secondUser") then runningPreference
  else JUndefined.

(** How many of the four lookups are expected to run for a user id. *)
Definition lookups_made (userId : JsVal) : nat :=
  if strict_eq userId JUndefined then 0
  else if strict_eq userId (JStr "firstUser") then 4
  else if strict_eq userId (JStr "secondUser") then 4
  else if strict_eq userId (JStr "thirdUser") then 3
  else if strict_eq userId (JStr "fourthUser") then 2
  else 1.

Local Close Scope string_scope.

(** Tactics for statements about every stage of a concrete chain. *)
Ltac all_stages tac :=
  simpl app;
  repeat lazymatch goal with
         | |- Forall _ (_ :: _) => constructor; [tac |]
         | |- Forall2 _ (_ :: _) (_ :: _) => constructor; [tac |]
         end;
  constructor.

Ltac plain_stages :=
  all_stages ltac:(intros ? ?; first [reflexivity | exact I]).

(** ** Callbacks, promises and the world they act on *)

(** How a promise settles. *)
Inductive Settle : Type :=
| Fulfilled (v : JsVal)
| Rejected (e : Exn).

(** What one call of a user function does, besides changing the user's
    own state: it returns a value, throws, or (an [async] function, or a
    function handing out a fresh promise) returns a new promise that
    settles as [s] after [hops] further turns of the microtask queue;
    [hops = 0] is an already settled promise such as
    [Promise.resolve(v)].  A promise that never settles, or that a timer
    or another event settles, is not among these results: the statements
    below are about user functions whose promises the microtask queue
    alone settles. *)
Inductive CbResult : Type :=
| Return (v : JsVal)
| Throw (e : Exn)
| ReturnAsync (hops : nat) (s : Settle).

Section WithUserState.

(** The state that the user's callbacks read and write. *)
Context {U : Type}.

(** A user function: the name under which its calls are logged, and what
    a call does on given arguments and user state. *)
Record Callback : Type := mkCallback {
  cb_id : nat;
  cb_fn : list JsVal -> U -> CbResult * U
}.

(** The body of an [async] function: a program that returns, throws,
    awaits, or calls a user function. *)
Inductive Async (A : Type) : Type :=
| ARet (a : A)
| AThrow (e : Exn)
| AAwait (v : JsVal) (k : JsVal -> Async A)
| ACall (callback : Callback) (args : list JsVal) (k : JsVal -> Async A).
Arguments ARet {A} a.
Arguments AThrow {A} e.
Arguments AAwait {A} v k.
Arguments ACall {A} callback args k.

Fixpoint Async_bind {A B : Type} (f : A -> Async B) (m : Async A) : Async B :=
  match m with
  | ARet a => f a
  | AThrow e => AThrow e
  | AAwait v k => AAwait v (fun x => Async_bind f (k x))
  | ACall cb args k => ACall cb args (fun x => Async_bind f (k x))
  end.

#[global] Instance Async_mret : MRet Async := fun A a => ARet a.
#[global] Instance Async_mbind : MBind Async := fun A B f m => Async_bind f m.

(** What is registered on a pending promise: the rest of an [async]
    function suspended at an [await], with the promise that function
    returned, or the pair of resolving functions of a promise that was
    resolved with this one. *)
Inductive Reaction : Type :=
| RResume (k : JsVal -> Async JsVal) (out : nat)
| RAdopt (out : nat).

Inductive PState : Type :=
| Pending (reactions : list Reaction)
| Settled (s : Settle).

(** Microtasks: a PromiseReactionJob, a NewPromiseResolveThenableJob, and
    the remaining turns of a user's [async] function. *)
Inductive Job : Type :=
| JReact (r : Reaction) (s : Settle)
| JThenable (q out : nat)
| JHop (hops : nat) (p : nat) (s : Settle).

(** The world: the record of the calls made to user functions (kept to
    state which functions were called, with which arguments), the user's
    state, the promises and the microtask queue. *)
Record World : Type := mkWorld {
  log : list (nat * list JsVal);   (* calls of user functions, oldest first *)
  ustate : U;
  heap : list PState;              (* promise [p] is cell [p] *)
  queue : list Job                 (* microtask queue, next job first *)
}.

Definition with_heap (h : list PState) (w : World) : World :=
  mkWorld (log w) (ustate w) h (queue w).

Definition enqueue (js : list Job) (w : World) : World :=
  mkWorld (log w) (ustate w) (heap w) (queue w ++ js).

(** Synchronous code: it may throw, and it acts on the world. *)
Definition Exec (A : Type) : Type := World -> Res A * World.

#[global] Instance Exec_mret : MRet Exec := fun A a w => (Ok a, w).
#[global] Instance Exec_mbind : MBind Exec := fun A B f m w =>
  match m w with
  | (Ok a, w') => f a w'
  | (Thrown e, w') => (Thrown e, w')
  end.

Definition lift {A : Type} (r : Res A) : Exec A := fun w => (r, w).

(** [callback(...args)] *)
Definition call (callback : Callback) (args : list JsVal) : Exec JsVal := fun w =>
  let (r, u') := cb_fn callback args (ustate w) in
  let w1 := mkWorld (log w ++ [(cb_id callback, args)]) u' (heap w) (queue w) in
  let p := length (heap w) in
  match r with
  | Return v => (Ok v, w1)
  | Throw e => (Thrown e, w1)
  | ReturnAsync 0 s => (Ok (JPromise p), with_heap (heap w ++ [Settled s]) w1)
  | ReturnAsync (S hops) s =>
      (Ok (JPromise p), enqueue [JHop hops p s] (with_heap (heap w ++ [Pending []]) w1))
  end.

(** ** monad.ts *)

Definition bind (callback : Callback) (nullishTypes : list JsVal)
    (firstArgument : JsVal) (rest : list JsVal) : Exec JsVal :=
  b ← lift (isNullish firstArgument nullishTypes);
  if b : bool then mret firstArgument
  else call callback (firstArgument :: rest).

(** The function value [pipe(prev, nullishTypes)] or
    [pipeAsync(prev, nullishTypes)]: the code and what it captured. *)
Inductive PipeFn : Type :=
| PipeSync (prev : JsVal) (nullishTypes : list JsVal)
| PipeAsync (prev : JsVal) (nullishTypes : list JsVal).

(** The object [{ value, pipe }]. *)
Record Step : Type := mkStep {
  value : JsVal;
  pipe_fn : PipeFn
}.

Definition pipe (prev : JsVal) (nullishTypes : list JsVal)
    (callback : Callback) (rest : list JsVal) : Exec Step :=
  value ← bind callback nullishTypes prev rest;
  mret (mkStep value (PipeSync value nullishTypes)).

Definition monad (firstArgument : JsVal) (nullishTypes : list JsVal) : Step :=
  mkStep firstArgument (PipeSync firstArgument nullishTypes).

(** ** Promises *)

Definition settle (p : nat) (s : Settle) (w : World) : World :=
  match heap w !! p with
  | Some (Pending rs) =>
      enqueue (map (fun r => JReact r s) rs) (with_heap (<[p := Settled s]> (heap w)) w)
  | _ => w
  end.

(** The resolving function of promise [p] called with [v]: a promise is
    adopted through a NewPromiseResolveThenableJob, any other value
    fulfills [p]. *)
Definition resolve_promise (p : nat) (v : JsVal) (w : World) : World :=
  match v with
  | JPromise q =>
      if Nat.eqb q p then settle p (Rejected (TypeError "Chaining cycle detected for promise"%string)) w
      else enqueue [JThenable q p] w
  | _ => settle p (Fulfilled v) w
  end.

Definition reject_promise (p : nat) (e : Exn) (w : World) : World :=
  settle p (Rejected e) w.

(** PerformPromiseThen *)
Definition promise_then (p : nat) (r : Reaction) (w : World) : World :=
  match heap w !! p with
  | Some (Pending rs) => with_heap (<[p := Pending (rs ++ [r])]> (heap w)) w
  | Some (Settled s) => enqueue [JReact r s] w
  | None => w
  end.

(** [Promise.resolve(v)] *)
Definition Promise_resolve (v : JsVal) : Exec JsVal := fun w =>
  match v with
  | JPromise _ => (Ok v, w)
  | _ => (Ok (JPromise (length (heap w))), with_heap (heap w ++ [Settled (Fulfilled v)]) w)
  end.

(** Run the body of an [async] function whose promise is [out] up to its
    next [await], or to its end. *)
Fixpoint run_async (body : Async JsVal) (out : nat) (w : World) : World :=
  match body with
  | ARet v => resolve_promise out v w
  | AThrow e => reject_promise out e w
  | AAwait (JPromise p) k => promise_then p (RResume k out) w
  | AAwait v k =>
      enqueue [JReact (RResume k out) (Fulfilled v)]
        (with_heap (heap w ++ [Settled (Fulfilled v)]) w)
  | ACall callback args k =>
      match call callback args w with
      | (Ok v, w') => run_async (k v) out w'
      | (Thrown e, w') => reject_promise out e w'
      end
  end.

(** Calling an [async] function: a new promise, and the body runs at once
    up to its first [await]. *)
Definition async_fn (body : Async JsVal) : Exec JsVal := fun w =>
  let out := length (heap w) in
  (Ok (JPromise out), run_async body out (with_heap (heap w ++ [Pending []]) w)).

Definition run_job (j : Job) (w : World) : World :=
  match j with
  | JReact (RResume k out) (Fulfilled v) => run_async (k v) out w
  | JReact (RResume k out) (Rejected e) => reject_promise out e w
  | JReact (RAdopt out) (Fulfilled v) => resolve_promise out v w
  | JReact (RAdopt out) (Rejected e) => reject_promise out e w
  | JThenable q out => promise_then q (RAdopt out) w
  | JHop 0 p s => settle p s w
  | JHop (S hops) p s => enqueue [JHop hops p s] w
  end.

(** One turn of the microtask queue. *)
Definition tick (w : World) : World :=
  match queue w with
  | [] => w
  | j :: js => run_job j (mkWorld (log w) (ustate w) (heap w) js)
  end.

Fixpoint drain (n : nat) (w : World) : World :=
  match n with
  | O => w
  | S n' => drain n' (tick w)
  end.

(** ** monadAsync.ts *)

(** [bindAsync] from the nullish test on: the part of the body that runs
    once [unwrappedFirst] is known. *)
Definition bindAsync_tail (callback : Callback) (nullishTypes : list JsVal)
    (rest : list JsVal) (unwrappedFirst : JsVal) : Async JsVal :=
  match isNullish unwrappedFirst nullishTypes with
  | Thrown e => AThrow e
  | Ok true => ARet unwrappedFirst
  | Ok false => ACall callback (unwrappedFirst :: rest) ARet
  end.

Definition bindAsync_body (callback : Callback) (nullishTypes : list JsVal)
    (firstArgument : JsVal) (rest : list JsVal) : Async JsVal :=
  unwrappedFirst ←
    (if instanceof_Promise firstArgument then AAwait firstArgument ARet
     else ARet firstArgument);
  bindAsync_tail callback nullishTypes rest unwrappedFirst.

Definition bindAsync (callback : Callback) (nullishTypes : list JsVal)
    (firstArgument : JsVal) (rest : list JsVal) : Exec JsVal :=
  async_fn (bindAsync_body callback nullishTypes firstArgument rest).

Definition pipeAsync (prev : JsVal) (nullishTypes : list JsVal)
    (callback : Callback) (rest : list JsVal) : Exec Step :=
  value ← bindAsync callback nullishTypes prev rest;
  wrapped ← Promise_resolve value;
  mret (mkStep wrapped (PipeAsync value nullishTypes)).

Definition monadAsync (firstArgument : JsVal) (nullishTypes : list JsVal) : Exec Step :=
  wrapped ← Promise_resolve firstArgument;
  mret (mkStep wrapped (PipeAsync firstArgument nullishTypes)).

(** [step.pipe(callback, ...rest)] *)
Definition Step_pipe (step : Step) (callback : Callback) (rest : list JsVal) : Exec Step :=
  match pipe_fn step with
  | PipeSync prev nullishTypes => pipe prev nullishTypes callback rest
  | PipeAsync prev nullishTypes => pipeAsync prev nullishTypes callback rest
  end.

(** ** The convenience wrappers *)

Definition monadRun (callback : Callback) (firstArgument : JsVal) (rest : list JsVal)
    : Exec Step :=
  let nullishTypes := [JUndefined] in
  Step_pipe (monad firstArgument nullishTypes) callback rest.

Definition monadSetup (nullishTypes : list JsVal)
    (callback : Callback) (firstArgument : JsVal) (rest : list JsVal) : Exec Step :=
  Step_pipe (monad firstArgument nullishTypes) callback rest.

Definition monadAsyncRun (callback : Callback) (firstArgument : JsVal) (rest : list JsVal)
    : Exec Step :=
  let nullishTypes := [JUndefined] in
  step ← monadAsync firstArgument nullishTypes;
  Step_pipe step callback rest.

Definition monadAsyncSetup (nullishTypes : list JsVal)
    (callback : Callback) (firstArgument : JsVal) (rest : list JsVal) : Exec Step :=
  step ← monadAsync firstArgument nullishTypes;
  Step_pipe step callback rest.


(** ** Chains *)

(** One continuation call: the user function and its extra arguments. *)
Definition Stage : Type := (Callback * list JsVal)%type.

(** [step.pipe(f1, ...r1).pipe(f2, ...r2)...]: the steps produced, in
    order.  An exception ends the evaluation of the expression. *)
Fixpoint chain (step : Step) (stages : list Stage) : Exec (list Step) :=
  match stages with
  | [] => mret []
  | (callback, rest) :: more =>
      step' ← Step_pipe step callback rest;
      steps ← chain step' more;
      mret (step' :: steps)
  end.

(** The value a consumer reads from an asynchronous step once the
    microtask queue has run: how the promise [step.value] settled. *)
Definition settled (w : World) (v : JsVal) : option Settle :=
  match v with
  | JPromise p =>
      match heap w !! p with
      | Some (Settled s) => Some s
      | _ => None
      end
  | _ => None
  end.


(** The expression [monadAsync(v0, ...M).pipe(f1, ...r1).pipe(f2, ...r2)...]:
    the initial step and the steps the continuation calls return. *)
Definition monadAsync_chain (v0 : JsVal) (M : list JsVal) (stages : list Stage)
    : Exec (list Step) :=
  step0 ← monadAsync v0 M;
  steps ← chain step0 stages;
  mret (step0 :: steps).

(** ** Vocabulary of the statements *)

(** [f_n(... f_2(f_1(v, ...r_1), ...r_2) ..., ...r_n)]: the user
    functions applied left to right, each to the result of the one before
    it and its own extra arguments. *)
Fixpoint compose (stages : list Stage) (v : JsVal) : Exec JsVal :=
  match stages with
  | [] => mret v
  | (callback, rest) :: more =>
      v' ← call callback (v :: rest);
      compose more v'
  end.

(** No value that [compose] feeds to a user function is nullish. *)
Fixpoint no_nullish_input (M : list JsVal) (stages : list Stage) (v : JsVal) (w : World)
    : Prop :=
  match stages with
  | [] => True
  | (callback, rest) :: more =>
      isNullish v M = Ok false /\
      match call callback (v :: rest) w with
      | (Ok v', w') => no_nullish_input M more v' w'
      | (Thrown _, _) => True
      end
  end.


(** The value of the last step of the chain that starts at [first]. *)
Definition final_value (first : Step) (r : Res (list Step) * World) : Res JsVal * World :=
  match r with
  | (Ok steps, w) => (Ok (value (List.last steps first)), w)
  | (Thrown e, w) => (Thrown e, w)
  end.

Definition Log : Type := list (nat * list JsVal).

(** What a consumer that awaits the result of a user function gets. *)
Definition settle_of (r : CbResult) : Settle :=
  match r with
  | Return v => Fulfilled v
  | Throw e => Rejected e
  | ReturnAsync _ s => s
  end.

(** What a consumer that awaits the result of an expression gets. *)
Definition settle_of_res (r : Res JsVal) : Settle :=
  match r with
  | Ok v => Fulfilled v
  | Thrown e => Rejected e
  end.



Definition plain_settle (s : Settle) : Prop :=
  match s with
  | Fulfilled v => instanceof_Promise v = false
  | Rejected _ => True
  end.

Definition plain_result (r : CbResult) : Prop :=
  match r with
  | Return v => instanceof_Promise v = false
  | Throw _ => True
  | ReturnAsync _ s => plain_settle s
  end.

(** A user function that returns a value that is not a promise, throws,
    or returns a fresh promise that settles with such a value. *)
Definition plain_callback (cb : Callback) : Prop :=
  forall args u, plain_result (fst (cb_fn cb args u)).

(** A user function that returns synchronously. *)
Definition sync_callback (cb : Callback) : Prop :=
  forall args u,
    match fst (cb_fn cb args u) with
    | ReturnAsync _ _ => False
    | _ => True
    end.

(** [g] is [f] made asynchronous, or [f] itself: on every input it
    resolves to what [f] returns, rejects with what [f] throws, and acts
    on the user's state as [f] does. *)
Definition same_behaviour (f g : Stage) : Prop :=
  snd f = snd g /\
  forall args u,
    settle_of (fst (cb_fn (fst g) args u)) = settle_of (fst (cb_fn (fst f) args u)) /\
    snd (cb_fn (fst g) args u) = snd (cb_fn (fst f) args u).

(** One asynchronous stage, on the settled value [s] of the stage before
    it: how its promise settles, the call log and the user's state. *)
Definition stage_denot (M : list JsVal) (st : Stage) (s : Settle) (l : Log) (u : U)
    : Settle * Log * U :=
  match s with
  | Rejected e => (Rejected e, l, u)
  | Fulfilled v =>
      match isNullish v M with
      | Thrown e => (Rejected e, l, u)
      | Ok true => (Fulfilled v, l, u)
      | Ok false =>
          let (r, u') := cb_fn (fst st) (v :: snd st) u in
          (settle_of r, l ++ [(cb_id (fst st), v :: snd st)], u')
      end
  end.

(** How a synchronous chain ends, as a consumer sees it: the value of
    its last step, or the exception that ended it. *)
Definition sync_outcome (first : Step) (r : Res (list Step) * World) : Settle :=
  match r with
  | (Ok steps, _) => Fulfilled (value (List.last steps first))
  | (Thrown e, _) => Rejected e
  end.

(** The stages of a chain one after the other. *)
Fixpoint chain_denot (M : list JsVal) (stages : list Stage) (s : Settle) (l : Log) (u : U)
    : list Settle * Log * U :=
  match stages with
  | [] => ([], l, u)
  | st :: more =>
      let '(s1, l1, u1) := stage_denot M st s l u in
      let '(ss, lf, uf) := chain_denot M more s1 l1 u1 in
      (s1 :: ss, lf, uf)
  end.

(** [reaches w w']: the microtask queue takes [w] to [w'] in some number
    of turns. *)
Definition reaches (w w' : World) : Prop := exists n, drain n w = w'.

(** How the first argument of [bindAsync] resolves: an immediate value, a
    settled promise, or the pending promise of a user's [async] function
    that is still running. *)
Inductive awaited (w : World) : JsVal -> Settle -> Prop :=
| awaited_value v :
    instanceof_Promise v = false -> queue w = [] ->
    awaited w v (Fulfilled v)
| awaited_settled p s :
    heap w !! p = Some (Settled s) -> queue w = [] ->
    awaited w (JPromise p) s
| awaited_pending p d s :
    heap w !! p = Some (Pending []) -> queue w = [JHop d p s] ->
    awaited w (JPromise p) s.

(** The promise [out] of an [async] function that returned the promise
    [p] of a user function: the states between that return and the
    settling of [out]. *)
Inductive Front (s : Settle) (p out : nat) : list PState -> list Job -> Prop :=
| Front_hop h d :
    h !! p = Some (Pending []) ->
    Front s p out h [JHop d p s; JThenable p out]
| Front_then h :
    h !! p = Some (Settled s) ->
    Front s p out h [JThenable p out]
| Front_wait h d :
    h !! p = Some (Pending [RAdopt out]) ->
    Front s p out h [JHop d p s]
| Front_adopt h :
    h !! p = Some (Settled s) ->
    Front s p out h [JReact (RAdopt out) s].

(** [h'] has the cells of [h], unchanged but for [out], and maybe more. *)
Definition extends (out : nat) (h h' : list PState) : Prop :=
  length h <= length h' /\
  forall i, i < length h -> i <> out -> h' !! i = h !! i.

(** The promises of the stages after the one that owns [out], each
    waiting on the one before it. *)
Fixpoint Linked (M : list JsVal) (h : list PState) (out : nat)
    (stages : list Stage) (outs : list nat) : Prop :=
  match stages, outs with
  | [], [] => h !! out = Some (Pending [])
  | (cb, rest) :: stages', o :: outs' =>
      h !! out = Some (Pending [RResume (bindAsync_tail cb M rest) o]) /\
      out < o /\ Linked M h o stages' outs'
  | _, _ => False
  end.

(** The stage that owns the first of [outs] is about to run on [s]. *)
Definition Ready (M : list JsVal) (h : list PState) (q : list Job) (s : Settle)
    (stages : list Stage) (outs : list nat) : Prop :=
  match stages, outs with
  | [], [] => q = []
  | (cb, rest) :: stages', o :: outs' =>
      q = [JReact (RResume (bindAsync_tail cb M rest) o) s] /\
      Linked M h o stages' outs'
  | _, _ => False
  end.

Definition settled_as (h : list PState) (o : nat) (s : Settle) : Prop :=
  h !! o = Some (Settled s).

(** The step that [pipe] returns for the value [v]. *)
Definition sstep (M : list JsVal) (v : JsVal) : Step :=
  mkStep v (PipeSync v M).

(** The step that [pipeAsync] returns for the promise [o]. *)
Definition astep (M : list JsVal) (o : nat) : Step :=
  mkStep (JPromise o) (PipeAsync (JPromise o) M).


(** ** Sample callbacks and worlds (those of the test suite) *)

Definition cbSingle : Callback := mkCallback 1 (fun _ u => (Return mockReturn, u)).
Definition cbSingleAsync : Callback :=
  mkCallback 2 (fun _ u => (ReturnAsync 1 (Fulfilled mockReturn), u)).
Definition cbNull : Callback := mkCallback 3 (fun _ u => (Return JNull, u)).
Definition cbNullAsync : Callback :=
  mkCallback 4 (fun _ u => (ReturnAsync 0 (Fulfilled JNull), u)).
Definition cbThrow : Callback := mkCallback 5 (fun _ u => (Throw boom, u)).

(** A world in which nothing has happened yet. *)
Definition idle (u : U) : World := mkWorld [] u [] [].

(** A world in which the promise [0] of a user's [async] function is
    pending and will be fulfilled with [v] at the next turn. *)
Definition waiting (u : U) (v : JsVal) : World :=
  mkWorld [] u [Pending []] [JHop 0 0 (Fulfilled v)].


(** ** example.ts as user functions *)

(** A user function of one parameter that reads and writes no state:
    [(x) => f(x)]. *)
Definition sync_fn (id : nat) (f : JsVal -> Res JsVal) : Callback :=
  mkCallback id (fun args u =>
    (match f (hd JUndefined args) with
     | Ok v => Return v
     | Thrown e => Throw e
     end, u)).

(** [async (x) => { await Promise.resolve(); return f(x); }], for an [f]
    whose results are not promises: the promise it hands out settles at
    the next turn of the microtask queue. *)
Definition async_after_turn (id : nat) (f : JsVal -> Res JsVal) : Callback :=
  mkCallback id (fun args u => (ReturnAsync 1 (settle_of_res (f (hd JUndefined args))), u)).

(** The stages of [runSyncMonad] and of [runAsyncMonad] in the test suite. *)
Definition lookups : list Stage :=
  [ (sync_fn 11 (fun x => Ok (getUser x)), []);
    (sync_fn 12 getUserPreference, []);
    (sync_fn 13 (fun x => Ok (getPreferredItemId x)), []);
    (sync_fn 14 (fun x => Ok (getItemDetails x)), []) ].

Definition lookupsAsync : list Stage :=
  [ (async_after_turn 21 (fun x => Ok (getUser x)), []);
    (async_after_turn 22 getUserPreference, []);
    (async_after_turn 23 (fun x => Ok (getPreferredItemId x)), []);
    (async_after_turn 24 (fun x => Ok (getItemDetails x)), []) ].

(** ** Vocabulary of the further statements *)

(** The calls of the first stages of a chain on the given first
    arguments: each function with its own extra arguments after the value
    it receives. *)
Fixpoint calls_of (stages : list Stage) (inputs : list JsVal) : Log :=
  match stages, inputs with
  | (callback, rest) :: stages', v :: inputs' =>
      (cb_id callback, v :: rest) :: calls_of stages' inputs'
  | _, _ => []
  end.

(** The user functions that an asynchronous chain calls on the way from
    the settled value [s] are plain on the arguments they get. *)
Fixpoint plain_run (M : list JsVal) (stages : list Stage) (s : Settle) (u : U) : Prop :=
  match stages with
  | [] => True
  | st :: more =>
      (forall v, s = Fulfilled v -> isNullish v M = Ok false ->
                 plain_result (fst (cb_fn (fst st) (v :: snd st) u))) /\
      plain_run M more (fst (fst (stage_denot M st s [] u))) (snd (stage_denot M st s [] u))
  end.


(** ** [isNullish] *)

Lemma strict_eq_null m : strict_eq m JNull = true <-> m = JNull.
Proof. destruct m; simpl; split; intros H; congruence. Qed.

Lemma composite_test m :
  negb (strict_eq m JNull) && String.eqb (typeof m) "object" = true <-> composite m.
Proof.
  unfold composite. rewrite andb_true_iff, negb_true_iff, String.eqb_eq.
  split; intros [H1 H2]; (split; [|exact H2]).
  - intros E. apply strict_eq_null in E. congruence.
  - destruct (strict_eq m JNull) eqn:E; [|reflexivity].
    apply strict_eq_null in E. contradiction.
Qed.

Lemma composite_stringify m o :
  composite m -> JSON_stringify m = Ok o -> exists s, o = Some s.
Proof.
  intros [Hn Ht] H. unfold JSON_stringify in H.
  destruct m; simpl in Ht; try discriminate; try congruence; simpl in H.
  - match type of H with match ?e with _ => _ end = _ => destruct e end;
      inversion H; eauto.
  - match type of H with match ?e with _ => _ end = _ => destruct e end;
      inversion H; eauto.
  - inversion H; eauto.
Qed.

Lemma marker_test_matches v m :
  (composite m -> serializable m /\ serializable v) ->
  exists b, marker_test v m = Ok b /\ (b = true <-> matches v m).
Proof.
  intros Hser. unfold marker_test.
  destruct (negb (strict_eq m JNull) && String.eqb (typeof m) "object") eqn:E.
  - apply composite_test in E. destruct (Hser E) as [[a Ha] [b Hb]].
    rewrite Ha, Hb. simpl.
    destruct (composite_stringify m a E Ha) as [s ->].
    eexists. split; [reflexivity|]. split.
    + destruct b as [t|]; simpl; [|discriminate].
      intros Heq. apply String.eqb_eq in Heq. subst t.
      eapply matches_serialized; eassumption.
    + intros [t Hc Hm Hv | Hc _]; [|contradiction].
      rewrite Ha in Hm. rewrite Hb in Hv. inversion Hm; subst. inversion Hv; subst.
      simpl. apply String.eqb_refl.
  - eexists. split; [reflexivity|]. split.
    + intros Heq. apply matches_strict; [|exact Heq].
      intros Hc. apply composite_test in Hc. congruence.
    + intros [t Hc _ _ | _ Heq]; [|exact Heq].
      apply composite_test in Hc. congruence.
Qed.

(** Where [isNullish] returns.  Whenever no serialization that [isNullish] may
    perform throws, that is, the value is serializable if some marker is
    composite, and so is every composite marker, [isNullish v M] returns a
    boolean, and it returns [true] if and only if some marker of [M]
    matches [v]: a composite marker by equality of the serialized forms,
    any other marker by strict equality.  [isNullish] is a function of its
    two arguments alone: it reads and writes nothing else. *)
Theorem isNullish_iff_some_marker_matches (v : JsVal) (M : list JsVal) :
  Forall (fun m => composite m -> serializable m /\ serializable v) M ->
  exists b, isNullish v M = Ok b /\
            (b = true <-> exists m, In m M /\ matches v m).
Proof.
  unfold isNullish. induction M as [|m M IH]; intros Hser.
  - exists false. split; [reflexivity|]. split; [discriminate|].
    intros (m & [] & _).
  - inversion Hser as [|? ? Hm HM]; subst.
    destruct (marker_test_matches v m Hm) as (b & Hb & Hiff).
    simpl. rewrite Hb. destruct b.
    + exists true. split; [reflexivity|]. split; [|reflexivity].
      intros _. exists m. split; [left; reflexivity | apply Hiff; reflexivity].
    + destruct (IH HM) as (b' & Hb' & Hiff').
      exists b'. split; [exact Hb'|]. rewrite Hiff'. split.
      * intros (m' & Hin & Hmatch). exists m'. split; [right; exact Hin | exact Hmatch].
      * intros (m' & [<- | Hin] & Hmatch).
        -- apply Hiff in Hmatch. discriminate.
        -- exists m'. split; assumption.
Qed.

(** C3.  On a BigInt, [isNullish] throws as soon as it comes to a marker
    that is a non-null object, for [JSON.stringify] has no serialization
    of a BigInt.  The marker [1n] matches the value [1n], yet with the
    markers [{}] and [1n] the call throws instead of returning [true];
    with [1n] before [{}] it returns [true], the strict comparison being
    reached first.  The value [123n] of the example database matches
    neither [undefined] nor [{}], yet the call throws instead of
    returning [false]. *)
Theorem isNullish_throws_on_bigint :
  matches (JBigInt 1) (JBigInt 1) /\
  isNullish (JBigInt 1) [JObj 0 []; JBigInt 1] =
    Thrown (TypeError "Do not know how to serialize a BigInt"%string) /\
  isNullish (JBigInt 1) [JBigInt 1; JObj 0 []] = Ok true /\
  (~ exists m, In m [JUndefined; JObj 0 []] /\ matches (JBigInt 123) m) /\
  isNullish (JBigInt 123) [JUndefined; JObj 0 []] =
    Thrown (TypeError "Do not know how to serialize a BigInt"%string).
Proof.
  split; [|split; [reflexivity|split; [reflexivity|split; [|reflexivity]]]].
  - apply matches_strict; [|reflexivity]. intros [_ Ht]. discriminate Ht.
  - intros (m & Hin & Hm).
    destruct Hin as [<- | [<- | []]].
    + destruct Hm as [t _ _ Hv | _ Heq]; [discriminate Hv | discriminate Heq].
    + destruct Hm as [t _ _ Hv | Hc _]; [discriminate Hv|].
      apply Hc. split; [discriminate | reflexivity].
Qed.

(** C10.  Serialized-form equality is not structural equality: with the
    marker [{}] the argument [{a: undefined}] is nullish although the two
    do not have the same keys, and [{a: 1, b: 2}] is not nullish for the
    marker [{b: 2, a: 1}] although the two are structurally equal. *)
Theorem serialization_is_not_structural_equality :
  (isNullish (JObj 1 [("a"%string, JUndefined)]) [JObj 0 []] = Ok true /\
   structurally_equal (JObj 1 [("a"%string, JUndefined)]) (JObj 0 []) = false) /\
  (isNullish (JObj 1 [("a"%string, JNum (NInt 1)); ("b"%string, JNum (NInt 2))])
     [JObj 0 [("b"%string, JNum (NInt 2)); ("a"%string, JNum (NInt 1))]] = Ok false /\
   structurally_equal
     (JObj 1 [("a"%string, JNum (NInt 1)); ("b"%string, JNum (NInt 2))])
     (JObj 0 [("b"%string, JNum (NInt 2)); ("a"%string, JNum (NInt 1))]) = true).
Proof. repeat split; vm_compute; reflexivity. Qed.

(** ** The synchronous invoker and chain *)

Lemma call_log cb args w :
  log (snd (call cb args w)) = log w ++ [(cb_id cb, args)].
Proof.
  unfold call. destruct (cb_fn cb args (ustate w)) as [[v|e|[|d] s] u']; reflexivity.
Qed.

Lemma bind_nullish fn M x rest w :
  isNullish x M = Ok true -> bind fn M x rest w = (Ok x, w).
Proof. intros H. unfold bind, mbind, Exec_mbind, lift. rewrite H. reflexivity. Qed.

Lemma bind_calls fn M x rest w :
  isNullish x M = Ok false -> bind fn M x rest w = call fn (x :: rest) w.
Proof. intros H. unfold bind, mbind, Exec_mbind, lift. rewrite H. reflexivity. Qed.

Lemma bind_throws fn M x rest w e :
  isNullish x M = Thrown e -> bind fn M x rest w = (Thrown e, w).
Proof. intros H. unfold bind, mbind, Exec_mbind, lift. rewrite H. reflexivity. Qed.


Lemma pipe_unfold prev M cb rest w :
  pipe prev M cb rest w =
  match bind cb M prev rest w with
  | (Ok v, w') => (Ok (mkStep v (PipeSync v M)), w')
  | (Thrown e, w') => (Thrown e, w')
  end.
Proof.
  unfold pipe, mbind, Exec_mbind.
  destruct (bind cb M prev rest w) as [[v|e] w']; reflexivity.
Qed.

Lemma chain_cons step cb rest more w :
  chain step ((cb, rest) :: more) w =
  match Step_pipe step cb rest w with
  | (Ok step', w') =>
      match chain step' more w' with
      | (Ok steps, w'') => (Ok (step' :: steps), w'')
      | (Thrown e, w'') => (Thrown e, w'')
      end
  | (Thrown e, w') => (Thrown e, w')
  end.
Proof.
  simpl. unfold mbind, Exec_mbind.
  destruct (Step_pipe step cb rest w) as [[step'|e] w']; [|reflexivity].
  destruct (chain step' more w') as [[steps|e] w'']; reflexivity.
Qed.

Lemma Step_pipe_async x prev M cb rest :
  Step_pipe (mkStep x (PipeAsync prev M)) cb rest = pipeAsync prev M cb rest.
Proof. reflexivity. Qed.

Lemma Step_pipe_sync x prev M cb rest :
  Step_pipe (mkStep x (PipeSync prev M)) cb rest = pipe prev M cb rest.
Proof. reflexivity. Qed.

Lemma List_last_nonempty {A : Type} (b d d' : A) (l : list A) :
  List.last (b :: l) d = List.last (b :: l) d'.
Proof.
  revert b. induction l as [|c l IH]; intros b; [reflexivity|].
  change (List.last (c :: l) d = List.last (c :: l) d'). apply IH.
Qed.

Lemma List_last_cons {A : Type} (a d : A) (l : list A) :
  List.last (a :: l) d = List.last l a.
Proof.
  destruct l as [|b l]; [reflexivity|].
  change (List.last (b :: l) d = List.last (b :: l) a). apply List_last_nonempty.
Qed.

Lemma chain_app step pre post w :
  chain step (pre ++ post) w =
  match chain step pre w with
  | (Ok steps, w') =>
      match chain (List.last steps step) post w' with
      | (Ok steps', w'') => (Ok (steps ++ steps'), w'')
      | (Thrown e, w'') => (Thrown e, w'')
      end
  | (Thrown e, w') => (Thrown e, w')
  end.
Proof.
  revert step w. induction pre as [|[cb rest] pre IH]; intros step w.
  - simpl app. change (chain step [] w) with (Ok (@nil Step), w). simpl.
    destruct (chain step post w) as [[steps'|e] w'']; reflexivity.
  - simpl app. rewrite !chain_cons.
    destruct (Step_pipe step cb rest w) as [[step'|e] w']; [|reflexivity].
    rewrite IH.
    destruct (chain step' pre w') as [[steps|e] w'']; [|reflexivity].
    rewrite List_last_cons.
    destruct (chain (List.last steps step') post w'') as [[steps'|e] w3]; reflexivity.
Qed.


Lemma chain_sstep_cons M v cb rest more w :
  chain (sstep M v) ((cb, rest) :: more) w =
  match bind cb M v rest w with
  | (Ok v1, w1) =>
      match chain (sstep M v1) more w1 with
      | (Ok steps, w2) => (Ok (sstep M v1 :: steps), w2)
      | (Thrown e, w2) => (Thrown e, w2)
      end
  | (Thrown e, w1) => (Thrown e, w1)
  end.
Proof.
  rewrite chain_cons. unfold sstep at 1. rewrite Step_pipe_sync, pipe_unfold.
  destruct (bind cb M v rest w) as [[v1|e] w1]; reflexivity.
Qed.

Lemma chain_sync_shape M stages : forall v w steps w',
  chain (sstep M v) stages w = (Ok steps, w') ->
  exists vs, steps = map (sstep M) vs.
Proof.
  induction stages as [|[cb rest] more IH]; intros v w steps w' H.
  - inversion H. exists []. reflexivity.
  - rewrite chain_cons in H. unfold sstep at 1 in H.
    rewrite Step_pipe_sync, pipe_unfold in H.
    destruct (bind cb M v rest w) as [[v1|e] w1]; [|discriminate].
    destruct (chain (mkStep v1 (PipeSync v1 M)) more w1) as [[steps1|e] w2] eqn:E;
      [|discriminate].
    inversion H; subst. destruct (IH v1 w1 steps1 w' E) as [vs ->].
    exists (v1 :: vs). reflexivity.
Qed.

Lemma last_sstep M vs v :
  List.last (map (sstep M) vs) (sstep M v) = sstep M (List.last vs v).
Proof.
  revert v. induction vs as [|a vs IH]; intros v; [reflexivity|].
  change (map (sstep M) (a :: vs)) with (sstep M a :: map (sstep M) vs).
  rewrite !List_last_cons. apply IH.
Qed.

Lemma chain_nullish M v stages : forall w,
  isNullish v M = Ok true ->
  chain (sstep M v) stages w = (Ok (repeat (sstep M v) (length stages)), w).
Proof.
  induction stages as [|[cb rest] more IH]; intros w H; [reflexivity|].
  rewrite chain_cons. unfold sstep at 1.
  rewrite Step_pipe_sync, pipe_unfold, (bind_nullish _ _ _ _ _ H).
  fold (sstep M v). rewrite (IH w H). reflexivity.
Qed.

Lemma chain_compose M stages : forall v w,
  no_nullish_input M stages v w ->
  final_value (sstep M v) (chain (sstep M v) stages w) = compose stages v w.
Proof.
  induction stages as [|[cb rest] more IH]; intros v w H; [reflexivity|].
  destruct H as [Hn H].
  rewrite chain_cons. unfold sstep at 2.
  rewrite Step_pipe_sync, pipe_unfold, (bind_calls _ _ _ _ _ Hn).
  simpl compose. unfold mbind, Exec_mbind.
  destruct (call cb (v :: rest) w) as [[v1|e] w1]; [|reflexivity].
  fold (sstep M v1). rewrite <- (IH v1 w1 H).
  destruct (chain (sstep M v1) more w1) as [[steps|e] w2]; [|reflexivity].
  unfold final_value. rewrite List_last_cons. reflexivity.
Qed.

Lemma no_nullish_input_empty stages : forall v w, no_nullish_input [] stages v w.
Proof.
  induction stages as [|[cb rest] more IH]; intros v w; simpl; [exact I|].
  split; [reflexivity|].
  destruct (call cb (v :: rest) w) as [[v1|e] w1]; [apply IH | exact I].
Qed.

Lemma compose_log stages : forall v w v' w',
  compose stages v w = (Ok v', w') ->
  length (log w') = length (log w) + length stages.
Proof.
  induction stages as [|[cb rest] more IH]; intros v w v' w' H.
  - inversion H; subst. simpl. lia.
  - simpl in H. unfold mbind, Exec_mbind in H.
    pose proof (call_log cb (v :: rest) w) as Hl.
    destruct (call cb (v :: rest) w) as [[v1|e] w1]; [|discriminate].
    simpl in Hl. rewrite (IH _ _ _ _ H), Hl, length_app. simpl. lia.
Qed.

(** C9.  [isNullish(v, [])] is false for every [v].  So a chain started
    with no marker never takes the short cut: a continuation call is the
    call of its user function on the current value, [undefined] and [null]
    included, and the chain as a whole is the composition of its user
    functions, each of them called (as long as none throws). *)
Theorem empty_markers_never_short_circuit :
  (forall v, isNullish v [] = Ok false) /\
  (forall prev cb rest w,
     bind cb [] prev rest w = call cb (prev :: rest) w /\
     log (snd (Step_pipe (monad prev []) cb rest w)) = log w ++ [(cb_id cb, prev :: rest)]) /\
  (forall v0 stages w,
     final_value (monad v0 []) (chain (monad v0 []) stages w) = compose stages v0 w) /\
  (forall v0 stages w steps w',
     chain (monad v0 []) stages w = (Ok steps, w') ->
     length (log w') = length (log w) + length stages).
Proof.
  split; [reflexivity|]. split; [|split].
  - intros prev cb rest w. split; [apply bind_calls; reflexivity|].
    unfold monad. rewrite Step_pipe_sync, pipe_unfold, (bind_calls cb [] prev rest w eq_refl).
    pose proof (call_log cb (prev :: rest) w) as Hl.
    destruct (call cb (prev :: rest) w) as [[v|e] w1]; exact Hl.
  - intros v0 stages w. apply (chain_compose [] stages v0 w), no_nullish_input_empty.
  - intros v0 stages w steps w' H.
    pose proof (chain_compose [] stages v0 w (no_nullish_input_empty _ _ _)) as Hc.
    unfold monad in H. fold (sstep [] v0) in H. rewrite H in Hc. simpl in Hc.
    symmetry in Hc. apply (compose_log _ _ _ _ _ Hc).
Qed.

(** A synchronous chain whose stages never see a nullish value. *)
Lemma sync_chain_is_composition M stages v0 w :
  no_nullish_input M stages v0 w ->
  final_value (monad v0 M) (chain (monad v0 M) stages w) = compose stages v0 w.
Proof. apply chain_compose. Qed.

(** A synchronous chain past a nullish value. *)
Lemma sync_nullish_propagates M v0 pre post w steps wk :
  chain (monad v0 M) pre w = (Ok steps, wk) ->
  isNullish (value (List.last steps (monad v0 M))) M = Ok true ->
  exists steps',
    chain (monad v0 M) (pre ++ post) w = (Ok (steps ++ steps'), wk) /\
    length steps' = length post /\
    Forall (fun s => value s = value (List.last steps (monad v0 M))) steps'.
Proof.
  intros Hpre Hn. rewrite chain_app, Hpre.
  change (monad v0 M) with (sstep M v0) in *.
  destruct (chain_sync_shape _ _ _ _ _ _ Hpre) as [vs ->].
  rewrite last_sstep in Hn |- *. simpl in Hn.
  rewrite (chain_nullish M _ post wk Hn).
  eexists. split; [reflexivity|]. split; [apply repeat_length|].
  apply Forall_forall. intros s Hs. apply list_elem_of_In, repeat_spec in Hs.
  subst s. reflexivity.
Qed.

(** ** The microtask queue at work *)

Implicit Types (w : World) (h : list PState).

Lemma drain_add a b w : drain (a + b) w = drain b (drain a w).
Proof. revert w. induction a as [|a IH]; intros w; simpl; [reflexivity | apply IH]. Qed.

Lemma tick_idle w : queue w = [] -> tick w = w.
Proof. intros H. unfold tick. rewrite H. reflexivity. Qed.

Lemma drain_idle n w : queue w = [] -> drain n w = w.
Proof.
  intros H. induction n as [|n IH]; simpl; [reflexivity|].
  rewrite tick_idle by exact H. exact IH.
Qed.

Lemma reaches_refl w : reaches w w.
Proof. exists 0. reflexivity. Qed.

Lemma reaches_tick w w' : reaches (tick w) w' -> reaches w w'.
Proof. intros [n H]. exists (S n). exact H. Qed.

Lemma reaches_trans w1 w2 w3 : reaches w1 w2 -> reaches w2 w3 -> reaches w1 w3.
Proof. intros [a Ha] [b Hb]. exists (a + b). rewrite drain_add, Ha. exact Hb. Qed.

Lemma reaches_idle w w' : reaches w w' -> queue w' = [] ->
  exists n, forall m, n <= m -> drain m w = w'.
Proof.
  intros [n Hn] Hq. exists n. intros m Hm.
  replace m with (n + (m - n)) by lia.
  rewrite drain_add, Hn. apply drain_idle, Hq.
Qed.

Lemma settle_pending p s w rs :
  heap w !! p = Some (Pending rs) ->
  settle p s w = mkWorld (log w) (ustate w) (<[p := Settled s]> (heap w))
                   (queue w ++ map (fun r => JReact r s) rs).
Proof. intros H. unfold settle. rewrite H. reflexivity. Qed.

Lemma resolve_plain p v w :
  instanceof_Promise v = false -> resolve_promise p v w = settle p (Fulfilled v) w.
Proof. destruct v; simpl; intros; congruence. Qed.

Lemma adopt_job s out w :
  plain_settle s ->
  run_job (JReact (RAdopt out) s) w = settle out s w.
Proof.
  destruct s as [v|e]; simpl; intros Hs; [apply resolve_plain, Hs | reflexivity].
Qed.


Lemma tick_cons l u h j q :
  tick (mkWorld l u h (j :: q)) = run_job j (mkWorld l u h q).
Proof. reflexivity. Qed.

Lemma then_pending p r l u h q rs :
  h !! p = Some (Pending rs) ->
  promise_then p r (mkWorld l u h q) = mkWorld l u (<[p := Pending (rs ++ [r])]> h) q.
Proof. intros H. unfold promise_then. simpl. rewrite H. reflexivity. Qed.

Lemma then_settled p r l u h q s :
  h !! p = Some (Settled s) ->
  promise_then p r (mkWorld l u h q) = mkWorld l u h (q ++ [JReact r s]).
Proof. intros H. unfold promise_then. simpl. rewrite H. reflexivity. Qed.

Lemma settle_cell p s l u h q rs :
  h !! p = Some (Pending rs) ->
  settle p s (mkWorld l u h q) =
  mkWorld l u (<[p := Settled s]> h) (q ++ map (fun r => JReact r s) rs).
Proof. intros H. unfold settle. simpl. rewrite H. reflexivity. Qed.

Lemma front_adopt_settles s p out l u h rs :
  plain_settle s ->
  h !! p = Some (Settled s) ->
  h !! out = Some (Pending rs) ->
  reaches (mkWorld l u h [JReact (RAdopt out) s])
          (mkWorld l u (<[out := Settled s]> (<[p := Settled s]> h))
             (map (fun r => JReact r s) rs)).
Proof.
  intros Hs Hp Hout. apply reaches_tick. rewrite tick_cons.
  rewrite adopt_job by exact Hs.
  rewrite (settle_cell _ _ _ _ _ _ _ Hout).
  rewrite (list_insert_id h p) by exact Hp. apply reaches_refl.
Qed.

Lemma front_wait_settles s p out l u h rs d :
  plain_settle s -> p <> out ->
  h !! p = Some (Pending [RAdopt out]) ->
  h !! out = Some (Pending rs) ->
  reaches (mkWorld l u h [JHop d p s])
          (mkWorld l u (<[out := Settled s]> (<[p := Settled s]> h))
             (map (fun r => JReact r s) rs)).
Proof.
  intros Hs Hne Hp Hout. induction d as [|d IH].
  - apply reaches_tick. rewrite tick_cons. simpl run_job.
    rewrite (settle_cell _ _ _ _ _ _ _ Hp). simpl.
    eapply reaches_trans.
    + apply (front_adopt_settles s p out l u _ rs Hs).
      * apply list_lookup_insert_eq. eapply lookup_lt_Some, Hp.
      * rewrite list_lookup_insert_ne by exact Hne. exact Hout.
    + rewrite list_insert_insert_eq. apply reaches_refl.
  - apply reaches_tick. rewrite tick_cons. exact IH.
Qed.

Lemma front_then_settles s p out l u h rs :
  plain_settle s ->
  h !! p = Some (Settled s) ->
  h !! out = Some (Pending rs) ->
  reaches (mkWorld l u h [JThenable p out])
          (mkWorld l u (<[out := Settled s]> (<[p := Settled s]> h))
             (map (fun r => JReact r s) rs)).
Proof.
  intros Hs Hp Hout. apply reaches_tick. rewrite tick_cons. simpl run_job.
  rewrite (then_settled _ _ _ _ _ _ _ Hp). simpl.
  apply front_adopt_settles; assumption.
Qed.

Lemma front_hop_settles s p out l u h rs d :
  plain_settle s -> p <> out ->
  h !! p = Some (Pending []) ->
  h !! out = Some (Pending rs) ->
  reaches (mkWorld l u h [JHop d p s; JThenable p out])
          (mkWorld l u (<[out := Settled s]> (<[p := Settled s]> h))
             (map (fun r => JReact r s) rs)).
Proof.
  intros Hs Hne Hp Hout. apply reaches_tick. rewrite tick_cons.
  destruct d as [|d]; simpl run_job.
  - rewrite (settle_cell _ _ _ _ _ _ _ Hp). simpl.
    eapply reaches_trans.
    + apply (front_then_settles s p out l u _ rs Hs).
      * apply list_lookup_insert_eq. eapply lookup_lt_Some, Hp.
      * rewrite list_lookup_insert_ne by exact Hne. exact Hout.
    + rewrite list_insert_insert_eq. apply reaches_refl.
  - unfold enqueue. simpl. apply reaches_tick. rewrite tick_cons. simpl run_job.
    rewrite (then_pending _ _ _ _ _ _ _ Hp). simpl.
    eapply reaches_trans.
    + apply (front_wait_settles s p out l u _ rs d Hs Hne).
      * apply list_lookup_insert_eq. eapply lookup_lt_Some, Hp.
      * rewrite list_lookup_insert_ne by exact Hne. exact Hout.
    + rewrite list_insert_insert_eq. apply reaches_refl.
Qed.

Lemma front_settles s p out l u h q rs :
  plain_settle s -> p <> out ->
  Front s p out h q ->
  h !! out = Some (Pending rs) ->
  reaches (mkWorld l u h q)
          (mkWorld l u (<[out := Settled s]> (<[p := Settled s]> h))
             (map (fun r => JReact r s) rs)).
Proof.
  intros Hs Hne HF Hout.
  destruct HF as [h d Hp | h Hp | h d Hp | h Hp].
  - apply front_hop_settles; assumption.
  - apply front_then_settles; assumption.
  - apply front_wait_settles; assumption.
  - apply front_adopt_settles with (p := p); assumption.
Qed.

Lemma extends_refl out h : extends out h h.
Proof. split; [lia | reflexivity]. Qed.

Lemma extends_insert out h c : extends out h (<[out := c]> h).
Proof.
  split; [rewrite length_insert; lia |].
  intros i _ Hi. apply list_lookup_insert_ne. congruence.
Qed.

Lemma extends_app out h c : extends out h (h ++ c).
Proof.
  split; [rewrite length_app; lia |].
  intros i Hi _. apply lookup_app_l, Hi.
Qed.

Lemma extends_trans out h1 h2 h3 :
  extends out h1 h2 -> extends out h2 h3 -> extends out h1 h3.
Proof.
  intros [L1 F1] [L2 F2]. split; [lia |].
  intros i Hi Hne. rewrite F2 by (try lia; exact Hne). apply F1; assumption.
Qed.

Lemma tail_runs cb M rest v out l u h q rs s' l' u' :
  plain_callback cb ->
  instanceof_Promise v = false ->
  h !! out = Some (Pending rs) ->
  stage_denot M (cb, rest) (Fulfilled v) l u = (s', l', u') ->
  plain_settle s' /\
  exists h' q',
    run_async (bindAsync_tail cb M rest v) out (mkWorld l u h q) = mkWorld l' u' h' q' /\
    extends out h h' /\
    ((h' !! out = Some (Settled s') /\ q' = q ++ map (fun r => JReact r s') rs) \/
     (exists p qf, length h <= p /\ p < length h' /\
        h' !! out = Some (Pending rs) /\ q' = q ++ qf /\ Front s' p out h' qf)).
Proof.
  intros Hcb Hv Hout Hd.
  unfold stage_denot in Hd. unfold bindAsync_tail.
  destruct (isNullish v M) as [[|]|e]; simpl in Hd.
  - (* nullish: the value is echoed *)
    inversion Hd; subst. split; [exact Hv|].
    simpl run_async. rewrite resolve_plain by exact Hv.
    rewrite (settle_cell _ _ _ _ _ _ _ Hout).
    eexists _, _. split; [reflexivity|]. split; [apply extends_insert|].
    left. split; [|reflexivity].
    apply list_lookup_insert_eq. eapply lookup_lt_Some, Hout.
  - (* the callback is called *)
    simpl run_async. unfold call. simpl ustate. simpl log. simpl heap. simpl queue.
    specialize (Hcb (v :: rest) u).
    destruct (cb_fn cb (v :: rest) u) as [r u1]. simpl in Hcb.
    inversion Hd; subst. clear Hd.
    destruct r as [v1|e|[|d] s]; simpl in *.
    + split; [exact Hcb|].
      rewrite resolve_plain by exact Hcb.
      rewrite (settle_cell _ _ _ _ _ _ _ Hout).
      eexists _, _. split; [reflexivity|]. split; [apply extends_insert|].
      left. split; [|reflexivity].
      apply list_lookup_insert_eq. eapply lookup_lt_Some, Hout.
    + split; [exact I|].
      unfold reject_promise. rewrite (settle_cell _ _ _ _ _ _ _ Hout).
      eexists _, _. split; [reflexivity|]. split; [apply extends_insert|].
      left. split; [|reflexivity].
      apply list_lookup_insert_eq. eapply lookup_lt_Some, Hout.
    + split; [exact Hcb|].
      pose proof (lookup_lt_Some _ _ _ Hout) as Hlt.
      unfold with_heap. simpl.
      destruct (Nat.eqb_spec (length h) out) as [E|E]; [lia|].
      unfold enqueue. simpl.
      eexists _, _. split; [reflexivity|]. split; [apply extends_app|].
      right. exists (length h), [JThenable (length h) out].
      rewrite length_app. simpl. repeat split; try lia.
      * apply lookup_app_l_Some, Hout.
      * apply Front_then. apply list_lookup_middle. reflexivity.
    + split; [exact Hcb|].
      pose proof (lookup_lt_Some _ _ _ Hout) as Hlt.
      unfold with_heap, enqueue. simpl.
      destruct (Nat.eqb_spec (length h) out) as [E|E]; [lia|].
      simpl.
      eexists _, _. split; [rewrite <- app_assoc; reflexivity|]. split; [apply extends_app|].
      right. exists (length h), [JHop d (length h) s; JThenable (length h) out].
      rewrite length_app. simpl. repeat split; try lia.
      * apply lookup_app_l_Some, Hout.
      * apply Front_hop. apply list_lookup_middle. reflexivity.
  - (* the nullish test throws *)
    inversion Hd; subst. split; [exact I|].
    simpl run_async. unfold reject_promise. rewrite (settle_cell _ _ _ _ _ _ _ Hout).
    eexists _, _. split; [reflexivity|]. split; [apply extends_insert|].
    left. split; [|reflexivity].
    apply list_lookup_insert_eq. eapply lookup_lt_Some, Hout.
Qed.

Lemma settled_then_extends p out s h h' :
  extends out h h' -> length h <= p ->
  extends out h (<[out := Settled s]> (<[p := Settled s]> h')).
Proof.
  intros [L F] Hp. split; [rewrite !length_insert; lia |].
  intros i Hi Hne.
  rewrite list_lookup_insert_ne by congruence.
  rewrite list_lookup_insert_ne by lia. apply F; assumption.
Qed.

Lemma stage_runs cb M rest o s l u h rs s1 l1 u1 :
  plain_callback cb -> plain_settle s ->
  h !! o = Some (Pending rs) ->
  stage_denot M (cb, rest) s l u = (s1, l1, u1) ->
  plain_settle s1 /\
  exists h1,
    reaches (mkWorld l u h [JReact (RResume (bindAsync_tail cb M rest) o) s])
            (mkWorld l1 u1 h1 (map (fun r => JReact r s1) rs)) /\
    h1 !! o = Some (Settled s1) /\ extends o h h1.
Proof.
  intros Hcb Hs Ho Hd. destruct s as [v|e].
  - destruct (tail_runs cb M rest v o l u h [] rs s1 l1 u1 Hcb Hs Ho Hd)
      as (Hs1 & h' & q' & Hrun & Hext & Hcase).
    split; [exact Hs1|].
    destruct Hcase as [[Hset ->] | (p & qf & Hp1 & Hp2 & Hpend & -> & HF)].
    + exists h'. split; [|split; assumption].
      apply reaches_tick. rewrite tick_cons. simpl run_job. rewrite Hrun.
      apply reaches_refl.
    + exists (<[o := Settled s1]> (<[p := Settled s1]> h')).
      pose proof (lookup_lt_Some _ _ _ Ho) as Hlt.
      split; [|split].
      * apply reaches_tick. rewrite tick_cons. simpl run_job. rewrite Hrun. simpl.
        apply front_settles; try assumption. lia.
      * apply list_lookup_insert_eq. rewrite length_insert.
        destruct Hext. lia.
      * apply settled_then_extends; assumption.
  - simpl in Hd. inversion Hd; subst. split; [exact I|].
    exists (<[o := Settled (Rejected e)]> h). split; [|split].
    + apply reaches_tick. rewrite tick_cons. simpl run_job.
      unfold reject_promise. rewrite (settle_cell _ _ _ _ _ _ _ Ho).
      apply reaches_refl.
    + apply list_lookup_insert_eq. eapply lookup_lt_Some, Ho.
    + apply extends_insert.
Qed.

Lemma Linked_lt M h out stages outs :
  Linked M h out stages outs -> Forall (lt out) outs.
Proof.
  revert out outs. induction stages as [|[cb rest] stages IH]; intros out [|o outs] H;
    simpl in H; try contradiction; [constructor|].
  destruct H as (_ & Hlt & H). constructor; [exact Hlt|].
  eapply Forall_impl; [apply (IH _ _ H)|]. simpl. intros; lia.
Qed.

Lemma Linked_bound M h out stages outs :
  Linked M h out stages outs -> out < length h.
Proof.
  destruct stages as [|[cb rest] stages], outs as [|o outs]; simpl; try contradiction.
  - apply lookup_lt_Some.
  - intros (H & _). eapply lookup_lt_Some, H.
Qed.

Lemma Linked_bound_all M h out stages outs :
  Linked M h out stages outs -> Forall (fun o => o < length h) outs.
Proof.
  revert out outs. induction stages as [|[cb rest] stages IH]; intros out [|o outs] H;
    simpl in H; try contradiction; [constructor|].
  destruct H as (_ & _ & H). constructor; [eapply Linked_bound, H | eapply IH, H].
Qed.

Lemma Linked_frame M h h' out stages outs :
  Linked M h out stages outs ->
  (forall i, In i (out :: outs) -> h' !! i = h !! i) ->
  Linked M h' out stages outs.
Proof.
  revert out outs. induction stages as [|[cb rest] stages IH]; intros out [|o outs] H F;
    simpl in H |- *; try contradiction.
  - rewrite F; [exact H | left; reflexivity].
  - destruct H as (H1 & Hlt & H2). split; [|split; [exact Hlt|]].
    + rewrite F; [exact H1 | left; reflexivity].
    + apply IH; [exact H2|]. intros i Hi. apply F. right. exact Hi.
Qed.

Lemma Linked_fire M h out stages outs :
  Linked M h out stages outs ->
  exists rs, h !! out = Some (Pending rs) /\
    forall h' s, (forall i, In i outs -> h' !! i = h !! i) ->
      Ready M h' (map (fun r => JReact r s) rs) s stages outs.
Proof.
  destruct stages as [|[cb rest] stages], outs as [|o outs]; simpl; try contradiction.
  - intros H. exists []. split; [exact H|]. reflexivity.
  - intros (H1 & Hlt & H2). eexists. split; [exact H1|].
    intros h' s F. split; [reflexivity|].
    eapply Linked_frame; [exact H2|]. exact F.
Qed.

Lemma ready_runs M stages : forall outs h q s l u ss lf uf,
  plain_settle s ->
  Forall (fun st => plain_callback (fst st)) stages ->
  Ready M h q s stages outs ->
  chain_denot M stages s l u = (ss, lf, uf) ->
  exists hf,
    reaches (mkWorld l u h q) (mkWorld lf uf hf []) /\
    Forall2 (settled_as hf) outs ss /\
    length h <= length hf /\
    (forall i, i < length h -> Forall (lt i) outs -> hf !! i = h !! i).
Proof.
  induction stages as [|[cb rest] stages IH]; intros outs h q s l u ss lf uf Hs Hcbs HR Hd.
  - destruct outs; simpl in HR; [|contradiction]. subst q.
    simpl in Hd. inversion Hd; subst.
    exists h. split; [apply reaches_refl|]. split; [constructor|]. split; [lia|]. reflexivity.
  - destruct outs as [|o outs]; simpl in HR; [contradiction|].
    destruct HR as (-> & HL).
    simpl in Hd.
    destruct (stage_denot M (cb, rest) s l u) as [[s1 l1] u1] eqn:Hst.
    destruct (chain_denot M stages s1 l1 u1) as [[ss' lf'] uf'] eqn:Hch.
    inversion Hd; subst. clear Hd.
    inversion Hcbs as [|? ? Hcb Hcbs']; subst. simpl in Hcb.
    destruct (Linked_fire _ _ _ _ _ HL) as (rs & Ho & Hfire).
    destruct (stage_runs cb M rest o s l u h rs s1 l1 u1 Hcb Hs Ho Hst)
      as (Hs1 & h1 & Hreach & Hset & Hext).
    destruct Hext as [Hlen Hfr].
    assert (HR1 : Ready M h1 (map (fun r => JReact r s1) rs) s1 stages outs).
    { apply Hfire. intros i Hi.
      pose proof (Linked_lt _ _ _ _ _ HL) as Hlts.
      pose proof (Linked_bound_all _ _ _ _ _ HL) as Hbs.
      rewrite Forall_forall in Hlts, Hbs.
      apply list_elem_of_In in Hi.
      specialize (Hlts i Hi). specialize (Hbs i Hi). simpl in Hbs.
      apply Hfr; lia. }
    destruct (IH outs h1 _ s1 l1 u1 ss' lf uf Hs1 Hcbs' HR1 Hch)
      as (hf & Hreach' & Hall & Hlen' & Hfr').
    exists hf. split; [eapply reaches_trans; eassumption|].
    pose proof (lookup_lt_Some _ _ _ Ho) as Hlt.
    split; [|split; [lia|]].
    + constructor; [|exact Hall]. unfold settled_as.
      rewrite Hfr'; [exact Hset | lia | eapply Linked_lt, HL].
    + intros i Hi Hall'. inversion Hall'; subst.
      rewrite Hfr'; [apply Hfr; lia | lia | assumption].
Qed.

(** *** Building the chain *)

Lemma pipeAsync_promise M p cb rest w :
  pipeAsync (JPromise p) M cb rest w =
  (Ok (astep M (length (heap w))),
   promise_then p (RResume (bindAsync_tail cb M rest) (length (heap w)))
     (with_heap (heap w ++ [Pending []]) w)).
Proof. reflexivity. Qed.

Lemma pipeAsync_value M v cb rest w :
  instanceof_Promise v = false ->
  pipeAsync v M cb rest w =
  (Ok (astep M (length (heap w))),
   run_async (bindAsync_tail cb M rest v) (length (heap w))
     (with_heap (heap w ++ [Pending []]) w)).
Proof. destruct v; simpl; intros H; try discriminate; reflexivity. Qed.

Lemma build_linked M stages : forall l u h q prevp x,
  h !! prevp = Some (Pending []) ->
  exists outs hb,
    chain (mkStep x (PipeAsync (JPromise prevp) M)) stages (mkWorld l u h q) =
      (Ok (map (astep M) outs), mkWorld l u hb q) /\
    Linked M hb prevp stages outs /\
    extends prevp h hb /\
    Forall (le (length h)) outs.
Proof.
  induction stages as [|[cb rest] more IH]; intros l u h q prevp x Hp.
  - exists [], h. split; [reflexivity|]. split; [exact Hp|].
    split; [apply extends_refl | constructor].
  - pose proof (lookup_lt_Some _ _ _ Hp) as Hlt.
    rewrite chain_cons. rewrite Step_pipe_async.
    rewrite pipeAsync_promise. simpl heap. unfold with_heap. simpl.
    rewrite (then_pending prevp _ l u (h ++ [Pending []]) q [])
      by (apply lookup_app_l_Some, Hp).
    simpl app.
    set (h2 := <[prevp := Pending [RResume (bindAsync_tail cb M rest) (length h)]]>
                 (h ++ [Pending []])).
    assert (Ho : h2 !! length h = Some (Pending [])).
    { unfold h2. rewrite list_lookup_insert_ne by lia.
      apply list_lookup_middle. reflexivity. }
    destruct (IH l u h2 q (length h) (JPromise (length h)) Ho)
      as (outs & hb & Hch & HL & [Hlen Hfr] & Hge).
    unfold astep at 1. rewrite Hch.
    assert (Hlen2 : length h2 = S (length h)).
    { unfold h2. rewrite length_insert, length_app. simpl. lia. }
    exists (length h :: outs), hb. split; [reflexivity|].
    split; [|split].
    + simpl. split; [|split; [exact Hlt | exact HL]].
      rewrite Hfr by lia. unfold h2.
      apply list_lookup_insert_eq. rewrite length_app. simpl. lia.
    + split; [lia|]. intros i Hi Hne.
      rewrite Hfr by lia. unfold h2.
      rewrite list_lookup_insert_ne by congruence.
      apply lookup_app_l, Hi.
    + constructor; [lia|]. eapply Forall_impl; [exact Hge|]. simpl. intros; lia.
Qed.

Lemma build_ready M stages : forall l u h q p x s,
  h !! p = Some (Settled s) ->
  exists outs hb qb,
    chain (mkStep x (PipeAsync (JPromise p) M)) stages (mkWorld l u h q) =
      (Ok (map (astep M) outs), mkWorld l u hb (q ++ qb)) /\
    Ready M hb qb s stages outs /\
    length h <= length hb /\
    (forall i, i < length h -> hb !! i = h !! i) /\
    Forall (le (length h)) outs.
Proof.
  intros l u h q p x s Hp. destruct stages as [|[cb rest] more].
  - exists [], h, []. rewrite app_nil_r. split; [reflexivity|].
    split; [reflexivity|]. split; [lia|]. split; [reflexivity | constructor].
  - pose proof (lookup_lt_Some _ _ _ Hp) as Hlt.
    rewrite chain_cons. rewrite Step_pipe_async.
    rewrite pipeAsync_promise. simpl heap. unfold with_heap. simpl.
    rewrite (then_settled p _ l u (h ++ [Pending []]) q s)
      by (apply lookup_app_l_Some, Hp).
    assert (Ho : (h ++ [Pending []]) !! length h = Some (Pending [])).
    { apply list_lookup_middle. reflexivity. }
    destruct (build_linked M more l u (h ++ [Pending []])
                (q ++ [JReact (RResume (bindAsync_tail cb M rest) (length h)) s])
                (length h) (JPromise (length h)) Ho)
      as (outs & hb & Hch & HL & [Hlen Hfr] & Hge).
    unfold astep at 1. rewrite Hch.
    rewrite length_app in Hlen, Hfr, Hge. simpl in Hlen, Hfr, Hge.
    exists (length h :: outs), hb, [JReact (RResume (bindAsync_tail cb M rest) (length h)) s].
    split; [reflexivity|]. split; [split; [reflexivity | exact HL]|].
    split; [lia|]. split.
    + intros i Hi. rewrite Hfr by lia. apply lookup_app_l, Hi.
    + constructor; [lia|]. eapply Forall_impl; [exact Hge|]. simpl. intros; lia.
Qed.

Lemma Front_frame s p out h h' q :
  Front s p out h q -> h' !! p = h !! p -> Front s p out h' q.
Proof.
  intros HF E. destruct HF; constructor; rewrite E; assumption.
Qed.

Lemma chain_denot_cons M st more s l u :
  chain_denot M (st :: more) s l u =
  let '(s1, l1, u1) := stage_denot M st s l u in
  let '(ss, lf, uf) := chain_denot M more s1 l1 u1 in
  (s1 :: ss, lf, uf).
Proof. reflexivity. Qed.

Lemma hop_settles s p l u h rs d :
  h !! p = Some (Pending rs) ->
  reaches (mkWorld l u h [JHop d p s])
          (mkWorld l u (<[p := Settled s]> h) (map (fun r => JReact r s) rs)).
Proof.
  intros Hp. induction d as [|d IH].
  - apply reaches_tick. rewrite tick_cons. simpl run_job.
    rewrite (settle_cell _ _ _ _ _ _ _ Hp). apply reaches_refl.
  - apply reaches_tick. rewrite tick_cons. exact IH.
Qed.

(** Building an asynchronous chain on an initial value that resolves as
    [s0], and then letting the microtask queue run: every step's promise
    settles the way [chain_denot] says, and the user functions have been
    called as it says. *)
Lemma async_chain_run M stages v0 w s0 ss lf uf :
  awaited w v0 s0 ->
  plain_settle s0 ->
  Forall (fun st => plain_callback (fst st)) stages ->
  chain_denot M stages s0 (log w) (ustate w) = (ss, lf, uf) ->
  exists steps wb,
    monadAsync_chain v0 M stages w = (Ok steps, wb) /\
    Forall (fun step => instanceof_Promise (value step) = true) steps /\
    exists n, forall m, n <= m ->
      queue (drain m wb) = [] /\
      log (drain m wb) = lf /\
      ustate (drain m wb) = uf /\
      Forall2 (fun step s => settled (drain m wb) (value step) = Some s)
        steps (s0 :: ss).
Proof.
  intros Haw Hs0 Hcbs Hd. destruct w as [l u h q]. cbn [log ustate] in Hd.
  assert (Hfin : forall p0 x outs wb hf,
    reaches wb (mkWorld lf uf hf []) ->
    hf !! p0 = Some (Settled s0) ->
    Forall2 (settled_as hf) outs ss ->
    Forall (fun step => instanceof_Promise (value step) = true)
      (mkStep (JPromise p0) x :: map (astep M) outs) /\
    exists n, forall m, n <= m ->
      queue (drain m wb) = [] /\ log (drain m wb) = lf /\ ustate (drain m wb) = uf /\
      Forall2 (fun step s => settled (drain m wb) (value step) = Some s)
        (mkStep (JPromise p0) x :: map (astep M) outs) (s0 :: ss)).
  { intros p0 x outs wb hf Hreach H0 Hall. split.
    { constructor; [reflexivity|].
      apply Forall_forall. intros y Hy. apply list_elem_of_In, in_map_iff in Hy.
      destruct Hy as (o & <- & _). reflexivity. }
    destruct (reaches_idle _ _ Hreach eq_refl) as [n Hn].
    exists n. intros m Hm. rewrite (Hn m Hm). simpl.
    repeat split. constructor; [simpl; rewrite H0; reflexivity|].
    clear -Hall.
    induction Hall as [|o s outs ss Ho Hall IH]; simpl; constructor; [|exact IH].
    unfold settled_as in Ho. simpl. rewrite Ho. reflexivity. }
  assert (Hstart : forall step0 w1 steps wb,
    monadAsync v0 M (mkWorld l u h q) = (Ok step0, w1) ->
    chain step0 stages w1 = (Ok steps, wb) ->
    monadAsync_chain v0 M stages (mkWorld l u h q) = (Ok (step0 :: steps), wb)).
  { intros step0 w1 steps wb E0 E. unfold monadAsync_chain.
    unfold mbind, Exec_mbind. rewrite E0, E. reflexivity. }
  inversion Haw as [v Hv0 Hq | p s' Hp Hq | p d s' Hp Hq]; subst;
    cbn [queue heap] in *; subst.
  - (* an immediate initial value *)
    set (step0 := mkStep (JPromise (length h)) (PipeAsync v0 M)).
    set (h1 := h ++ [Settled (Fulfilled v0)]) in *.
    assert (Hres : monadAsync v0 M (mkWorld l u h []) = (Ok step0, mkWorld l u h1 [])).
    { destruct v0; simpl in Hv0 |- *; try discriminate; reflexivity. }
    assert (H0 : h1 !! length h = Some (Settled (Fulfilled v0))).
    { apply list_lookup_middle. reflexivity. }
    assert (Hlen1 : length h1 = S (length h)).
    { unfold h1. rewrite length_app. simpl. lia. }
    destruct stages as [|[cb rest] more].
    + simpl in Hd. inversion Hd; subst.
      exists [step0], (mkWorld lf uf h1 []).
      split; [apply (Hstart _ _ _ _ Hres); reflexivity|].
      apply (Hfin _ _ [] _ h1); [apply reaches_refl | exact H0 | constructor].
    + rewrite chain_denot_cons in Hd.
      destruct (stage_denot M (cb, rest) (Fulfilled v0) l u) as [[s1 l1] u1] eqn:Hst.
      destruct (chain_denot M more s1 l1 u1) as [[ss' lf'] uf'] eqn:Hch.
      inversion Hd; subst. clear Hd.
      inversion Hcbs as [|? ? Hcb Hcbs']; subst. simpl in Hcb.
      set (out := length h1).
      assert (Hout : (h1 ++ [Pending []]) !! out = Some (Pending [])).
      { apply list_lookup_middle. reflexivity. }
      destruct (tail_runs cb M rest v0 out l u _ [] [] s1 l1 u1 Hcb Hv0 Hout Hst)
        as (Hs1 & h' & q' & Hrun & [Hlen Hfr] & Hcase).
      rewrite length_app in Hlen, Hfr. simpl in Hlen, Hfr.
      assert (Hchain : forall steps wb,
        chain (astep M out) more (mkWorld l1 u1 h' q') = (Ok steps, wb) ->
        chain step0 ((cb, rest) :: more) (mkWorld l u h1 []) =
          (Ok (astep M out :: steps), wb)).
      { intros steps wb E. rewrite chain_cons. unfold step0.
        rewrite Step_pipe_async, (pipeAsync_value M v0 cb rest _ Hv0).
        simpl heap. unfold with_heap. simpl. fold out. rewrite Hrun.
        rewrite E. reflexivity. }
      assert (H0' : h' !! length h = Some (Settled (Fulfilled v0))).
      { rewrite Hfr by (unfold out; lia). rewrite lookup_app_l by lia. exact H0. }
      destruct Hcase as [[Hset ->] | (p & qf & Hp1 & Hp2 & Hpend & -> & HF)];
        simpl in Hchain.
      * destruct (build_ready M more l1 u1 h' [] out (JPromise out) s1 Hset)
          as (outs & hb & qb & Hbuild & HR & Hlenb & Hfrb & Hge).
        simpl in Hbuild.
        destruct (ready_runs M more outs hb qb s1 l1 u1 ss' lf uf Hs1 Hcbs' HR Hch)
          as (hf & Hreach & Hall & Hlenf & Hfrf).
        exists (step0 :: map (astep M) (out :: outs)), (mkWorld l1 u1 hb qb).
        split; [apply (Hstart _ _ _ _ Hres), Hchain, Hbuild|].
        assert (Hkeep : forall i, i <= out -> hf !! i = h' !! i).
        { intros i Hi. rewrite Hfrf; [apply Hfrb; lia | lia |].
          eapply Forall_impl; [exact Hge|]. simpl. intros; lia. }
        apply (Hfin _ _ (out :: outs) _ hf Hreach).
        -- rewrite Hkeep by (unfold out; lia). exact H0'.
        -- constructor; [|exact Hall]. unfold settled_as.
           rewrite Hkeep by lia. exact Hset.
      * rewrite length_app in Hp1. simpl in Hp1.
        destruct (build_linked M more l1 u1 h' qf out (JPromise out) Hpend)
          as (outs & hb & Hbuild & HL & [Hlenb Hfrb] & Hge).
        assert (HF' : Front s1 p out hb qf).
        { eapply Front_frame; [exact HF|]. apply Hfrb; lia. }
        destruct (Linked_fire _ _ _ _ _ HL) as (rs & Ho & Hfire).
        pose proof (front_settles s1 p out l1 u1 hb qf rs Hs1 ltac:(lia) HF' Ho) as Hreach1.
        set (h2 := <[out := Settled s1]> (<[p := Settled s1]> hb)) in *.
        assert (HR : Ready M h2 (map (fun r => JReact r s1) rs) s1 more outs).
        { apply Hfire. intros i Hi. apply list_elem_of_In in Hi.
          rewrite Forall_forall in Hge. specialize (Hge i Hi). simpl in Hge.
          unfold h2. rewrite !list_lookup_insert_ne by lia. reflexivity. }
        destruct (ready_runs M more outs h2 _ s1 l1 u1 ss' lf uf Hs1 Hcbs' HR Hch)
          as (hf & Hreach & Hall & Hlenf & Hfrf).
        exists (step0 :: map (astep M) (out :: outs)), (mkWorld l1 u1 hb qf).
        split; [apply (Hstart _ _ _ _ Hres), Hchain, Hbuild|].
        assert (Hlen2 : length h2 = length hb)
          by (unfold h2; rewrite !length_insert; reflexivity).
        assert (Hkeep : forall i, i <= out -> hf !! i = h2 !! i).
        { intros i Hi. rewrite Hfrf; [reflexivity | lia |].
          eapply Forall_impl; [exact Hge|]. simpl. intros; lia. }
        apply (Hfin _ _ (out :: outs) _ hf (reaches_trans _ _ _ Hreach1 Hreach)).
        -- rewrite Hkeep by (unfold out; lia). unfold h2.
           rewrite !list_lookup_insert_ne by (unfold out; lia).
           rewrite Hfrb by (unfold out; lia). exact H0'.
        -- constructor; [|exact Hall]. unfold settled_as.
           rewrite Hkeep by lia. unfold h2.
           apply list_lookup_insert_eq. rewrite length_insert. lia.
  - (* a promise that has settled *)
    pose proof (lookup_lt_Some _ _ _ Hp) as Hlt.
    destruct (build_ready M stages l u h [] p (JPromise p) s0 Hp)
      as (outs & hb & qb & Hbuild & HR & Hlenb & Hfrb & Hge).
    simpl in Hbuild.
    destruct (ready_runs M stages outs hb qb s0 l u ss lf uf Hs0 Hcbs HR Hd)
      as (hf & Hreach & Hall & Hlenf & Hfrf).
    exists (mkStep (JPromise p) (PipeAsync (JPromise p) M) :: map (astep M) outs),
      (mkWorld l u hb qb).
    split; [apply (Hstart _ (mkWorld l u h [])); [reflexivity | exact Hbuild]|].
    apply (Hfin _ _ outs _ hf Hreach); [|exact Hall].
    rewrite Hfrf; [rewrite Hfrb by lia; exact Hp | lia |].
    eapply Forall_impl; [exact Hge|]. simpl. intros; lia.
  - (* a promise that is about to settle *)
    pose proof (lookup_lt_Some _ _ _ Hp) as Hlt.
    destruct (build_linked M stages l u h [JHop d p s0] p (JPromise p) Hp)
      as (outs & hb & Hbuild & HL & [Hlenb Hfrb] & Hge).
    destruct (Linked_fire _ _ _ _ _ HL) as (rs & Ho & Hfire).
    pose proof (hop_settles s0 p l u hb rs d Ho) as Hreach1.
    set (h2 := <[p := Settled s0]> hb) in *.
    assert (HR : Ready M h2 (map (fun r => JReact r s0) rs) s0 stages outs).
    { apply Hfire. intros i Hi. apply list_elem_of_In in Hi.
      rewrite Forall_forall in Hge. specialize (Hge i Hi). simpl in Hge.
      unfold h2. rewrite list_lookup_insert_ne by lia. reflexivity. }
    destruct (ready_runs M stages outs h2 _ s0 l u ss lf uf Hs0 Hcbs HR Hd)
      as (hf & Hreach & Hall & Hlenf & Hfrf).
    exists (mkStep (JPromise p) (PipeAsync (JPromise p) M) :: map (astep M) outs),
      (mkWorld l u hb [JHop d p s0]).
    split; [apply (Hstart _ (mkWorld l u h [JHop d p s0])); [reflexivity | exact Hbuild]|].
    apply (Hfin _ _ outs _ hf (reaches_trans _ _ _ Hreach1 Hreach)); [|exact Hall].
    assert (Hlen2 : length h2 = length hb) by (unfold h2; rewrite length_insert; reflexivity).
    rewrite Hfrf.
    + unfold h2. apply list_lookup_insert_eq. lia.
    + lia.
    + eapply Forall_impl; [exact Hge|]. simpl. intros; lia.
Qed.

(** ** Facts about [chain_denot] *)

Lemma chain_denot_length M stages : forall s l u ss lf uf,
  chain_denot M stages s l u = (ss, lf, uf) -> length ss = length stages.
Proof.
  induction stages as [|st more IH]; intros s l u ss lf uf H.
  - inversion H. reflexivity.
  - rewrite chain_denot_cons in H.
    destruct (stage_denot M st s l u) as [[s1 l1] u1].
    destruct (chain_denot M more s1 l1 u1) as [[ss' lf'] uf'] eqn:E.
    inversion H; subst. simpl. f_equal. eapply IH, E.
Qed.

Lemma chain_denot_app M pre post : forall s l u ss1 l1 u1,
  chain_denot M pre s l u = (ss1, l1, u1) ->
  chain_denot M (pre ++ post) s l u =
  let '(ss2, l2, u2) := chain_denot M post (List.last ss1 s) l1 u1 in
  (ss1 ++ ss2, l2, u2).
Proof.
  induction pre as [|st pre IH]; intros s l u ss1 l1 u1 H.
  - inversion H; subst. simpl.
    destruct (chain_denot M post s l1 u1) as [[ss2 l2] u2]. reflexivity.
  - simpl app. rewrite chain_denot_cons in H |- *.
    destruct (stage_denot M st s l u) as [[s' l'] u'].
    destruct (chain_denot M pre s' l' u') as [[ss' lf'] uf'] eqn:E.
    inversion H; subst. rewrite (IH _ _ _ _ _ _ E). rewrite List_last_cons.
    destruct (chain_denot M post (List.last ss' s') l1 u1) as [[ss2 l2] u2].
    reflexivity.
Qed.

Lemma chain_denot_nullish M x stages : forall l u,
  isNullish x M = Ok true ->
  chain_denot M stages (Fulfilled x) l u = (repeat (Fulfilled x) (length stages), l, u).
Proof.
  induction stages as [|st more IH]; intros l u H; [reflexivity|].
  rewrite chain_denot_cons. unfold stage_denot. rewrite H.
  rewrite (IH l u H). reflexivity.
Qed.

Lemma chain_denot_rejected M e stages : forall l u,
  chain_denot M stages (Rejected e) l u = (repeat (Rejected e) (length stages), l, u).
Proof.
  induction stages as [|st more IH]; intros l u; [reflexivity|].
  simpl. rewrite (IH l u). reflexivity.
Qed.

Lemma last_repeat {A : Type} (a d : A) n :
  List.last (repeat a n) d = match n with 0 => d | _ => a end.
Proof.
  revert d. induction n as [|n IH]; intros d; [reflexivity|].
  change (repeat a (S n)) with (a :: repeat a n). rewrite List_last_cons.
  rewrite IH. destruct n; reflexivity.
Qed.


Lemma same_behaviour_plain f g :
  same_behaviour f g -> plain_callback (fst f) -> plain_callback (fst g).
Proof.
  intros [_ H] Hf args u. specialize (H args u). destruct H as [H _].
  specialize (Hf args u). unfold plain_result in *.
  destruct (fst (cb_fn (fst g) args u)) as [v|e|d s];
    destruct (fst (cb_fn (fst f) args u)) as [v'|e'|d' s']; simpl in H;
    try exact I; try discriminate; inversion H; subst; simpl; assumption.
Qed.

Lemma stage_denot_same M f g s l l' u :
  same_behaviour f g ->
  fst (fst (stage_denot M g s l' u)) = fst (fst (stage_denot M f s l u)) /\
  snd (stage_denot M g s l' u) = snd (stage_denot M f s l u).
Proof.
  intros [Hrest H]. unfold stage_denot. destruct s as [v|e]; [|split; reflexivity].
  destruct (isNullish v M) as [[|]|e]; try (split; reflexivity).
  rewrite Hrest. specialize (H (v :: snd g) u). destruct H as [H1 H2].
  destruct (cb_fn (fst g) (v :: snd g) u) as [rg ug].
  destruct (cb_fn (fst f) (v :: snd g) u) as [rf uf].
  simpl in *. split; assumption.
Qed.

Lemma chain_denot_same M fs gs :
  Forall2 same_behaviour fs gs ->
  forall s l l' u,
    fst (fst (chain_denot M gs s l' u)) = fst (fst (chain_denot M fs s l u)) /\
    snd (chain_denot M gs s l' u) = snd (chain_denot M fs s l u).
Proof.
  induction 1 as [|f g fs gs Hfg _ IH]; intros s l l' u; [split; reflexivity|].
  rewrite !chain_denot_cons.
  destruct (stage_denot_same M f g s l l' u Hfg) as [E1 E2].
  destruct (stage_denot M g s l' u) as [[sg lg] ug].
  destruct (stage_denot M f s l u) as [[sf lf] uf].
  simpl in E1, E2. subst sg ug.
  destruct (IH sf lf lg uf) as [E3 E4].
  destruct (chain_denot M gs sf lg uf) as [[ssg lg'] ug'].
  destruct (chain_denot M fs sf lf uf) as [[ssf lf'] uf'].
  simpl in *. subst. split; reflexivity.
Qed.

Lemma sync_outcome_cons first s1 (r : Res (list Step) * World) :
  sync_outcome first
    (match r with
     | (Ok steps, w2) => (Ok (s1 :: steps), w2)
     | (Thrown e, w2) => (Thrown e, w2)
     end) = sync_outcome s1 r /\
  snd (match r with
       | (Ok steps, w2) => (Ok (s1 :: steps), w2)
       | (Thrown e, w2) => (Thrown e, w2)
       end) = snd r.
Proof.
  destruct r as [[steps|e] w2]; split; try reflexivity.
  unfold sync_outcome. rewrite List_last_cons. reflexivity.
Qed.

Lemma denot_cons_proj (s1 d : Settle) (X : list Settle * Log * U) :
  List.last (fst (fst (let '(ss, lf, uf) := X in (s1 :: ss, lf, uf)))) d =
    List.last (fst (fst X)) s1 /\
  snd (let '(ss, lf, uf) := X in (s1 :: ss, lf, uf)) = snd X /\
  snd (fst (let '(ss, lf, uf) := X in (s1 :: ss, lf, uf))) = snd (fst X).
Proof.
  destruct X as [[ss lf] uf]. cbn [fst snd]. rewrite List_last_cons. repeat split.
Qed.

Lemma sync_chain_denot M fs : forall v w,
  Forall (fun st => sync_callback (fst st)) fs ->
  sync_outcome (sstep M v) (chain (sstep M v) fs w) =
    List.last (fst (fst (chain_denot M fs (Fulfilled v) (log w) (ustate w)))) (Fulfilled v) /\
  ustate (snd (chain (sstep M v) fs w)) =
    snd (chain_denot M fs (Fulfilled v) (log w) (ustate w)) /\
  log (snd (chain (sstep M v) fs w)) =
    snd (fst (chain_denot M fs (Fulfilled v) (log w) (ustate w))).
Proof.
  induction fs as [|[cb rest] more IH]; intros v w Hs; [repeat split|].
  inversion Hs as [|? ? Hcb Hmore]; subst. simpl in Hcb.
  rewrite chain_sstep_cons, chain_denot_cons. unfold stage_denot.
  destruct (isNullish v M) as [[|]|e] eqn:Hn.
  - rewrite (bind_nullish _ _ _ _ _ Hn).
    destruct (sync_outcome_cons (sstep M v) (sstep M v) (chain (sstep M v) more w))
      as [-> ->].
    destruct (denot_cons_proj (Fulfilled v) (Fulfilled v)
                (chain_denot M more (Fulfilled v) (log w) (ustate w))) as (-> & -> & ->).
    apply IH, Hmore.
  - rewrite (bind_calls _ _ _ _ _ Hn). unfold call. cbn [fst snd].
    specialize (Hcb (v :: rest) (ustate w)).
    destruct (cb_fn cb (v :: rest) (ustate w)) as [[v1|e|d s] u1]; simpl in Hcb;
      [| |contradiction].
    + set (w1 := mkWorld (log w ++ [(cb_id cb, v :: rest)]) u1 (heap w) (queue w)).
      destruct (sync_outcome_cons (sstep M v) (sstep M v1) (chain (sstep M v1) more w1))
        as [-> ->].
      cbn [settle_of].
      destruct (denot_cons_proj (Fulfilled v1) (Fulfilled v)
                  (chain_denot M more (Fulfilled v1) (log w ++ [(cb_id cb, v :: rest)]) u1))
        as (-> & -> & ->).
      apply (IH v1 w1 Hmore).
    + cbn [settle_of]. rewrite chain_denot_rejected. cbn [fst snd sync_outcome].
      rewrite List_last_cons, last_repeat. match goal with |- context [match ?n with 0 => _ | _ => _ end] => destruct n end;
      (split; [reflexivity | split; reflexivity]).
  - rewrite (bind_throws _ _ _ _ _ _ Hn). rewrite chain_denot_rejected.
    cbn [fst snd sync_outcome].
    rewrite List_last_cons, last_repeat. match goal with |- context [match ?n with 0 => _ | _ => _ end] => destruct n end;
      (split; [reflexivity | split; reflexivity]).
Qed.

Lemma monadAsync_chain_app v0 M pre post w steps wb :
  monadAsync_chain v0 M pre w = (Ok steps, wb) ->
  exists step, last steps = Some step /\
    monadAsync_chain v0 M (pre ++ post) w =
    match chain step post wb with
    | (Ok steps', w'') => (Ok (steps ++ steps'), w'')
    | (Thrown e, w'') => (Thrown e, w'')
    end.
Proof.
  unfold monadAsync_chain, mbind, Exec_mbind.
  destruct (monadAsync v0 M w) as [[step0|e] w1]; [|discriminate].
  rewrite chain_app.
  destruct (chain step0 pre w1) as [[steps1|e] w2]; [|discriminate].
  unfold mret, Exec_mret. intros H. inversion H; subst.
  exists (List.last steps1 step0). split.
  - clear. revert step0. induction steps1 as [|a l IH]; intros step0; [reflexivity|].
    rewrite List_last_cons. rewrite last_cons_cons. apply IH.
  - destruct (chain (List.last steps1 step0) post wb) as [[steps'|e] w3]; reflexivity.
Qed.

Lemma Forall2_last_default {A B : Type} (P : A -> B -> Prop) l k a d :
  Forall2 P l k -> last l = Some a -> P a (List.last k d).
Proof.
  intros H. revert a d. induction H as [|x y l k Hxy H IH]; intros a d Hl.
  - discriminate.
  - rewrite List_last_cons. destruct l as [|x' l].
    + inversion H; subst. simpl in Hl. inversion Hl; subst. exact Hxy.
    + rewrite last_cons_cons in Hl. apply IH, Hl.
Qed.

(** C1.  Once the value of a stage is nullish, every later stage has that
    very value and no later user function is called.  For a synchronous
    chain: if the chain over the stages [pre] ends in a step whose value
    is nullish, the chain over [pre ++ post] returns the same steps
    followed by one step per stage of [post], each with that value, and
    leaves the world (call log and user state included) exactly as the
    chain over [pre] does.  For an asynchronous chain, on an initial
    value that is immediate or a promise that resolves, and with plain
    user functions: once the microtask queue has run, if the promise of
    the last step of [pre] is fulfilled with a nullish value, so is the
    promise of each step of [post], and the call log and the user's state
    are those of the chain over [pre] alone. *)
Theorem nullish_propagates (M : list JsVal) (v0 : JsVal) (pre post : list Stage) (w : World) :
  (forall steps wk,
     chain (monad v0 M) pre w = (Ok steps, wk) ->
     isNullish (value (List.last steps (monad v0 M))) M = Ok true ->
     exists steps',
       chain (monad v0 M) (pre ++ post) w = (Ok (steps ++ steps'), wk) /\
       length steps' = length post /\
       Forall (fun s => value s = value (List.last steps (monad v0 M))) steps') /\
  (forall s0,
     awaited w v0 s0 ->
     plain_settle s0 ->
     Forall (fun st => plain_callback (fst st)) (pre ++ post) ->
     exists steps wk steps' wb n,
       monadAsync_chain v0 M pre w = (Ok steps, wk) /\
       monadAsync_chain v0 M (pre ++ post) w = (Ok (steps ++ steps'), wb) /\
       length steps' = length post /\
       forall m, n <= m -> forall sk x,
         last steps = Some sk ->
         settled (drain m wb) (value sk) = Some (Fulfilled x) ->
         isNullish x M = Ok true ->
         Forall (fun s => settled (drain m wb) (value s) = Some (Fulfilled x)) steps' /\
         log (drain m wb) = log (drain m wk) /\
         ustate (drain m wb) = ustate (drain m wk)).
Proof.
  split.
  - intros steps wk. apply sync_nullish_propagates.
  - intros s0 Haw Hs0 Hcbs.
    apply Forall_app in Hcbs. destruct Hcbs as [Hpre Hpost].
    destruct (chain_denot M pre s0 (log w) (ustate w)) as [[ss1 l1] u1] eqn:E1.
    destruct (chain_denot M post (List.last ss1 s0) l1 u1) as [[ss2 l2] u2] eqn:E2.
    pose proof (chain_denot_app M pre post _ _ _ _ _ _ E1) as Eapp.
    rewrite E2 in Eapp.
    destruct (async_chain_run M pre v0 w s0 ss1 l1 u1 Haw Hs0 Hpre E1)
      as (stepsA & wbA & HrunA & _ & nA & HA).
    destruct (async_chain_run M (pre ++ post) v0 w s0 (ss1 ++ ss2) l2 u2 Haw Hs0
                (proj2 (Forall_app _ _ _) (conj Hpre Hpost)) Eapp)
      as (stepsB & wbB & HrunB & _ & nB & HB).
    destruct (monadAsync_chain_app v0 M pre post w stepsA wbA HrunA) as (sk0 & Hlast & Happ).
    rewrite HrunB in Happ.
    destruct (chain sk0 post wbA) as [[steps'|e] w3]; [|discriminate].
    inversion Happ; subst. clear Happ.
    assert (HlenA : length stepsA = length (s0 :: ss1)).
    { destruct (HA nA (le_n _)) as (_ & _ & _ & HF). apply (Forall2_length _ _ _ HF). }
    assert (Hsplit : forall m, nB <= m ->
      Forall2 (fun step s => settled (drain m w3) (value step) = Some s)
        stepsA (s0 :: ss1) /\
      Forall2 (fun step s => settled (drain m w3) (value step) = Some s) steps' ss2).
    { intros m Hm. destruct (HB m Hm) as (_ & _ & _ & HF).
      change (s0 :: ss1 ++ ss2) with ((s0 :: ss1) ++ ss2) in HF.
      apply Forall2_app_inv in HF; [exact HF | exact HlenA]. }
    exists stepsA, wbA, steps', w3, (max nA nB).
    split; [exact HrunA|]. split; [exact HrunB|]. split.
    + destruct (Hsplit nB (le_n _)) as [_ HF2].
      rewrite (Forall2_length _ _ _ HF2). eapply chain_denot_length, E2.
    + intros m Hm sk x Hsk Hset Hn.
      rewrite Hlast in Hsk. inversion Hsk; subst sk0.
      destruct (Hsplit m ltac:(lia)) as [HF1 HF2].
      pose proof (Forall2_last_default _ _ _ _ s0 HF1 Hlast) as Hk.
      cbv beta in Hk. rewrite Hset in Hk. rewrite List_last_cons in Hk.
      inversion Hk as [Hx]. rewrite <- Hx in E2.
      rewrite (chain_denot_nullish M x post l1 u1 Hn) in E2. inversion E2; subst.
      destruct (HA m ltac:(lia)) as (_ & HlA & HuA & _).
      destruct (HB m ltac:(lia)) as (_ & HlB & HuB & _).
      split; [|split; congruence].
      clear -HF2. remember (repeat (Fulfilled x) (length post)) as rs eqn:Er.
      assert (Hall : Forall (fun s => s = Fulfilled x) rs).
      { subst rs. apply Forall_forall. intros s Hs.
        apply list_elem_of_In, repeat_spec in Hs. exact Hs. }
      clear Er. induction HF2 as [|a b l k Hab _ IH]; constructor.
      * inversion Hall; subst. exact Hab.
      * apply IH. inversion Hall; assumption.
Qed.

Lemma Forall2_last_exists {A B : Type} (P : A -> B -> Prop) l k b :
  Forall2 P l (b :: k) -> exists a, last l = Some a.
Proof.
  intros H. inversion H as [|x y l' k' _ _]; subst.
  destruct (last (x :: l')) as [a|] eqn:E; [eauto|].
  apply last_None in E. discriminate.
Qed.


(** C6 (as amended).  Let the stages [gs] be the stages [fs] with user
    functions that behave the same but may be asynchronous, the functions
    of [fs] returning synchronously and never a promise.  For every
    initial value that is not itself a promise, the asynchronous chain
    over [gs], built while no microtask is waiting and from the same user
    state, resolves to the value of the last step of the synchronous
    chain over [fs] (and is rejected with the exception that ends the
    synchronous chain, if one does), and leaves the user's state as the
    synchronous chain does. *)
Theorem async_sync_equivalence (M : list JsVal) (v0 : JsVal) (fs gs : list Stage)
    (w wa : World) :
  Forall2 same_behaviour fs gs ->
  Forall (fun st => sync_callback (fst st)) fs ->
  Forall (fun st => plain_callback (fst st)) fs ->
  instanceof_Promise v0 = false ->
  queue wa = [] ->
  ustate wa = ustate w ->
  exists steps wb final n,
    monadAsync_chain v0 M gs wa = (Ok steps, wb) /\
    last steps = Some final /\
    forall m, n <= m ->
      settled (drain m wb) (value final) =
        Some (sync_outcome (monad v0 M) (chain (monad v0 M) fs w)) /\
      ustate (drain m wb) = ustate (snd (chain (monad v0 M) fs w)).
Proof.
  intros Hsame Hsync Hplain Hv0 Hq Hu.
  assert (Hgs : Forall (fun st => plain_callback (fst st)) gs).
  { clear -Hsame Hplain. induction Hsame as [|f g fs gs Hfg _ IH]; [constructor|].
    inversion Hplain; subst. constructor; [|apply IH; assumption].
    eapply same_behaviour_plain; eassumption. }
  destruct (chain_denot M gs (Fulfilled v0) (log wa) (ustate wa)) as [[ss lf] uf] eqn:E.
  destruct (async_chain_run M gs v0 wa (Fulfilled v0) ss lf uf
              (awaited_value wa v0 Hv0 Hq) Hv0 Hgs E)
    as (steps & wb & Hrun & _ & n & Hfin).
  destruct (Hfin n (le_n _)) as (_ & _ & _ & HF0).
  destruct (Forall2_last_exists _ _ _ _ HF0) as [final Hlast].
  exists steps, wb, final, n. split; [exact Hrun|]. split; [exact Hlast|].
  intros m Hm. destruct (Hfin m Hm) as (_ & _ & Hum & HF).
  pose proof (Forall2_last_default _ _ _ _ (Fulfilled v0) HF Hlast) as Hk.
  cbv beta in Hk. rewrite List_last_cons in Hk.
  destruct (chain_denot_same M fs gs Hsame (Fulfilled v0) (log w) (log wa) (ustate wa))
    as [Es Eu].
  rewrite E in Es, Eu. cbn [fst snd] in Es, Eu. rewrite Hu in Es, Eu.
  destruct (sync_chain_denot M fs v0 w Hsync) as (Ho & Hus & _).
  change (monad v0 M) with (sstep M v0).
  rewrite Ho, Hus, <- Es, <- Eu. split; assumption.
Qed.

(** ** [bindAsync] on its own *)

Lemma bindAsync_unfold cb M first rest w :
  bindAsync cb M first rest w =
  (Ok (JPromise (length (heap w))),
   run_async (bindAsync_body cb M first rest) (length (heap w))
     (with_heap (heap w ++ [Pending []]) w)).
Proof. reflexivity. Qed.

Lemma pipeAsync_unfold prev M cb rest w :
  pipeAsync prev M cb rest w =
  (Ok (astep M (length (heap w))), snd (bindAsync cb M prev rest w)).
Proof. reflexivity. Qed.

Lemma bindAsync_runs cb M first rest w s s1 l1 u1 :
  plain_callback cb -> plain_settle s -> awaited w first s ->
  stage_denot M (cb, rest) s (log w) (ustate w) = (s1, l1, u1) ->
  plain_settle s1 /\
  (instanceof_Promise first = true ->
   log (snd (bindAsync cb M first rest w)) = log w /\
   ustate (snd (bindAsync cb M first rest w)) = ustate w) /\
  exists hf,
    reaches (snd (bindAsync cb M first rest w)) (mkWorld l1 u1 hf []) /\
    hf !! length (heap w) = Some (Settled s1).
Proof.
  intros Hcb Hs Haw Hd. rewrite bindAsync_unfold. cbn [snd].
  destruct w as [l u h q]. cbn [log ustate heap queue] in *.
  assert (Hout : (h ++ [Pending []]) !! length h = Some (Pending [])).
  { apply list_lookup_middle. reflexivity. }
  inversion Haw as [v Hv Hq | p s' Hp Hq | p d s' Hp Hq]; subst;
    cbn [queue heap] in *; subst.
  - (* an immediate value: the body runs at once *)
    destruct (tail_runs cb M rest first (length h) l u _ [] [] s1 l1 u1 Hcb Hv Hout Hd)
      as (Hs1 & h' & q' & Hrun & Hext & Hcase).
    split; [exact Hs1|]. split; [rewrite Hv; discriminate|].
    assert (Hbody : bindAsync_body cb M first rest = bindAsync_tail cb M rest first).
    { destruct first; try discriminate; reflexivity. }
    rewrite Hbody. unfold with_heap. cbn [log ustate heap queue]. rewrite Hrun.
    destruct Hcase as [[Hset ->] | (p & qf & Hp1 & Hp2 & Hpend & -> & HF)].
    + exists h'. split; [apply reaches_refl | exact Hset].
    + rewrite length_app in Hp1. simpl in Hp1. cbn [app].
      eexists. split.
      * apply (front_settles s1 p (length h) l1 u1 h' qf [] Hs1); [lia | exact HF | exact Hpend].
      * apply list_lookup_insert_eq. rewrite length_insert.
        eapply lookup_lt_Some, Hpend.
  - (* a settled promise: one turn of the queue *)
    pose proof (lookup_lt_Some _ _ _ Hp) as Hlt.
    destruct (stage_runs cb M rest (length h) s l u (h ++ [Pending []]) [] s1 l1 u1
                Hcb Hs Hout Hd) as (Hs1 & h1 & Hreach & Hset & _).
    split; [exact Hs1|].
    change (bindAsync_body cb M (JPromise p) rest)
      with (AAwait (JPromise p) (bindAsync_tail cb M rest)).
    unfold with_heap. cbn [log ustate heap queue run_async].
    rewrite (then_settled p _ l u (h ++ [Pending []]) [] s)
      by (apply lookup_app_l_Some, Hp).
    split; [intros _; split; reflexivity|].
    exists h1. split; [exact Hreach | exact Hset].
  - (* a pending promise: the body resumes when it settles *)
    pose proof (lookup_lt_Some _ _ _ Hp) as Hlt.
    change (bindAsync_body cb M (JPromise p) rest)
      with (AAwait (JPromise p) (bindAsync_tail cb M rest)).
    unfold with_heap. cbn [log ustate heap queue run_async].
    rewrite (then_pending p _ l u (h ++ [Pending []]) _ [])
      by (apply lookup_app_l_Some, Hp).
    cbn [app].
    set (k := RResume (bindAsync_tail cb M rest) (length h)).
    set (h2 := <[p := Pending [k]]> (h ++ [Pending []])).
    assert (Hp2 : h2 !! p = Some (Pending [k])).
    { unfold h2. apply list_lookup_insert_eq. rewrite length_app. simpl. lia. }
    pose proof (hop_settles s p l u h2 [k] d Hp2) as Hreach1.
    assert (Hout3 : <[p := Settled s]> h2 !! length h = Some (Pending [])).
    { unfold h2. rewrite !list_lookup_insert_ne by lia. exact Hout. }
    destruct (stage_runs cb M rest (length h) s l u _ [] s1 l1 u1 Hcb Hs Hout3 Hd)
      as (Hs1 & h1 & Hreach & Hset & _).
    split; [exact Hs1|]. split; [intros _; split; reflexivity|].
    exists h1. split; [|exact Hset].
    eapply reaches_trans; [exact Hreach1 | exact Hreach].
Qed.

Lemma stage_denot_bind cb M rest x w :
  sync_callback cb ->
  stage_denot M (cb, rest) (Fulfilled x) (log w) (ustate w) =
  (settle_of_res (fst (bind cb M x rest w)),
   log (snd (bind cb M x rest w)),
   ustate (snd (bind cb M x rest w))).
Proof.
  intros Hs. unfold stage_denot. destruct (isNullish x M) as [[|]|e] eqn:Hn.
  - rewrite (bind_nullish _ _ _ _ _ Hn). reflexivity.
  - rewrite (bind_calls _ _ _ _ _ Hn). unfold call. cbn [fst snd].
    specialize (Hs (x :: rest) (ustate w)).
    destruct (cb_fn cb (x :: rest) (ustate w)) as [[v|e|d s] u']; simpl in Hs;
      [reflexivity | reflexivity | contradiction].
  - rewrite (bind_throws _ _ _ _ _ _ Hn). reflexivity.
Qed.

(** C5.  [bindAsync] returns a promise at once, whatever the callback is
    or does.  When the first argument is a promise, nothing is tested or
    called before that promise has settled.  Once the microtask queue has
    run, the returned promise is settled, single level (never fulfilled
    with a promise), as the invoker's logic says on the resolved first
    argument: rejected as the first argument is; fulfilled with the
    resolved value, the callback not called, if that value is nullish;
    and else settled as the callback's result resolves, a returned
    promise flattened.  For a callback that returns synchronously this is
    what [bind] does on the resolved value.  The [value] of the step of
    [pipeAsync] is that promise, and the [value] of the step of
    [monadAsync] is a promise too, fulfilled with the initial value when
    that is immediate. *)
Theorem bindAsync_settles_single_level (cb : Callback) (M : list JsVal)
    (first : JsVal) (rest : list JsVal) (w : World) (s : Settle) :
  plain_callback cb -> plain_settle s -> awaited w first s ->
  (exists wb n,
     bindAsync cb M first rest w = (Ok (JPromise (length (heap w))), wb) /\
     (instanceof_Promise first = true -> log wb = log w /\ ustate wb = ustate w) /\
     forall m, n <= m ->
       exists s1,
         settled (drain m wb) (JPromise (length (heap w))) = Some s1 /\
         plain_settle s1 /\
         stage_denot M (cb, rest) s (log w) (ustate w) =
           (s1, log (drain m wb), ustate (drain m wb))) /\
  (forall x, sync_callback cb ->
     stage_denot M (cb, rest) (Fulfilled x) (log w) (ustate w) =
     (settle_of_res (fst (bind cb M x rest w)),
      log (snd (bind cb M x rest w)),
      ustate (snd (bind cb M x rest w)))) /\
  (exists step wb,
     pipeAsync first M cb rest w = (Ok step, wb) /\
     value step = JPromise (length (heap w)) /\
     wb = snd (bindAsync cb M first rest w)) /\
  (forall v, exists step w',
     monadAsync v M w = (Ok step, w') /\
     instanceof_Promise (value step) = true /\
     (instanceof_Promise v = false -> settled w' (value step) = Some (Fulfilled v))).
Proof.
  intros Hcb Hs Haw. split; [|split; [|split]].
  - destruct (stage_denot M (cb, rest) s (log w) (ustate w)) as [[s1 l1] u1] eqn:Hd.
    destruct (bindAsync_runs cb M first rest w s s1 l1 u1 Hcb Hs Haw Hd)
      as (Hs1 & Hearly & hf & Hreach & Hset).
    destruct (reaches_idle _ _ Hreach eq_refl) as [n Hn].
    exists (snd (bindAsync cb M first rest w)), n.
    split; [apply bindAsync_unfold|]. split; [exact Hearly|].
    intros m Hm. exists s1. rewrite (Hn m Hm). cbn [settled heap log ustate].
    rewrite Hset. repeat split. exact Hs1.
  - intros x Hsync. apply stage_denot_bind, Hsync.
  - eexists _, _. split; [apply pipeAsync_unfold|]. split; reflexivity.
  - intros v. destruct v; eexists _, _; (split; [reflexivity|]);
      (split; [reflexivity|]); intros Hv; try discriminate;
      cbn [settled value heap with_heap]; rewrite list_lookup_middle by reflexivity;
      reflexivity.
Qed.

(** C7.  The core traps nothing.  A user function that throws on a
    value that is not nullish is called once, and [bind] throws the very
    same exception; [bindAsync] returns its promise all the same, and
    that promise is rejected with the exception (also when the user
    function hands out a promise that is rejected later), the function
    having been called once.  A failure of the first argument to resolve
    rejects the promise of [bindAsync] in the same way.  On a nullish
    value the user function is not called, so nothing of it can fail. *)
Theorem failures_propagate (cb : Callback) (M : list JsVal) (x : JsVal)
    (rest : list JsVal) (w : World) :
  (isNullish x M = Ok false ->
   forall e u',
     cb_fn cb (x :: rest) (ustate w) = (Throw e, u') ->
     bind cb M x rest w =
       (Thrown e, mkWorld (log w ++ [(cb_id cb, x :: rest)]) u' (heap w) (queue w))) /\
  (isNullish x M = Ok false ->
   plain_callback cb ->
   instanceof_Promise x = false ->
   forall first e,
     awaited w first (Fulfilled x) ->
     settle_of (fst (cb_fn cb (x :: rest) (ustate w))) = Rejected e ->
     exists wb n,
       bindAsync cb M first rest w = (Ok (JPromise (length (heap w))), wb) /\
       forall m, n <= m ->
         settled (drain m wb) (JPromise (length (heap w))) = Some (Rejected e) /\
         log (drain m wb) = log w ++ [(cb_id cb, x :: rest)]) /\
  (plain_callback cb ->
   forall first e,
     awaited w first (Rejected e) ->
     exists wb n,
       bindAsync cb M first rest w = (Ok (JPromise (length (heap w))), wb) /\
       forall m, n <= m ->
         settled (drain m wb) (JPromise (length (heap w))) = Some (Rejected e) /\
         log (drain m wb) = log w) /\
  (isNullish x M = Ok true ->
   bind cb M x rest w = (Ok x, w) /\
   (plain_callback cb ->
    instanceof_Promise x = false ->
    forall first,
      awaited w first (Fulfilled x) ->
      exists wb n,
        bindAsync cb M first rest w = (Ok (JPromise (length (heap w))), wb) /\
        forall m, n <= m ->
          settled (drain m wb) (JPromise (length (heap w))) = Some (Fulfilled x) /\
          log (drain m wb) = log w /\
          ustate (drain m wb) = ustate w)).
Proof.
  assert (Hasync : forall first s s1 l1 u1,
    plain_callback cb -> plain_settle s -> awaited w first s ->
    stage_denot M (cb, rest) s (log w) (ustate w) = (s1, l1, u1) ->
    exists wb n,
      bindAsync cb M first rest w = (Ok (JPromise (length (heap w))), wb) /\
      forall m, n <= m ->
        settled (drain m wb) (JPromise (length (heap w))) = Some s1 /\
        log (drain m wb) = l1 /\ ustate (drain m wb) = u1).
  { intros first s s1 l1 u1 Hcb Hs Haw Hd.
    destruct (bindAsync_runs cb M first rest w s s1 l1 u1 Hcb Hs Haw Hd)
      as (_ & _ & hf & Hreach & Hset).
    destruct (reaches_idle _ _ Hreach eq_refl) as [n Hn].
    exists (snd (bindAsync cb M first rest w)), n.
    split; [apply bindAsync_unfold|].
    intros m Hm. rewrite (Hn m Hm). cbn [settled heap log ustate].
    rewrite Hset. repeat split. }
  split; [|split; [|split]].
  - intros Hn e u' Hthrow. rewrite (bind_calls _ _ _ _ _ Hn).
    unfold call. rewrite Hthrow. reflexivity.
  - intros Hn Hcb Hx first e Haw Hrej.
    destruct (stage_denot M (cb, rest) (Fulfilled x) (log w) (ustate w))
      as [[s1 l1] u1] eqn:Hd.
    destruct (Hasync first (Fulfilled x) s1 l1 u1 Hcb Hx Haw Hd) as (wb & n & Hrun & Hfin).
    exists wb, n. split; [exact Hrun|]. intros m Hm.
    destruct (Hfin m Hm) as (Hset & Hl & _).
    unfold stage_denot in Hd. rewrite Hn in Hd. cbn [fst snd] in Hd.
    destruct (cb_fn cb (x :: rest) (ustate w)) as [r u']. cbn [fst] in Hrej.
    inversion Hd as [[E1 E2 E3]]. rewrite <- Hrej, E1, E2. split; [exact Hset | exact Hl].
  - intros Hcb first e Haw.
    destruct (Hasync first (Rejected e) (Rejected e) (log w) (ustate w) Hcb I Haw eq_refl)
      as (wb & n & Hrun & Hfin).
    exists wb, n. split; [exact Hrun|]. intros m Hm.
    destruct (Hfin m Hm) as (Hset & Hl & _). split; assumption.
  - intros Hn. split; [apply bind_nullish, Hn|].
    intros Hcb Hx first Haw.
    assert (Hd : stage_denot M (cb, rest) (Fulfilled x) (log w) (ustate w) =
                 (Fulfilled x, log w, ustate w)).
    { unfold stage_denot. rewrite Hn. reflexivity. }
    apply (Hasync first (Fulfilled x) _ _ _ Hcb Hx Haw Hd).
Qed.

(** ** The wrappers *)

Lemma monadAsyncSetup_runs M fn x rest w s1 l1 u1 :
  queue w = [] -> plain_callback fn -> instanceof_Promise x = false ->
  stage_denot M (fn, rest) (Fulfilled x) (log w) (ustate w) = (s1, l1, u1) ->
  exists step wb n,
    monadAsyncSetup M fn x rest w = (Ok step, wb) /\
    forall m, n <= m ->
      settled (drain m wb) (value step) = Some s1 /\
      log (drain m wb) = l1 /\
      ustate (drain m wb) = u1.
Proof.
  intros Hq Hfn Hx Hd.
  set (w1 := with_heap (heap w ++ [Settled (Fulfilled x)]) w).
  assert (H0 : monadAsync x M w = (Ok (mkStep (JPromise (length (heap w))) (PipeAsync x M)), w1)).
  { destruct x; try discriminate; reflexivity. }
  assert (Haw : awaited w1 x (Fulfilled x)).
  { apply awaited_value; [exact Hx | exact Hq]. }
  destruct (bindAsync_runs fn M x rest w1 (Fulfilled x) s1 l1 u1 Hfn Hx Haw Hd)
    as (_ & _ & hf & Hreach & Hset).
  destruct (reaches_idle _ _ Hreach eq_refl) as [n Hn].
  exists (astep M (length (heap w1))), (snd (bindAsync fn M x rest w1)), n.
  split.
  - unfold monadAsyncSetup, mbind, Exec_mbind. rewrite H0.
    rewrite Step_pipe_async. apply pipeAsync_unfold.
  - intros m Hm. rewrite (Hn m Hm). cbn [settled astep value heap log ustate].
    rewrite Hset. repeat split.
Qed.

(** C8.  [monadSetup(...M)(fn, x, ...rest)] is
    [monad(x, ...M).pipe(fn, ...rest)], and [monadAsyncSetup] is the same
    with [monadAsync].  With the markers [-1] and [null]: on the first
    argument [-1] the step's value is [-1] and the world is untouched
    ([fn] is not called); on [undefined] the wrapper is the call
    [fn(undefined, ...rest)], whose result is the step's value.  The
    asynchronous wrapper resolves to the same values, with the same
    calls. *)
Theorem setup_is_sugar (M : list JsVal) (fn : Callback) (x : JsVal) (rest : list JsVal)
    (w : World) :
  monadSetup M fn x rest w = Step_pipe (monad x M) fn rest w /\
  monadAsyncSetup M fn x rest w = (step ← monadAsync x M; Step_pipe step fn rest) w /\
  monadSetup [minus_one; JNull] fn minus_one rest w = (Ok (sstep [minus_one; JNull] minus_one), w) /\
  monadSetup [minus_one; JNull] fn JUndefined rest w =
    match call fn (JUndefined :: rest) w with
    | (Ok v, w') => (Ok (sstep [minus_one; JNull] v), w')
    | (Thrown e, w') => (Thrown e, w')
    end /\
  (queue w = [] -> plain_callback fn ->
   (exists step wb n,
      monadAsyncSetup [minus_one; JNull] fn minus_one rest w = (Ok step, wb) /\
      forall m, n <= m ->
        settled (drain m wb) (value step) = Some (Fulfilled minus_one) /\
        log (drain m wb) = log w /\
        ustate (drain m wb) = ustate w) /\
   (exists step wb n,
      monadAsyncSetup [minus_one; JNull] fn JUndefined rest w = (Ok step, wb) /\
      forall m, n <= m ->
        settled (drain m wb) (value step) =
          Some (settle_of (fst (cb_fn fn (JUndefined :: rest) (ustate w)))) /\
        log (drain m wb) = log w ++ [(cb_id fn, JUndefined :: rest)] /\
        ustate (drain m wb) = snd (cb_fn fn (JUndefined :: rest) (ustate w)))).
Proof.
  split; [reflexivity|]. split; [reflexivity|]. split; [reflexivity|].
  split.
  - unfold monadSetup, monad. rewrite Step_pipe_sync, pipe_unfold.
    rewrite (bind_calls fn [minus_one; JNull] JUndefined rest w eq_refl).
    destruct (call fn (JUndefined :: rest) w) as [[v|e] w']; reflexivity.
  - intros Hq Hfn. split.
    + apply (monadAsyncSetup_runs [minus_one; JNull] fn minus_one rest w); try assumption; reflexivity.
    + apply (monadAsyncSetup_runs [minus_one; JNull] fn JUndefined rest w); try assumption; try reflexivity.
      unfold stage_denot. cbn [fst snd].
      change (isNullish JUndefined [minus_one; JNull]) with (@Ok bool false). cbv iota.
      destruct (cb_fn fn (JUndefined :: rest) (ustate w)) as [r u']. reflexivity.
Qed.

(** ** More on [isNullish] *)

Lemma Array_some_app {A : Type} (f : A -> Res bool) (l1 l2 : list A) :
  Array_some f (l1 ++ l2) =
  match Array_some f l1 with
  | Ok false => Array_some f l2
  | r => r
  end.
Proof.
  induction l1 as [|x l1 IH]; [reflexivity|].
  simpl. destruct (f x) as [[|]|e]; [reflexivity | exact IH | reflexivity].
Qed.

Lemma Array_some_total {A : Type} (f : A -> Res bool) (g : A -> bool) (l : list A) :
  Forall (fun x => f x = Ok (g x)) l ->
  Array_some f l = Ok (existsb g l).
Proof.
  induction 1 as [|x l Hx _ IH]; [reflexivity|].
  simpl. rewrite Hx. destruct (g x); [reflexivity | exact IH].
Qed.

Lemma marker_test_scalar v m :
  ~ composite m -> marker_test v m = Ok (strict_eq m v).
Proof.
  intros Hc. unfold marker_test.
  destruct (negb (strict_eq m JNull) && String.eqb (typeof m) "object") eqn:E;
    [|reflexivity].
  apply composite_test in E. contradiction.
Qed.

(** X1.  With markers none of which is a non-null object, [isNullish] never
    throws, whatever the value (a BigInt included): it is membership by
    [===].  In particular no array, object or promise is nullish then. *)
Theorem isNullish_scalar_markers (v : JsVal) (M : list JsVal) :
  Forall (fun m => ~ composite m) M ->
  isNullish v M = Ok (existsb (fun m => strict_eq m v) M) /\
  (composite v -> isNullish v M = Ok false).
Proof.
  intros HM.
  assert (H : isNullish v M = Ok (existsb (fun m => strict_eq m v) M)).
  { apply Array_some_total. eapply Forall_impl; [exact HM|].
    intros m Hm. apply marker_test_scalar, Hm. }
  split; [exact H|]. intros Hv. rewrite H. f_equal.
  apply not_true_is_false. intros Hex. apply existsb_exists in Hex.
  destruct Hex as (m & Hin & Heq). rewrite Forall_forall in HM.
  apply list_elem_of_In in Hin. specialize (HM m Hin).
  apply HM. destruct Hv as [Hn Ht].
  destruct m, v; simpl in Heq, Ht; try discriminate; try congruence;
    split; try discriminate; reflexivity.
Qed.

(** X2.  [NaN] is an inert marker: declaring it changes nothing, for [NaN]
    itself is not [===] to it. *)
Theorem isNullish_NaN_marker_inert (v : JsVal) (M1 M2 : list JsVal) :
  isNullish v (M1 ++ JNum NNaN :: M2) = isNullish v (M1 ++ M2).
Proof.
  unfold isNullish. rewrite !Array_some_app.
  destruct (Array_some (marker_test v) M1) as [[|]|e]; try reflexivity.
  simpl. destruct v as [| | |[]| | | | | |]; reflexivity.
Qed.

Lemma strict_eq_refl m : m <> JNum NNaN -> strict_eq m m = true.
Proof.
  destruct m as [| |b|[z|b|]|z|s|a|a l|a l|p]; simpl; intros H; try reflexivity;
    try congruence.
  - apply Bool.eqb_reflx.
  - apply Z.eqb_refl.
  - apply Bool.eqb_reflx.
  - apply Z.eqb_refl.
  - apply String.eqb_refl.
  - apply Nat.eqb_refl.
  - apply Nat.eqb_refl.
  - apply Nat.eqb_refl.
  - apply Nat.eqb_refl.
Qed.

Lemma matches_self m :
  m <> JNum NNaN -> (composite m -> serializable m) -> matches m m.
Proof.
  intros Hn Hs. destruct (negb (strict_eq m JNull) && String.eqb (typeof m) "object") eqn:E.
  - apply composite_test in E. destruct (Hs E) as [o Ho].
    destruct (composite_stringify m o E Ho) as [s ->].
    eapply matches_serialized; eassumption.
  - apply matches_strict; [|apply strict_eq_refl, Hn].
    intros Hc. apply composite_test in Hc. congruence.
Qed.

Lemma isNullish_no_throw v M :
  Forall (fun m => composite m -> serializable m /\ serializable v) M ->
  exists b, isNullish v M = Ok b /\ (b = true <-> exists m, In m M /\ matches v m).
Proof.
  unfold isNullish. induction M as [|m M IH]; intros Hser.
  - exists false. split; [reflexivity|]. split; [discriminate|].
    intros (m & [] & _).
  - inversion Hser as [|? ? Hm HM]; subst.
    destruct (marker_test_matches v m Hm) as (b & Hb & Hiff).
    simpl. rewrite Hb. destruct b.
    + exists true. split; [reflexivity|]. split; [|reflexivity].
      intros _. exists m. split; [left; reflexivity | apply Hiff; reflexivity].
    + destruct (IH HM) as (b' & Hb' & Hiff').
      exists b'. split; [exact Hb'|]. rewrite Hiff'. split.
      * intros (m' & Hin & Hmatch). exists m'. split; [right; exact Hin | exact Hmatch].
      * intros (m' & [<- | Hin] & Hmatch).
        -- apply Hiff in Hmatch. discriminate.
        -- exists m'. split; assumption.
Qed.

(** X3.  A declared marker is nullish itself: if [m] is among the markers, is
    not [NaN], and no serialization of a marker throws, [isNullish(m, M)]
    is true.  So a user function that returns a marker stops the chain. *)
Theorem marker_is_nullish (m : JsVal) (M : list JsVal) :
  In m M ->
  m <> JNum NNaN ->
  Forall (fun m' => composite m' -> serializable m') M ->
  (Exists composite M -> serializable m) ->
  isNullish m M = Ok true.
Proof.
  intros Hin Hn HM Hm.
  assert (Hser : Forall (fun m' => composite m' -> serializable m' /\ serializable m) M).
  { rewrite Forall_forall in HM |- *. intros m' Hin' Hc. split; [apply HM; assumption|].
    apply Hm. apply Exists_exists. exists m'. split; assumption. }
  destruct (isNullish_no_throw m M Hser) as (b & Hb & Hiff).
  rewrite Hb. f_equal. apply Hiff. exists m. split; [exact Hin|].
  apply matches_self; [exact Hn|]. intros Hc.
  rewrite Forall_forall in HM. apply HM; [apply list_elem_of_In, Hin | exact Hc].
Qed.

(** X4.  The markers are tried in order and the first match decides: the
    markers after it are not looked at, so an exception can only come
    from a marker before the first match.  When no serialization throws,
    the order of the markers does not matter. *)
Theorem isNullish_marker_order (v : JsVal) (M1 M2 : list JsVal) :
  isNullish v (M1 ++ M2) =
    match isNullish v M1 with
    | Ok false => isNullish v M2
    | r => r
    end /\
  (forall M', Permutation (M1 ++ M2) M' ->
     Forall (fun m => composite m -> serializable m /\ serializable v) (M1 ++ M2) ->
     isNullish v M' = isNullish v (M1 ++ M2)).
Proof.
  split; [apply Array_some_app|].
  intros M' Hperm Hser.
  assert (Hser' : Forall (fun m => composite m -> serializable m /\ serializable v) M').
  { rewrite Forall_forall in Hser |- *. intros m Hm. apply Hser.
    rewrite Hperm. exact Hm. }
  destruct (isNullish_no_throw v _ Hser) as (b & Hb & Hiff).
  destruct (isNullish_no_throw v _ Hser') as (b' & Hb' & Hiff').
  rewrite Hb, Hb'. f_equal.
  assert (Heq : b' = true <-> b = true).
  { rewrite Hiff, Hiff'. split; intros (m & Hin & Hm); exists m; (split; [|exact Hm]).
    - eapply Permutation_in; [symmetry; exact Hperm | exact Hin].
    - eapply Permutation_in; [exact Hperm | exact Hin]. }
  destruct b, b'; try reflexivity; destruct Heq as [H1 H2];
    [discriminate (H2 eq_refl) | discriminate (H1 eq_refl)].
Qed.

(** ** More on the wrappers and on how chains are built *)

Lemma strict_eq_undefined x : strict_eq JUndefined x = true <-> x = JUndefined.
Proof. destruct x; simpl; split; intros H; congruence. Qed.

Lemma isNullish_undefined_marker x :
  isNullish x [JUndefined] = Ok (strict_eq JUndefined x).
Proof.
  unfold isNullish.
  rewrite (Array_some_total _ (fun m => strict_eq m x)).
  - simpl. rewrite orb_false_r. reflexivity.
  - constructor; [|constructor]. apply marker_test_scalar. intros [_ Ht]. discriminate Ht.
Qed.

Lemma monadAsyncRun_as_chain cb x rest w steps wb :
  monadAsync_chain x [JUndefined] [(cb, rest)] w = (Ok steps, wb) ->
  exists step0 step,
    steps = [step0; step] /\ monadAsyncRun cb x rest w = (Ok step, wb).
Proof.
  unfold monadAsync_chain, monadAsyncRun, mbind, Exec_mbind.
  destruct (monadAsync x [JUndefined] w) as [[step0|e] w1]; [|discriminate].
  rewrite chain_cons.
  destruct (Step_pipe step0 cb rest w1) as [[step|e] w2]; [|discriminate].
  cbn [chain]. unfold mret, Exec_mret. intros H. inversion H; subst.
  exists step0, step. split; reflexivity.
Qed.

(** X5.  [monadRun] takes the short cut on [undefined] and on nothing
    else: on [undefined] the step's value is [undefined] and the callback
    is not called; on any other first argument, [null] and promises
    included, the wrapper is one call of the callback on it, whose result
    is the step's value.  [monadAsyncRun] awaits a first argument that is
    a promise, and takes the short cut exactly when the value it has then
    is [undefined]: its step resolves to [undefined] and the callback is
    not called; on any other such value, [null] included, the callback is
    called once on it, and the step resolves to its result. *)
Theorem monadRun_short_cuts_on_undefined_only (cb : Callback) (x : JsVal)
    (rest : list JsVal) (w : World) :
  (x = JUndefined ->
   monadRun cb x rest w = (Ok (sstep [JUndefined] JUndefined), w)) /\
  (x <> JUndefined ->
   monadRun cb x rest w =
     match call cb (x :: rest) w with
     | (Ok v, w') => (Ok (sstep [JUndefined] v), w')
     | (Thrown e, w') => (Thrown e, w')
     end) /\
  (plain_callback cb ->
   forall v, awaited w x (Fulfilled v) -> instanceof_Promise v = false ->
   exists step wb n,
     monadAsyncRun cb x rest w = (Ok step, wb) /\
     forall m, n <= m ->
       (v = JUndefined ->
        settled (drain m wb) (value step) = Some (Fulfilled JUndefined) /\
        log (drain m wb) = log w) /\
       (v <> JUndefined ->
        settled (drain m wb) (value step) =
          Some (settle_of (fst (cb_fn cb (v :: rest) (ustate w)))) /\
        log (drain m wb) = log w ++ [(cb_id cb, v :: rest)])).
Proof.
  split; [|split].
  - intros ->. reflexivity.
  - intros Hx. unfold monadRun, monad. rewrite Step_pipe_sync, pipe_unfold.
    assert (Hn : isNullish x [JUndefined] = Ok false).
    { rewrite isNullish_undefined_marker. f_equal.
      apply not_true_is_false. intros E. apply strict_eq_undefined in E. contradiction. }
    rewrite (bind_calls _ _ _ _ _ Hn).
    destruct (call cb (x :: rest) w) as [[v|e] w']; reflexivity.
  - intros Hcb v Haw Hv.
    destruct (stage_denot [JUndefined] (cb, rest) (Fulfilled v) (log w) (ustate w))
      as [[s1 l1] u1] eqn:Hd.
    assert (Hch : chain_denot [JUndefined] [(cb, rest)] (Fulfilled v) (log w) (ustate w) =
                  ([s1], l1, u1)).
    { rewrite chain_denot_cons, Hd. reflexivity. }
    assert (Hcbs : Forall (fun st : Stage => plain_callback (fst st)) [(cb, rest)]).
    { constructor; [exact Hcb | constructor]. }
    destruct (async_chain_run [JUndefined] [(cb, rest)] x w (Fulfilled v) [s1] l1 u1
                Haw Hv Hcbs Hch) as (steps & wb & Hrun & _ & n & Hfin).
    destruct (monadAsyncRun_as_chain cb x rest w steps wb Hrun)
      as (step0 & step & -> & Hrun').
    exists step, wb, n. split; [exact Hrun'|].
    intros m Hm. destruct (Hfin m Hm) as (_ & Hl & _ & HF).
    apply Forall2_cons_1 in HF. destruct HF as [_ HF].
    apply Forall2_cons_1 in HF. destruct HF as [Hset _].
    unfold stage_denot in Hd. rewrite isNullish_undefined_marker in Hd.
    split.
    + intros Hu. rewrite Hu in Hd. simpl in Hd. inversion Hd as [[E1 E2 E3]].
      rewrite E1, E2. split; [exact Hset | exact Hl].
    + intros Hne.
      assert (E : strict_eq JUndefined v = false).
      { apply not_true_is_false. intros E. apply strict_eq_undefined in E. contradiction. }
      rewrite E in Hd. cbn [fst snd] in Hd.
      destruct (cb_fn cb (v :: rest) (ustate w)) as [r u'].
      inversion Hd as [[E1 E2 E3]]. cbn [fst]. rewrite E1, E2. split; [exact Hset | exact Hl].
Qed.

Lemma sync_chain_steps M stages : forall v w steps w',
  chain (sstep M v) stages w = (Ok steps, w') ->
  length steps = length stages /\
  Forall (fun s => pipe_fn s = PipeSync (value s) M) steps.
Proof.
  induction stages as [|[cb rest] more IH]; intros v w steps w' H.
  - inversion H. split; [reflexivity | constructor].
  - rewrite chain_sstep_cons in H.
    destruct (bind cb M v rest w) as [[v1|e] w1]; [|discriminate].
    destruct (chain (sstep M v1) more w1) as [[steps1|e] w2] eqn:E; [|discriminate].
    inversion H; subst. destruct (IH v1 w1 steps1 w' E) as [Hlen Hall].
    split; [simpl; f_equal; exact Hlen|]. constructor; [reflexivity | exact Hall].
Qed.

Lemma async_chain_steps M stages : forall x prev w,
  exists steps w',
    chain (mkStep x (PipeAsync prev M)) stages w = (Ok steps, w') /\
    length steps = length stages /\
    Forall (fun s => instanceof_Promise (value s) = true /\
                     pipe_fn s = PipeAsync (value s) M) steps.
Proof.
  induction stages as [|[cb rest] more IH]; intros x prev w.
  - exists [], w. split; [reflexivity|]. split; [reflexivity | constructor].
  - rewrite chain_cons, Step_pipe_async, pipeAsync_unfold.
    destruct (IH (JPromise (length (heap w))) (JPromise (length (heap w)))
                (snd (bindAsync cb M prev rest w))) as (steps & w' & Hch & Hlen & Hall).
    unfold astep at 1. rewrite Hch.
    eexists _, _. split; [reflexivity|].
    split; [simpl; f_equal; exact Hlen|].
    constructor; [split; reflexivity | exact Hall].
Qed.

(** X7.  Every step of a chain hands its own value and the same markers to
    the next continuation call.  A synchronous chain returns one such step
    per stage when no user function throws; the construction of an
    asynchronous chain never throws, whatever the user functions do, and
    returns one step per stage whose value is a promise. *)
Theorem chain_steps_shape (M : list JsVal) (stages : list Stage) :
  (forall v0 w steps w',
     chain (monad v0 M) stages w = (Ok steps, w') ->
     length steps = length stages /\
     Forall (fun s => pipe_fn s = PipeSync (value s) M) steps) /\
  (forall x prev w,
     exists steps w',
       chain (mkStep x (PipeAsync prev M)) stages w = (Ok steps, w') /\
       length steps = length stages /\
       Forall (fun s => instanceof_Promise (value s) = true /\
                        pipe_fn s = PipeAsync (value s) M) steps).
Proof.
  split.
  - intros v0 w steps w'. apply sync_chain_steps.
  - apply async_chain_steps.
Qed.


(** *** What the construction of an asynchronous chain calls *)






(** ** Which user functions a chain calls *)

Lemma sync_chain_calls M stages : forall v w,
  exists inputs,
    length inputs <= length stages /\
    log (snd (chain (sstep M v) stages w)) = log w ++ calls_of stages inputs.
Proof.
  induction stages as [|[cb rest] more IH]; intros v w.
  - exists []. split; [simpl; lia|]. simpl. rewrite app_nil_r. reflexivity.
  - rewrite chain_sstep_cons.
    destruct (isNullish v M) as [[|]|e] eqn:Hn.
    + rewrite (bind_nullish _ _ _ _ _ Hn), (chain_nullish M v more w Hn).
      exists []. split; [simpl; lia|]. simpl. rewrite app_nil_r. reflexivity.
    + rewrite (bind_calls _ _ _ _ _ Hn).
      pose proof (call_log cb (v :: rest) w) as Hl.
      destruct (call cb (v :: rest) w) as [[v1|e] w1]; cbn [snd] in Hl.
      * destruct (IH v1 w1) as (inputs & Hlen & Hlog).
        exists (v :: inputs). split; [simpl; lia|].
        destruct (chain (sstep M v1) more w1) as [[steps|e] w2]; cbn [snd] in *;
          rewrite Hlog, Hl, <- app_assoc; reflexivity.
      * exists [v]. split; [simpl; lia|]. cbn [snd]. rewrite Hl.
        destruct more as [|[cb' rest'] more']; reflexivity.
    + rewrite (bind_throws _ _ _ _ _ _ Hn).
      exists []. split; [simpl; lia|]. simpl. rewrite app_nil_r. reflexivity.
Qed.

Lemma chain_denot_calls M stages : forall s l u,
  exists inputs,
    length inputs <= length stages /\
    snd (fst (chain_denot M stages s l u)) = l ++ calls_of stages inputs.
Proof.
  induction stages as [|[cb rest] more IH]; intros s l u.
  - exists []. split; [simpl; lia|]. simpl. rewrite app_nil_r. reflexivity.
  - assert (Hnone : forall s1,
      chain_denot M more s1 l u = (repeat s1 (length more), l, u) ->
      stage_denot M (cb, rest) s l u = (s1, l, u) ->
      exists inputs, length inputs <= length ((cb, rest) :: more) /\
        snd (fst (chain_denot M ((cb, rest) :: more) s l u)) =
        l ++ calls_of ((cb, rest) :: more) inputs).
    { intros s1 Hrest Hst. exists []. split; [simpl; lia|].
      rewrite chain_denot_cons, Hst, Hrest. simpl. rewrite app_nil_r. reflexivity. }
    destruct s as [v|e].
    + destruct (isNullish v M) as [[|]|e] eqn:Hn.
      * apply (Hnone (Fulfilled v)); [apply chain_denot_nullish, Hn|].
        unfold stage_denot. rewrite Hn. reflexivity.
      * rewrite chain_denot_cons. unfold stage_denot. rewrite Hn. cbn [fst snd].
        destruct (cb_fn cb (v :: rest) u) as [r u'].
        destruct (IH (settle_of r) (l ++ [(cb_id cb, v :: rest)]) u') as (inputs & Hlen & Hlog).
        exists (v :: inputs). split; [simpl; lia|].
        destruct (chain_denot M more (settle_of r) (l ++ [(cb_id cb, v :: rest)]) u')
          as [[ss lf] uf]. cbn [fst snd] in *. rewrite Hlog, <- app_assoc. reflexivity.
      * apply (Hnone (Rejected e)); [apply chain_denot_rejected|].
        unfold stage_denot. rewrite Hn. reflexivity.
    + apply (Hnone (Rejected e)); [apply chain_denot_rejected | reflexivity].
Qed.

(** X10.  The user functions that a chain calls are those of its first stages,
    in order and once each, every one with the value it receives first
    and its own extra arguments after it: no stage is called twice, none
    is skipped before the chain stops calling, and none is called after.
    For an asynchronous chain this is the call log once the microtask
    queue has run. *)
Theorem calls_are_a_prefix (M : list JsVal) (v0 : JsVal) (stages : list Stage)
    (w : World) :
  (exists inputs,
     length inputs <= length stages /\
     log (snd (chain (monad v0 M) stages w)) = log w ++ calls_of stages inputs) /\
  (forall s0,
     awaited w v0 s0 ->
     plain_settle s0 ->
     Forall (fun st => plain_callback (fst st)) stages ->
     exists inputs steps wb n,
       length inputs <= length stages /\
       monadAsync_chain v0 M stages w = (Ok steps, wb) /\
       forall m, n <= m ->
         log (drain m wb) = log w ++ calls_of stages inputs).
Proof.
  split; [apply (sync_chain_calls M stages v0 w)|].
  intros s0 Haw Hs0 Hcbs.
  destruct (chain_denot_calls M stages s0 (log w) (ustate w)) as (inputs & Hlen & Hlog).
  destruct (chain_denot M stages s0 (log w) (ustate w)) as [[ss lf] uf] eqn:E.
  destruct (async_chain_run M stages v0 w s0 ss lf uf Haw Hs0 Hcbs E)
    as (steps & wb & Hrun & _ & n & Hfin).
  exists inputs, steps, wb, n. split; [exact Hlen|]. split; [exact Hrun|].
  intros m Hm. destruct (Hfin m Hm) as (_ & Hl & _). rewrite Hl. exact Hlog.
Qed.

(** ** Failures along a chain *)

(** Two runs of an asynchronous chain, over [pre] and over [pre ++ post],
    side by side. *)
Lemma async_chain_split M v0 (pre post : list Stage) w s0 ss1 l1 u1 ss2 l2 u2 :
  awaited w v0 s0 -> plain_settle s0 ->
  Forall (fun st => plain_callback (fst st)) (pre ++ post) ->
  chain_denot M pre s0 (log w) (ustate w) = (ss1, l1, u1) ->
  chain_denot M post (List.last ss1 s0) l1 u1 = (ss2, l2, u2) ->
  exists steps wk steps' wb n,
    monadAsync_chain v0 M pre w = (Ok steps, wk) /\
    monadAsync_chain v0 M (pre ++ post) w = (Ok (steps ++ steps'), wb) /\
    forall m, n <= m ->
      Forall2 (fun step s => settled (drain m wb) (value step) = Some s) steps (s0 :: ss1) /\
      Forall2 (fun step s => settled (drain m wb) (value step) = Some s) steps' ss2 /\
      log (drain m wk) = l1 /\ ustate (drain m wk) = u1 /\
      log (drain m wb) = l2 /\ ustate (drain m wb) = u2.
Proof.
  intros Haw Hs0 Hcbs E1 E2.
  pose proof Hcbs as Hall. apply Forall_app in Hcbs. destruct Hcbs as [Hpre Hpost].
  pose proof (chain_denot_app M pre post _ _ _ _ _ _ E1) as Eapp.
  rewrite E2 in Eapp.
  destruct (async_chain_run M pre v0 w s0 ss1 l1 u1 Haw Hs0 Hpre E1)
    as (stepsA & wbA & HrunA & _ & nA & HA).
  destruct (async_chain_run M (pre ++ post) v0 w s0 (ss1 ++ ss2) l2 u2 Haw Hs0 Hall Eapp)
    as (stepsB & wbB & HrunB & _ & nB & HB).
  destruct (monadAsync_chain_app v0 M pre post w stepsA wbA HrunA) as (sk0 & Hlast & Happ).
  rewrite HrunB in Happ.
  destruct (chain sk0 post wbA) as [[steps'|e] w3]; [|discriminate].
  inversion Happ; subst. clear Happ.
  assert (HlenA : length stepsA = length (s0 :: ss1)).
  { destruct (HA nA (le_n _)) as (_ & _ & _ & HF). apply (Forall2_length _ _ _ HF). }
  exists stepsA, wbA, steps', w3, (max nA nB).
  split; [exact HrunA|]. split; [exact HrunB|].
  intros m Hm.
  destruct (HA m ltac:(lia)) as (_ & HlA & HuA & _).
  destruct (HB m ltac:(lia)) as (_ & HlB & HuB & HF).
  change (s0 :: ss1 ++ ss2) with ((s0 :: ss1) ++ ss2) in HF.
  apply Forall2_app_inv in HF; [|exact HlenA]. destruct HF as [HF1 HF2].
  repeat split; assumption.
Qed.

(** X12.  A failure travels down an asynchronous chain like a nullish value:
    once the microtask queue has run, if the promise of the last step of
    [pre] is rejected, the promise of each step of [post] is rejected
    with the same exception, and the call log and the user's state are
    those of the chain over [pre] alone: no function of [post] is
    called. *)
Theorem rejection_propagates (M : list JsVal) (v0 : JsVal) (pre post : list Stage)
    (w : World) (s0 : Settle) :
  awaited w v0 s0 ->
  plain_settle s0 ->
  Forall (fun st => plain_callback (fst st)) (pre ++ post) ->
  exists steps wk steps' wb n,
    monadAsync_chain v0 M pre w = (Ok steps, wk) /\
    monadAsync_chain v0 M (pre ++ post) w = (Ok (steps ++ steps'), wb) /\
    length steps' = length post /\
    forall m, n <= m -> forall sk e,
      last steps = Some sk ->
      settled (drain m wb) (value sk) = Some (Rejected e) ->
      Forall (fun s => settled (drain m wb) (value s) = Some (Rejected e)) steps' /\
      log (drain m wb) = log (drain m wk) /\
      ustate (drain m wb) = ustate (drain m wk).
Proof.
  intros Haw Hs0 Hcbs.
  destruct (chain_denot M pre s0 (log w) (ustate w)) as [[ss1 l1] u1] eqn:E1.
  destruct (chain_denot M post (List.last ss1 s0) l1 u1) as [[ss2 l2] u2] eqn:E2.
  destruct (async_chain_split M v0 pre post w s0 ss1 l1 u1 ss2 l2 u2 Haw Hs0 Hcbs E1 E2)
    as (steps & wk & steps' & wb & n & HrunA & HrunB & Hfin).
  exists steps, wk, steps', wb, n.
  split; [exact HrunA|]. split; [exact HrunB|]. split.
  - destruct (Hfin n (le_n _)) as (_ & HF2 & _).
    rewrite (Forall2_length _ _ _ HF2). eapply chain_denot_length, E2.
  - intros m Hm sk e Hsk Hset.
    destruct (Hfin m Hm) as (HF1 & HF2 & HlA & HuA & HlB & HuB).
    pose proof (Forall2_last_default _ _ _ _ s0 HF1 Hsk) as Hk.
    cbv beta in Hk. rewrite Hset in Hk. rewrite List_last_cons in Hk.
    inversion Hk as [Hx]. rewrite <- Hx in E2.
    rewrite chain_denot_rejected in E2. inversion E2; subst.
    split; [|split; congruence].
    clear -HF2. remember (repeat (Rejected e) (length post)) as rs eqn:Er.
    assert (Hall : Forall (fun s => s = Rejected e) rs).
    { subst rs. apply Forall_forall. intros s Hs.
      apply list_elem_of_In, repeat_spec in Hs. exact Hs. }
    clear Er. induction HF2 as [|a b l k Hab _ IH]; constructor.
    + inversion Hall; subst. exact Hab.
    + apply IH. inversion Hall; assumption.
Qed.

(** X13.  When the nullish test itself throws (a BigInt against an object
    marker), the user function is not called and the exception comes out:
    [bind] throws it and leaves the world as it is, and the promise of
    [bindAsync] is rejected with it. *)
Theorem nullish_test_failure_surfaces (cb : Callback) (M : list JsVal) (x : JsVal)
    (rest : list JsVal) (w : World) (e : Exn) :
  isNullish x M = Thrown e ->
  bind cb M x rest w = (Thrown e, w) /\
  pipe x M cb rest w = (Thrown e, w) /\
  (plain_callback cb -> instanceof_Promise x = false ->
   forall first, awaited w first (Fulfilled x) ->
     exists wb n,
       bindAsync cb M first rest w = (Ok (JPromise (length (heap w))), wb) /\
       forall m, n <= m ->
         settled (drain m wb) (JPromise (length (heap w))) = Some (Rejected e) /\
         log (drain m wb) = log w /\
         ustate (drain m wb) = ustate w).
Proof.
  intros Hn. split; [apply bind_throws, Hn|]. split.
  - rewrite pipe_unfold, (bind_throws _ _ _ _ _ _ Hn). reflexivity.
  - intros Hcb Hx first Haw.
    assert (Hd : stage_denot M (cb, rest) (Fulfilled x) (log w) (ustate w) =
                 (Rejected e, log w, ustate w)).
    { unfold stage_denot. rewrite Hn. reflexivity. }
    destruct (bindAsync_runs cb M first rest w (Fulfilled x) _ _ _ Hcb Hx Haw Hd)
      as (_ & _ & hf & Hreach & Hset).
    destruct (reaches_idle _ _ Hreach eq_refl) as [n Hfin].
    exists (snd (bindAsync cb M first rest w)), n.
    split; [apply bindAsync_unfold|].
    intros m Hm. rewrite (Hfin m Hm). cbn [settled heap log ustate].
    rewrite Hset. repeat split.
Qed.

(** ** Chains of functions that are plain where they are called *)

(** The engine above, for user functions that hand out settled values
    only on the arguments the chain gives them ([plain_run]) rather than
    on every argument: [getUserPreferenceAsync] is such a function. *)

Lemma stage_denot_log M st s l u :
  fst (fst (stage_denot M st s [] u)) = fst (fst (stage_denot M st s l u)) /\
  snd (stage_denot M st s [] u) = snd (stage_denot M st s l u).
Proof.
  unfold stage_denot. destruct s as [v|e]; [|split; reflexivity].
  destruct (isNullish v M) as [[|]|e]; try (split; reflexivity).
  destruct (cb_fn (fst st) (v :: snd st) u) as [r u']. split; reflexivity.
Qed.

Lemma tail_runs_at cb M rest v out l u h q rs s' l' u' :
  (isNullish v M = Ok false -> plain_result (fst (cb_fn cb (v :: rest) u))) ->
  instanceof_Promise v = false ->
  h !! out = Some (Pending rs) ->
  stage_denot M (cb, rest) (Fulfilled v) l u = (s', l', u') ->
  plain_settle s' /\
  exists h' q',
    run_async (bindAsync_tail cb M rest v) out (mkWorld l u h q) = mkWorld l' u' h' q' /\
    extends out h h' /\
    ((h' !! out = Some (Settled s') /\ q' = q ++ map (fun r => JReact r s') rs) \/
     (exists p qf, length h <= p /\ p < length h' /\
        h' !! out = Some (Pending rs) /\ q' = q ++ qf /\ Front s' p out h' qf)).
Proof.
  intros Hcb Hv Hout Hd.
  unfold stage_denot in Hd. unfold bindAsync_tail.
  destruct (isNullish v M) as [[|]|e] eqn:Hn; simpl in Hd.
  - (* nullish: the value is echoed *)
    inversion Hd; subst. split; [exact Hv|].
    simpl run_async. rewrite resolve_plain by exact Hv.
    rewrite (settle_cell _ _ _ _ _ _ _ Hout).
    eexists _, _. split; [reflexivity|]. split; [apply extends_insert|].
    left. split; [|reflexivity].
    apply list_lookup_insert_eq. eapply lookup_lt_Some, Hout.
  - (* the callback is called *)
    simpl run_async. unfold call. simpl ustate. simpl log. simpl heap. simpl queue.
    first [specialize (Hcb eq_refl) | specialize (Hcb Hn)].
    destruct (cb_fn cb (v :: rest) u) as [r u1]. simpl in Hcb.
    inversion Hd; subst. clear Hd.
    destruct r as [v1|e|[|d] s]; simpl in *.
    + split; [exact Hcb|].
      rewrite resolve_plain by exact Hcb.
      rewrite (settle_cell _ _ _ _ _ _ _ Hout).
      eexists _, _. split; [reflexivity|]. split; [apply extends_insert|].
      left. split; [|reflexivity].
      apply list_lookup_insert_eq. eapply lookup_lt_Some, Hout.
    + split; [exact I|].
      unfold reject_promise. rewrite (settle_cell _ _ _ _ _ _ _ Hout).
      eexists _, _. split; [reflexivity|]. split; [apply extends_insert|].
      left. split; [|reflexivity].
      apply list_lookup_insert_eq. eapply lookup_lt_Some, Hout.
    + split; [exact Hcb|].
      pose proof (lookup_lt_Some _ _ _ Hout) as Hlt.
      unfold with_heap. simpl.
      destruct (Nat.eqb_spec (length h) out) as [E|E]; [lia|].
      unfold enqueue. simpl.
      eexists _, _. split; [reflexivity|]. split; [apply extends_app|].
      right. exists (length h), [JThenable (length h) out].
      rewrite length_app. simpl. repeat split; try lia.
      * apply lookup_app_l_Some, Hout.
      * apply Front_then. apply list_lookup_middle. reflexivity.
    + split; [exact Hcb|].
      pose proof (lookup_lt_Some _ _ _ Hout) as Hlt.
      unfold with_heap, enqueue. simpl.
      destruct (Nat.eqb_spec (length h) out) as [E|E]; [lia|].
      simpl.
      eexists _, _. split; [rewrite <- app_assoc; reflexivity|]. split; [apply extends_app|].
      right. exists (length h), [JHop d (length h) s; JThenable (length h) out].
      rewrite length_app. simpl. repeat split; try lia.
      * apply lookup_app_l_Some, Hout.
      * apply Front_hop. apply list_lookup_middle. reflexivity.
  - (* the nullish test throws *)
    inversion Hd; subst. split; [exact I|].
    simpl run_async. unfold reject_promise. rewrite (settle_cell _ _ _ _ _ _ _ Hout).
    eexists _, _. split; [reflexivity|]. split; [apply extends_insert|].
    left. split; [|reflexivity].
    apply list_lookup_insert_eq. eapply lookup_lt_Some, Hout.
Qed.

Lemma stage_runs_at cb M rest o s l u h rs s1 l1 u1 :
  (forall v, s = Fulfilled v -> isNullish v M = Ok false ->
             plain_result (fst (cb_fn cb (v :: rest) u))) ->
  plain_settle s ->
  h !! o = Some (Pending rs) ->
  stage_denot M (cb, rest) s l u = (s1, l1, u1) ->
  plain_settle s1 /\
  exists h1,
    reaches (mkWorld l u h [JReact (RResume (bindAsync_tail cb M rest) o) s])
            (mkWorld l1 u1 h1 (map (fun r => JReact r s1) rs)) /\
    h1 !! o = Some (Settled s1) /\ extends o h h1.
Proof.
  intros Hcb Hs Ho Hd. destruct s as [v|e].
  - destruct (tail_runs_at cb M rest v o l u h [] rs s1 l1 u1 (Hcb v eq_refl) Hs Ho Hd)
      as (Hs1 & h' & q' & Hrun & Hext & Hcase).
    split; [exact Hs1|].
    destruct Hcase as [[Hset ->] | (p & qf & Hp1 & Hp2 & Hpend & -> & HF)].
    + exists h'. split; [|split; assumption].
      apply reaches_tick. rewrite tick_cons. simpl run_job. rewrite Hrun.
      apply reaches_refl.
    + exists (<[o := Settled s1]> (<[p := Settled s1]> h')).
      pose proof (lookup_lt_Some _ _ _ Ho) as Hlt.
      split; [|split].
      * apply reaches_tick. rewrite tick_cons. simpl run_job. rewrite Hrun. simpl.
        apply front_settles; try assumption. lia.
      * apply list_lookup_insert_eq. rewrite length_insert.
        destruct Hext. lia.
      * apply settled_then_extends; assumption.
  - simpl in Hd. inversion Hd; subst. split; [exact I|].
    exists (<[o := Settled (Rejected e)]> h). split; [|split].
    + apply reaches_tick. rewrite tick_cons. simpl run_job.
      unfold reject_promise. rewrite (settle_cell _ _ _ _ _ _ _ Ho).
      apply reaches_refl.
    + apply list_lookup_insert_eq. eapply lookup_lt_Some, Ho.
    + apply extends_insert.
Qed.

Lemma ready_runs_at M stages : forall outs h q s l u ss lf uf,
  plain_settle s ->
  plain_run M stages s u ->
  Ready M h q s stages outs ->
  chain_denot M stages s l u = (ss, lf, uf) ->
  exists hf,
    reaches (mkWorld l u h q) (mkWorld lf uf hf []) /\
    Forall2 (settled_as hf) outs ss /\
    length h <= length hf /\
    (forall i, i < length h -> Forall (lt i) outs -> hf !! i = h !! i).
Proof.
  induction stages as [|[cb rest] stages IH]; intros outs h q s l u ss lf uf Hs Hcbs HR Hd.
  - destruct outs; simpl in HR; [|contradiction]. subst q.
    simpl in Hd. inversion Hd; subst.
    exists h. split; [apply reaches_refl|]. split; [constructor|]. split; [lia|]. reflexivity.
  - destruct outs as [|o outs]; simpl in HR; [contradiction|].
    destruct HR as (-> & HL).
    simpl in Hd.
    destruct (stage_denot M (cb, rest) s l u) as [[s1 l1] u1] eqn:Hst.
    destruct (chain_denot M stages s1 l1 u1) as [[ss' lf'] uf'] eqn:Hch.
    inversion Hd; subst. clear Hd.
    destruct Hcbs as [Hcb Hcbs']. cbn [fst snd] in Hcb.
    destruct (stage_denot_log M (cb, rest) s l u) as [E1 E2].
    rewrite E1, E2, Hst in Hcbs'. cbn [fst snd] in Hcbs'. clear E1 E2.
    destruct (Linked_fire _ _ _ _ _ HL) as (rs & Ho & Hfire).
    destruct (stage_runs_at cb M rest o s l u h rs s1 l1 u1 Hcb Hs Ho Hst)
      as (Hs1 & h1 & Hreach & Hset & Hext).
    destruct Hext as [Hlen Hfr].
    assert (HR1 : Ready M h1 (map (fun r => JReact r s1) rs) s1 stages outs).
    { apply Hfire. intros i Hi.
      pose proof (Linked_lt _ _ _ _ _ HL) as Hlts.
      pose proof (Linked_bound_all _ _ _ _ _ HL) as Hbs.
      rewrite Forall_forall in Hlts, Hbs.
      apply list_elem_of_In in Hi.
      specialize (Hlts i Hi). specialize (Hbs i Hi). simpl in Hbs.
      apply Hfr; lia. }
    destruct (IH outs h1 _ s1 l1 u1 ss' lf uf Hs1 Hcbs' HR1 Hch)
      as (hf & Hreach' & Hall & Hlen' & Hfr').
    exists hf. split; [eapply reaches_trans; eassumption|].
    pose proof (lookup_lt_Some _ _ _ Ho) as Hlt.
    split; [|split; [lia|]].
    + constructor; [|exact Hall]. unfold settled_as.
      rewrite Hfr'; [exact Hset | lia | eapply Linked_lt, HL].
    + intros i Hi Hall'. inversion Hall'; subst.
      rewrite Hfr'; [apply Hfr; lia | lia | assumption].
Qed.

Lemma async_chain_run_at M stages v0 w s0 ss lf uf :
  awaited w v0 s0 ->
  plain_settle s0 ->
  plain_run M stages s0 (ustate w) ->
  chain_denot M stages s0 (log w) (ustate w) = (ss, lf, uf) ->
  exists steps wb,
    monadAsync_chain v0 M stages w = (Ok steps, wb) /\
    Forall (fun step => instanceof_Promise (value step) = true) steps /\
    exists n, forall m, n <= m ->
      queue (drain m wb) = [] /\
      log (drain m wb) = lf /\
      ustate (drain m wb) = uf /\
      Forall2 (fun step s => settled (drain m wb) (value step) = Some s)
        steps (s0 :: ss).
Proof.
  intros Haw Hs0 Hcbs Hd. destruct w as [l u h q]. cbn [log ustate] in Hd, Hcbs.
  assert (Hfin : forall p0 x outs wb hf,
    reaches wb (mkWorld lf uf hf []) ->
    hf !! p0 = Some (Settled s0) ->
    Forall2 (settled_as hf) outs ss ->
    Forall (fun step => instanceof_Promise (value step) = true)
      (mkStep (JPromise p0) x :: map (astep M) outs) /\
    exists n, forall m, n <= m ->
      queue (drain m wb) = [] /\ log (drain m wb) = lf /\ ustate (drain m wb) = uf /\
      Forall2 (fun step s => settled (drain m wb) (value step) = Some s)
        (mkStep (JPromise p0) x :: map (astep M) outs) (s0 :: ss)).
  { intros p0 x outs wb hf Hreach H0 Hall. split.
    { constructor; [reflexivity|].
      apply Forall_forall. intros y Hy. apply list_elem_of_In, in_map_iff in Hy.
      destruct Hy as (o & <- & _). reflexivity. }
    destruct (reaches_idle _ _ Hreach eq_refl) as [n Hn].
    exists n. intros m Hm. rewrite (Hn m Hm). simpl.
    repeat split. constructor; [simpl; rewrite H0; reflexivity|].
    clear -Hall.
    induction Hall as [|o s outs ss Ho Hall IH]; simpl; constructor; [|exact IH].
    unfold settled_as in Ho. simpl. rewrite Ho. reflexivity. }
  assert (Hstart : forall step0 w1 steps wb,
    monadAsync v0 M (mkWorld l u h q) = (Ok step0, w1) ->
    chain step0 stages w1 = (Ok steps, wb) ->
    monadAsync_chain v0 M stages (mkWorld l u h q) = (Ok (step0 :: steps), wb)).
  { intros step0 w1 steps wb E0 E. unfold monadAsync_chain.
    unfold mbind, Exec_mbind. rewrite E0, E. reflexivity. }
  inversion Haw as [v Hv0 Hq | p s' Hp Hq | p d s' Hp Hq]; subst;
    cbn [queue heap] in *; subst.
  - (* an immediate initial value *)
    set (step0 := mkStep (JPromise (length h)) (PipeAsync v0 M)).
    set (h1 := h ++ [Settled (Fulfilled v0)]) in *.
    assert (Hres : monadAsync v0 M (mkWorld l u h []) = (Ok step0, mkWorld l u h1 [])).
    { destruct v0; simpl in Hv0 |- *; try discriminate; reflexivity. }
    assert (H0 : h1 !! length h = Some (Settled (Fulfilled v0))).
    { apply list_lookup_middle. reflexivity. }
    assert (Hlen1 : length h1 = S (length h)).
    { unfold h1. rewrite length_app. simpl. lia. }
    destruct stages as [|[cb rest] more].
    + simpl in Hd. inversion Hd; subst.
      exists [step0], (mkWorld lf uf h1 []).
      split; [apply (Hstart _ _ _ _ Hres); reflexivity|].
      apply (Hfin _ _ [] _ h1); [apply reaches_refl | exact H0 | constructor].
    + rewrite chain_denot_cons in Hd.
      destruct (stage_denot M (cb, rest) (Fulfilled v0) l u) as [[s1 l1] u1] eqn:Hst.
      destruct (chain_denot M more s1 l1 u1) as [[ss' lf'] uf'] eqn:Hch.
      inversion Hd; subst. clear Hd.
      destruct Hcbs as [Hcb Hcbs']. cbn [fst snd] in Hcb.
      destruct (stage_denot_log M (cb, rest) (Fulfilled v0) l u) as [E1 E2].
      rewrite E1, E2, Hst in Hcbs'. cbn [fst snd] in Hcbs'. clear E1 E2.
      set (out := length h1).
      assert (Hout : (h1 ++ [Pending []]) !! out = Some (Pending [])).
      { apply list_lookup_middle. reflexivity. }
      destruct (tail_runs_at cb M rest v0 out l u _ [] [] s1 l1 u1 (Hcb v0 eq_refl) Hv0 Hout Hst)
        as (Hs1 & h' & q' & Hrun & [Hlen Hfr] & Hcase).
      rewrite length_app in Hlen, Hfr. simpl in Hlen, Hfr.
      assert (Hchain : forall steps wb,
        chain (astep M out) more (mkWorld l1 u1 h' q') = (Ok steps, wb) ->
        chain step0 ((cb, rest) :: more) (mkWorld l u h1 []) =
          (Ok (astep M out :: steps), wb)).
      { intros steps wb E. rewrite chain_cons. unfold step0.
        rewrite Step_pipe_async, (pipeAsync_value M v0 cb rest _ Hv0).
        simpl heap. unfold with_heap. simpl. fold out. rewrite Hrun.
        rewrite E. reflexivity. }
      assert (H0' : h' !! length h = Some (Settled (Fulfilled v0))).
      { rewrite Hfr by (unfold out; lia). rewrite lookup_app_l by lia. exact H0. }
      destruct Hcase as [[Hset ->] | (p & qf & Hp1 & Hp2 & Hpend & -> & HF)];
        simpl in Hchain.
      * destruct (build_ready M more l1 u1 h' [] out (JPromise out) s1 Hset)
          as (outs & hb & qb & Hbuild & HR & Hlenb & Hfrb & Hge).
        simpl in Hbuild.
        destruct (ready_runs_at M more outs hb qb s1 l1 u1 ss' lf uf Hs1 Hcbs' HR Hch)
          as (hf & Hreach & Hall & Hlenf & Hfrf).
        exists (step0 :: map (astep M) (out :: outs)), (mkWorld l1 u1 hb qb).
        split; [apply (Hstart _ _ _ _ Hres), Hchain, Hbuild|].
        assert (Hkeep : forall i, i <= out -> hf !! i = h' !! i).
        { intros i Hi. rewrite Hfrf; [apply Hfrb; lia | lia |].
          eapply Forall_impl; [exact Hge|]. simpl. intros; lia. }
        apply (Hfin _ _ (out :: outs) _ hf Hreach).
        -- rewrite Hkeep by (unfold out; lia). exact H0'.
        -- constructor; [|exact Hall]. unfold settled_as.
           rewrite Hkeep by lia. exact Hset.
      * rewrite length_app in Hp1. simpl in Hp1.
        destruct (build_linked M more l1 u1 h' qf out (JPromise out) Hpend)
          as (outs & hb & Hbuild & HL & [Hlenb Hfrb] & Hge).
        assert (HF' : Front s1 p out hb qf).
        { eapply Front_frame; [exact HF|]. apply Hfrb; lia. }
        destruct (Linked_fire _ _ _ _ _ HL) as (rs & Ho & Hfire).
        pose proof (front_settles s1 p out l1 u1 hb qf rs Hs1 ltac:(lia) HF' Ho) as Hreach1.
        set (h2 := <[out := Settled s1]> (<[p := Settled s1]> hb)) in *.
        assert (HR : Ready M h2 (map (fun r => JReact r s1) rs) s1 more outs).
        { apply Hfire. intros i Hi. apply list_elem_of_In in Hi.
          rewrite Forall_forall in Hge. specialize (Hge i Hi). simpl in Hge.
          unfold h2. rewrite !list_lookup_insert_ne by lia. reflexivity. }
        destruct (ready_runs_at M more outs h2 _ s1 l1 u1 ss' lf uf Hs1 Hcbs' HR Hch)
          as (hf & Hreach & Hall & Hlenf & Hfrf).
        exists (step0 :: map (astep M) (out :: outs)), (mkWorld l1 u1 hb qf).
        split; [apply (Hstart _ _ _ _ Hres), Hchain, Hbuild|].
        assert (Hlen2 : length h2 = length hb)
          by (unfold h2; rewrite !length_insert; reflexivity).
        assert (Hkeep : forall i, i <= out -> hf !! i = h2 !! i).
        { intros i Hi. rewrite Hfrf; [reflexivity | lia |].
          eapply Forall_impl; [exact Hge|]. simpl. intros; lia. }
        apply (Hfin _ _ (out :: outs) _ hf (reaches_trans _ _ _ Hreach1 Hreach)).
        -- rewrite Hkeep by (unfold out; lia). unfold h2.
           rewrite !list_lookup_insert_ne by (unfold out; lia).
           rewrite Hfrb by (unfold out; lia). exact H0'.
        -- constructor; [|exact Hall]. unfold settled_as.
           rewrite Hkeep by lia. unfold h2.
           apply list_lookup_insert_eq. rewrite length_insert. lia.
  - (* a promise that has settled *)
    pose proof (lookup_lt_Some _ _ _ Hp) as Hlt.
    destruct (build_ready M stages l u h [] p (JPromise p) s0 Hp)
      as (outs & hb & qb & Hbuild & HR & Hlenb & Hfrb & Hge).
    simpl in Hbuild.
    destruct (ready_runs_at M stages outs hb qb s0 l u ss lf uf Hs0 Hcbs HR Hd)
      as (hf & Hreach & Hall & Hlenf & Hfrf).
    exists (mkStep (JPromise p) (PipeAsync (JPromise p) M) :: map (astep M) outs),
      (mkWorld l u hb qb).
    split; [apply (Hstart _ (mkWorld l u h [])); [reflexivity | exact Hbuild]|].
    apply (Hfin _ _ outs _ hf Hreach); [|exact Hall].
    rewrite Hfrf; [rewrite Hfrb by lia; exact Hp | lia |].
    eapply Forall_impl; [exact Hge|]. simpl. intros; lia.
  - (* a promise that is about to settle *)
    pose proof (lookup_lt_Some _ _ _ Hp) as Hlt.
    destruct (build_linked M stages l u h [JHop d p s0] p (JPromise p) Hp)
      as (outs & hb & Hbuild & HL & [Hlenb Hfrb] & Hge).
    destruct (Linked_fire _ _ _ _ _ HL) as (rs & Ho & Hfire).
    pose proof (hop_settles s0 p l u hb rs d Ho) as Hreach1.
    set (h2 := <[p := Settled s0]> hb) in *.
    assert (HR : Ready M h2 (map (fun r => JReact r s0) rs) s0 stages outs).
    { apply Hfire. intros i Hi. apply list_elem_of_In in Hi.
      rewrite Forall_forall in Hge. specialize (Hge i Hi). simpl in Hge.
      unfold h2. rewrite list_lookup_insert_ne by lia. reflexivity. }
    destruct (ready_runs_at M stages outs h2 _ s0 l u ss lf uf Hs0 Hcbs HR Hd)
      as (hf & Hreach & Hall & Hlenf & Hfrf).
    exists (mkStep (JPromise p) (PipeAsync (JPromise p) M) :: map (astep M) outs),
      (mkWorld l u hb [JHop d p s0]).
    split; [apply (Hstart _ (mkWorld l u h [JHop d p s0])); [reflexivity | exact Hbuild]|].
    apply (Hfin _ _ outs _ hf (reaches_trans _ _ _ Hreach1 Hreach)); [|exact Hall].
    assert (Hlen2 : length h2 = length hb) by (unfold h2; rewrite length_insert; reflexivity).
    rewrite Hfrf.
    + unfold h2. apply list_lookup_insert_eq. lia.
    + lia.
    + eapply Forall_impl; [exact Hge|]. simpl. intros; lia.
Qed.

(** ** example.ts: the chain of the four lookups *)

Lemma userMap_entries :
  userMap = [ (JStr "firstUser"%string, JObj 102 [("preference"%string, JStr "cycling"%string)]);
              (JStr "secondUser"%string, JObj 103 [("preference"%string, JStr "running"%string)]);
              (JStr "thirdUser"%string,
               JObj 104 [("preference"%string, JStr "missingPreference"%string)]);
              (JStr "fourthUser"%string, JObj 105 [("preference"%string, JUndefined)]) ].
Proof. reflexivity. Qed.

(** The user ids that [db.userMap] knows, and all the others. *)
Lemma userId_cases (v : JsVal) :
  v = JUndefined \/
  v = JStr "firstUser"%string \/ v = JStr "secondUser"%string \/
  v = JStr "thirdUser"%string \/ v = JStr "fourthUser"%string \/
  (v <> JUndefined /\ getUser v = JUndefined /\ suggestion v = JUndefined /\
   lookups_made v = 1).
Proof.
  destruct v as [| |b|n|z|s|f|a l|a fs|p];
    try (do 5 right; repeat split; [discriminate | reflexivity ..]);
    [left; reflexivity|].
  destruct (String.eqb_spec s "firstUser"%string) as [->|N1]; [tauto|].
  destruct (String.eqb_spec s "secondUser"%string) as [->|N2]; [tauto|].
  destruct (String.eqb_spec s "thirdUser"%string) as [->|N3]; [tauto|].
  destruct (String.eqb_spec s "fourthUser"%string) as [->|N4]; [tauto|].
  do 5 right. split; [discriminate|].
  assert (E1 : String.eqb "firstUser"%string s = false) by (apply String.eqb_neq; congruence).
  assert (E2 : String.eqb "secondUser"%string s = false) by (apply String.eqb_neq; congruence).
  assert (E3 : String.eqb "thirdUser"%string s = false) by (apply String.eqb_neq; congruence).
  assert (E4 : String.eqb "fourthUser"%string s = false) by (apply String.eqb_neq; congruence).
  apply String.eqb_neq in N1, N2, N3, N4.
  split; [|split].
  - unfold getUser, Map_get. rewrite userMap_entries.
    cbn [find fst snd same_value_zero strict_eq]. rewrite E1, E2, E3, E4. reflexivity.
  - unfold suggestion. cbn [strict_eq]. rewrite N1, N2. reflexivity.
  - unfold lookups_made. cbn [strict_eq]. rewrite N1, N2, N3, N4. reflexivity.
Qed.

Lemma isNullish_undefined_only v :
  v <> JUndefined -> isNullish v [JUndefined] = Ok false.
Proof.
  intros Hv. rewrite isNullish_undefined_marker.
  destruct (strict_eq JUndefined v) eqn:E; [|reflexivity].
  apply strict_eq_undefined in E. contradiction.
Qed.

(** One lookup of either kind on a value that is not [undefined]. *)
Lemma lookup_stage_denot (st : Stage) id f v l u :
  st = (sync_fn id f, []) \/ st = (async_after_turn id f, []) ->
  v <> JUndefined ->
  stage_denot [JUndefined] st (Fulfilled v) l u = (settle_of_res (f v), l ++ [(id, [v])], u).
Proof.
  intros Hst Hv. unfold stage_denot. rewrite (isNullish_undefined_only v Hv).
  destruct Hst as [-> | ->]; cbn [fst snd cb_fn cb_id sync_fn async_after_turn hd];
    [destruct (f v)|]; reflexivity.
Qed.

(** The four lookups, synchronous or asynchronous, on any user id. *)
Lemma lookups_denot (stages : list Stage) userId l u :
  stages = lookups \/ stages = lookupsAsync ->
  exists ss lf,
    chain_denot [JUndefined] stages (Fulfilled userId) l u = (ss, lf, u) /\
    List.last ss (Fulfilled userId) = Fulfilled (suggestion userId) /\
    length lf = length l + lookups_made userId /\
    (instanceof_Promise userId = false -> Forall plain_settle ss).
Proof.
  intros Hst.
  assert (Hcons : exists c1 c2 c3 c4,
    stages = [c1; c2; c3; c4] /\
    (exists i, c1 = (sync_fn i (fun x => Ok (getUser x)), []) \/
               c1 = (async_after_turn i (fun x => Ok (getUser x)), [])) /\
    (exists i, c2 = (sync_fn i getUserPreference, []) \/
               c2 = (async_after_turn i getUserPreference, [])) /\
    (exists i, c3 = (sync_fn i (fun x => Ok (getPreferredItemId x)), []) \/
               c3 = (async_after_turn i (fun x => Ok (getPreferredItemId x)), [])) /\
    (exists i, c4 = (sync_fn i (fun x => Ok (getItemDetails x)), []) \/
               c4 = (async_after_turn i (fun x => Ok (getItemDetails x)), []))).
  { destruct Hst as [-> | ->]; do 4 eexists; (split; [reflexivity|]);
      repeat split; eexists; (left; reflexivity) || (right; reflexivity). }
  clear Hst.
  destruct Hcons as (c1 & c2 & c3 & c4 & -> & [i1 H1] & [i2 H2] & [i3 H3] & [i4 H4]).
  assert (Hnull : forall more l, chain_denot [JUndefined] more (Fulfilled JUndefined) l u =
                                 (repeat (Fulfilled JUndefined) (length more), l, u)).
  { intros more l'. apply chain_denot_nullish. reflexivity. }
  destruct (userId_cases userId)
    as [-> | [-> | [-> | [-> | [-> | (Hne & Hg & Hs & Hm)]]]]].
  - rewrite Hnull. eexists _, _. split; [reflexivity|].
    split; [reflexivity|]. split; [unfold lookups_made; simpl; lia|]. intros _. repeat constructor.
  - rewrite chain_denot_cons, (lookup_stage_denot c1 _ _ _ _ _ H1) by discriminate.
    cbn [settle_of_res].
    rewrite chain_denot_cons, (lookup_stage_denot c2 _ _ _ _ _ H2) by discriminate.
    cbn [settle_of_res].
    change (getUserPreference (getUser (JStr "firstUser"%string)))
      with (Ok (A:=JsVal) (JStr "cycling"%string)). cbn [settle_of_res].
    rewrite chain_denot_cons, (lookup_stage_denot c3 _ _ _ _ _ H3) by discriminate.
    cbn [settle_of_res].
    rewrite chain_denot_cons, (lookup_stage_denot c4 _ _ _ _ _ H4) by discriminate.
    eexists _, _. split; [reflexivity|]. split; [reflexivity|].
    split; [rewrite !length_app; unfold lookups_made; simpl; lia|]. intros _. repeat constructor.
  - rewrite chain_denot_cons, (lookup_stage_denot c1 _ _ _ _ _ H1) by discriminate.
    cbn [settle_of_res].
    rewrite chain_denot_cons, (lookup_stage_denot c2 _ _ _ _ _ H2) by discriminate.
    change (getUserPreference (getUser (JStr "secondUser"%string)))
      with (Ok (A:=JsVal) (JStr "running"%string)). cbn [settle_of_res].
    rewrite chain_denot_cons, (lookup_stage_denot c3 _ _ _ _ _ H3) by discriminate.
    cbn [settle_of_res].
    rewrite chain_denot_cons, (lookup_stage_denot c4 _ _ _ _ _ H4) by discriminate.
    eexists _, _. split; [reflexivity|]. split; [reflexivity|].
    split; [rewrite !length_app; unfold lookups_made; simpl; lia|]. intros _. repeat constructor.
  - rewrite chain_denot_cons, (lookup_stage_denot c1 _ _ _ _ _ H1) by discriminate.
    cbn [settle_of_res].
    rewrite chain_denot_cons, (lookup_stage_denot c2 _ _ _ _ _ H2) by discriminate.
    change (getUserPreference (getUser (JStr "thirdUser"%string)))
      with (Ok (A:=JsVal) (JStr "missingPreference"%string)). cbn [settle_of_res].
    rewrite chain_denot_cons, (lookup_stage_denot c3 _ _ _ _ _ H3) by discriminate.
    change (settle_of_res (Ok (getPreferredItemId (JStr "missingPreference"%string))))
      with (Fulfilled JUndefined).
    rewrite Hnull.
    eexists _, _. split; [reflexivity|]. split; [reflexivity|].
    split; [rewrite !length_app; unfold lookups_made; simpl; lia|]. intros _. repeat constructor.
  - rewrite chain_denot_cons, (lookup_stage_denot c1 _ _ _ _ _ H1) by discriminate.
    cbn [settle_of_res].
    rewrite chain_denot_cons, (lookup_stage_denot c2 _ _ _ _ _ H2) by discriminate.
    change (settle_of_res (getUserPreference (getUser (JStr "fourthUser"%string))))
      with (Fulfilled JUndefined).
    rewrite Hnull.
    eexists _, _. split; [reflexivity|]. split; [reflexivity|].
    split; [rewrite !length_app; unfold lookups_made; simpl; lia|]. intros _. repeat constructor.
  - rewrite chain_denot_cons, (lookup_stage_denot c1 _ _ _ _ _ H1) by exact Hne.
    cbn [settle_of_res]. rewrite Hg, Hnull, Hs, Hm.
    eexists _, _. split; [reflexivity|]. split; [reflexivity|].
    split; [rewrite !length_app; unfold lookups_made; simpl; lia|]. intros _. repeat constructor.
Qed.

Lemma plain_result_settle (r : CbResult) : plain_result r <-> plain_settle (settle_of r).
Proof. destruct r; reflexivity. Qed.

Lemma plain_run_of_denot M stages : forall s l u,
  Forall plain_settle (fst (fst (chain_denot M stages s l u))) ->
  plain_run M stages s u.
Proof.
  induction stages as [|[cb rest] more IH]; intros s l u H; [exact I|].
  rewrite chain_denot_cons in H.
  destruct (stage_denot M (cb, rest) s l u) as [[s1 l1] u1] eqn:Hst.
  destruct (stage_denot_log M (cb, rest) s l u) as [E1 E2].
  rewrite Hst in E1, E2. cbn [fst snd] in E1, E2.
  destruct (chain_denot M more s1 l1 u1) as [[ss lf] uf] eqn:Hch.
  cbn [fst snd] in H. apply Forall_cons in H. destruct H as [Hs1 Hss].
  split.
  - intros v Hs Hn. cbn [fst snd]. rewrite Hs in Hst.
    unfold stage_denot in Hst. rewrite Hn in Hst. cbn [fst snd] in Hst.
    destruct (cb_fn cb (v :: rest) u) as [r u'].
    inversion Hst as [[Ea Eb Ec]]. apply plain_result_settle. cbn [fst].
    rewrite Ea. exact Hs1.
  - rewrite E1, E2. apply (IH s1 l1 u1). rewrite Hch. exact Hss.
Qed.

Lemma lookups_sync : Forall (fun st : Stage => sync_callback (fst st)) lookups.
Proof.
  unfold lookups.
  all_stages ltac:(intros args u; cbn [fst cb_fn sync_fn];
                   try match goal with
                       | |- context [match ?r with Ok _ => _ | Thrown _ => _ end] => destruct r
                       end; exact I).
Qed.

(** X14.  The chain of the test suite's [runSyncMonad]: for every user id,
    known or not, it runs to its end without throwing; the value of its
    last step is the item of the first and of the second user and
    [undefined] for everyone else; the user's state is untouched, and
    only the lookups before the first [undefined] have been made. *)
Theorem lookup_chain_suggests (userId : JsVal) (w : World) :
  exists steps w',
    chain (monad userId [JUndefined]) lookups w = (Ok steps, w') /\
    length steps = 4 /\
    value (List.last steps (monad userId [JUndefined])) = suggestion userId /\
    ustate w' = ustate w /\
    length (log w') = length (log w) + lookups_made userId.
Proof.
  change (monad userId [JUndefined]) with (sstep [JUndefined] userId).
  destruct (sync_chain_denot [JUndefined] lookups userId w lookups_sync) as (Ho & Hu & Hl).
  pose proof (sync_chain_steps [JUndefined] lookups userId w) as Hshape.
  destruct (lookups_denot lookups userId (log w) (ustate w) (or_introl eq_refl))
    as (ss & lf & E & Hlast & Hlen & _).
  rewrite E in Ho, Hu, Hl. cbn [fst snd] in Ho, Hu, Hl.
  destruct (chain (sstep [JUndefined] userId) lookups w) as [[steps|e] w'];
    cbn [sync_outcome snd] in *.
  - exists steps, w'. split; [reflexivity|].
    split; [apply (Hshape steps w' eq_refl)|].
    rewrite Hlast in Ho. inversion Ho as [Hv]. rewrite Hv, Hu, Hl.
    repeat split. exact Hlen.
  - rewrite Hlast in Ho. discriminate Ho.
Qed.

(** X15.  The chain of the test suite's [runAsyncMonad]: for every user id that
    is not a promise, once the microtask queue has run, the promise of
    the last step is fulfilled with the same suggestion as in the
    synchronous chain, after the same number of lookups. *)
Theorem async_lookup_chain_suggests (userId : JsVal) (w : World) :
  instanceof_Promise userId = false ->
  queue w = [] ->
  exists steps wb n,
    monadAsync_chain userId [JUndefined] lookupsAsync w = (Ok steps, wb) /\
    forall m, n <= m ->
      queue (drain m wb) = [] /\
      (exists sk, last steps = Some sk /\
         settled (drain m wb) (value sk) = Some (Fulfilled (suggestion userId))) /\
      ustate (drain m wb) = ustate w /\
      length (log (drain m wb)) = length (log w) + lookups_made userId.
Proof.
  intros Hid Hq.
  destruct (lookups_denot lookupsAsync userId (log w) (ustate w) (or_intror eq_refl))
    as (ss & lf & E & Hlast & Hlen & Hplain).
  specialize (Hplain Hid).
  assert (Hrun : plain_run [JUndefined] lookupsAsync (Fulfilled userId) (ustate w)).
  { apply (plain_run_of_denot _ _ _ (log w)). rewrite E. exact Hplain. }
  destruct (async_chain_run_at [JUndefined] lookupsAsync userId w (Fulfilled userId) ss lf
              (ustate w) (awaited_value w userId Hid Hq) Hid Hrun E)
    as (steps & wb & Hbuild & _ & n & Hfin).
  exists steps, wb, n. split; [exact Hbuild|].
  intros m Hm. destruct (Hfin m Hm) as (Hq' & Hl & Hu & HF).
  split; [exact Hq'|]. split; [|split; [exact Hu | rewrite Hl; exact Hlen]].
  destruct (Forall2_last_exists _ _ _ _ HF) as [sk Hsk].
  exists sk. split; [exact Hsk|].
  pose proof (Forall2_last_default _ _ _ _ (Fulfilled userId) HF Hsk) as Hk.
  cbv beta in Hk. rewrite List_last_cons, Hlast in Hk. exact Hk.
Qed.

(** X16.  Without the chain, the four lookups composed directly throw a
    [TypeError] for a user id that [db.userMap] does not know, since
    [getUserPreference] reads a property of [undefined]; for a known user
    they give the suggestion of the chain. *)
Theorem direct_lookups_need_a_known_user (userId : JsVal) (w : World) :
  (getUser userId = JUndefined ->
   exists msg, fst (compose lookups userId w) = Thrown (TypeError msg)) /\
  (getUser userId <> JUndefined ->
   fst (compose lookups userId w) = Ok (suggestion userId)).
Proof.
  split.
  - intros Hg. unfold lookups. cbn [compose].
    unfold mbind, Exec_mbind, call. cbn [cb_fn cb_id sync_fn hd fst snd].
    rewrite Hg. eexists. reflexivity.
  - intros Hg.
    destruct (userId_cases userId)
      as [-> | [-> | [-> | [-> | [-> | (_ & Hg' & _)]]]]];
      try reflexivity; contradiction Hg; try reflexivity; exact Hg'.
Qed.

End WithUserState.

(** ** The statements at concrete inputs *)

Lemma plain_cbSingle : plain_callback (U:=unit) cbSingle.
Proof. intros args u. reflexivity. Qed.

Lemma plain_cbSingleAsync : plain_callback (U:=unit) cbSingleAsync.
Proof. intros args u. reflexivity. Qed.

Lemma plain_cbNull : plain_callback (U:=unit) cbNull.
Proof. intros args u. reflexivity. Qed.

Lemma plain_cbNullAsync : plain_callback (U:=unit) cbNullAsync.
Proof. intros args u. reflexivity. Qed.

Lemma plain_cbThrow : plain_callback (U:=unit) cbThrow.
Proof. intros args u. exact I. Qed.

(** C3, the claim as stated fails: the marker [1n] matches the value
    [1n], yet [isNullish(1n, [{}, 1n])] does not return [true]; it
    throws the [TypeError] of [JSON.stringify(1n)]. *)
Lemma isNullish_bigint_counterexample :
  ~ (forall (v : JsVal) (M : list JsVal),
       isNullish v M = Ok true <-> exists m, In m M /\ matches v m).
Proof.
  intros H.
  assert (Hm : exists m, In m [JObj 0 []; JBigInt 1] /\ matches (JBigInt 1) m).
  { exists (JBigInt 1). split; [right; left; reflexivity|].
    apply matches_strict; [|reflexivity]. intros [_ Ht]. discriminate Ht. }
  apply H in Hm. vm_compute in Hm. discriminate Hm.
Qed.

Lemma isNullish_iff_some_marker_matches_witness :
  Forall (fun m => composite m -> serializable m /\ serializable (JArr 1 []))
    [JNull; JArr 0 []] /\
  exists b, isNullish (JArr 1 []) [JNull; JArr 0 []] = Ok b /\
            (b = true <-> exists m, In m [JNull; JArr 0 []] /\ matches (JArr 1 []) m).
Proof.
  assert (H : Forall (fun m => composite m -> serializable m /\ serializable (JArr 1 []))
                [JNull; JArr 0 []]).
  { repeat constructor; eexists; vm_compute; reflexivity. }
  split; [exact H|].
  exact (isNullish_iff_some_marker_matches (JArr 1 []) [JNull; JArr 0 []] H).
Defined.



Lemma nullish_propagates_witness :
  (exists steps',
     chain (U:=unit) (monad nonNullish [JNull])
       ([(cbNull, [])] ++ [(cbSingle, []); (cbSingle, [])]) (idle tt) =
       (Ok ([sstep [JNull] JNull] ++ steps'), mkWorld [(3, [nonNullish])] tt [] []) /\
     length steps' = 2 /\
     Forall (fun s => value s = JNull) steps') /\
  (exists steps wk steps' wb n,
     monadAsync_chain (U:=unit) nonNullish [JNull] [(cbNullAsync, [])] (idle tt) = (Ok steps, wk) /\
     monadAsync_chain nonNullish [JNull]
       ([(cbNullAsync, [])] ++ [(cbSingleAsync, []); (cbSingleAsync, [])]) (idle tt) =
       (Ok (steps ++ steps'), wb) /\
     length steps' = 2 /\
     forall m, n <= m -> forall sk x,
       last steps = Some sk ->
       settled (drain m wb) (value sk) = Some (Fulfilled x) ->
       isNullish x [JNull] = Ok true ->
       Forall (fun s => settled (drain m wb) (value s) = Some (Fulfilled x)) steps' /\
       log (drain m wb) = log (drain m wk) /\
       ustate (drain m wb) = ustate (drain m wk)).
Proof.
  destruct (nullish_propagates (U:=unit) [JNull] nonNullish [(cbNull, [])]
              [(cbSingle, []); (cbSingle, [])] (idle tt)) as [Hsync _].
  destruct (nullish_propagates (U:=unit) [JNull] nonNullish [(cbNullAsync, [])]
              [(cbSingleAsync, []); (cbSingleAsync, [])] (idle tt)) as [_ Hasync].
  split.
  - apply (Hsync [sstep [JNull] JNull] (mkWorld [(3, [nonNullish])] tt [] []));
      reflexivity.
  - apply (Hasync (Fulfilled nonNullish)).
    + apply awaited_value; reflexivity.
    + reflexivity.
    + plain_stages.
Defined.



Lemma bindAsync_settles_single_level_witness :
  awaited (U:=unit) (waiting tt nonNullish) (JPromise 0) (Fulfilled nonNullish) /\
  exists wb n,
    bindAsync cbSingleAsync [JNull] (JPromise 0) mockRest (waiting tt nonNullish) =
      (Ok (JPromise 1), wb) /\
    (instanceof_Promise (JPromise 0) = true -> log wb = [] /\ ustate wb = tt) /\
    forall m, n <= m ->
      exists s1,
        settled (drain m wb) (JPromise 1) = Some s1 /\
        plain_settle s1 /\
        stage_denot [JNull] (cbSingleAsync, mockRest) (Fulfilled nonNullish) [] tt =
          (s1, log (drain m wb), ustate (drain m wb)).
Proof.
  assert (Haw : awaited (U:=unit) (waiting tt nonNullish) (JPromise 0) (Fulfilled nonNullish)).
  { apply (awaited_pending _ 0 0 (Fulfilled nonNullish)); reflexivity. }
  split; [exact Haw|].
  exact (proj1 (bindAsync_settles_single_level cbSingleAsync [JNull] (JPromise 0) mockRest
                  (waiting tt nonNullish) (Fulfilled nonNullish)
                  plain_cbSingleAsync eq_refl Haw)).
Defined.

(** C6, the claim as stated fails on an initial value that is a promise:
    with the marker [null] and the promise [P] of [Promise.resolve(null)],
    [monad(P, null).pipe(cbSingle)] calls [cbSingle] on [P] and has its
    return value, while [monadAsync(P, null).pipe(cbSingle)] awaits [P],
    finds [null] nullish and resolves to [null]. *)
Lemma async_sync_promise_counterexample :
  ~ (forall (M : list JsVal) (v0 : JsVal) (fs gs : list (Stage (U:=unit)))
       (w wa : World),
       Forall2 same_behaviour fs gs ->
       Forall (fun st => sync_callback (fst st)) fs ->
       Forall (fun st => plain_callback (fst st)) fs ->
       queue wa = [] ->
       ustate wa = ustate w ->
       exists steps wb final n,
         monadAsync_chain v0 M gs wa = (Ok steps, wb) /\
         last steps = Some final /\
         forall m, n <= m ->
           settled (drain m wb) (value final) =
             Some (sync_outcome (monad v0 M) (chain (monad v0 M) fs w)) /\
           ustate (drain m wb) = ustate (snd (chain (monad v0 M) fs w))).
Proof.
  intros H.
  set (w := mkWorld (U:=unit) [] tt [Settled (Fulfilled JNull)] []).
  destruct (H [JNull] (JPromise 0) [(cbSingle, [])] [(cbSingle, [])] w w)
    as (steps & wb & final & n & Hrun & Hlast & Hfin).
  - all_stages ltac:(split; [reflexivity | intros ? ?; split; reflexivity]).
  - plain_stages.
  - plain_stages.
  - reflexivity.
  - reflexivity.
  - vm_compute in Hrun. inversion Hrun; subst steps wb. clear Hrun.
    vm_compute in Hlast. inversion Hlast; subst final. clear Hlast.
    destruct (Hfin (3 + n) ltac:(lia)) as [Hset _].
    rewrite drain_add in Hset.
    rewrite (drain_idle n) in Hset by (vm_compute; reflexivity).
    vm_compute in Hset. discriminate Hset.
Qed.

Lemma async_sync_equivalence_witness :
  exists steps wb final n,
    monadAsync_chain (U:=unit) nonNullish [JNull]
      [(cbSingleAsync, mockRest); (cbNullAsync, []); (cbSingleAsync, [])] (idle tt) =
      (Ok steps, wb) /\
    last steps = Some final /\
    forall m, n <= m ->
      settled (drain m wb) (value final) =
        Some (sync_outcome (monad nonNullish [JNull])
                (chain (monad nonNullish [JNull])
                   [(cbSingle, mockRest); (cbNull, []); (cbSingle, [])] (idle tt))) /\
      ustate (drain m wb) =
        ustate (snd (chain (monad nonNullish [JNull])
                       [(cbSingle, mockRest); (cbNull, []); (cbSingle, [])] (idle tt))).
Proof.
  apply (async_sync_equivalence (U:=unit) [JNull] nonNullish
           [(cbSingle, mockRest); (cbNull, []); (cbSingle, [])]
           [(cbSingleAsync, mockRest); (cbNullAsync, []); (cbSingleAsync, [])]
           (idle tt) (idle tt)).
  - all_stages ltac:(split; [reflexivity | intros ? ?; split; reflexivity]).
  - plain_stages.
  - plain_stages.
  - reflexivity.
  - reflexivity.
  - reflexivity.
Defined.

Lemma failures_propagate_witness :
  bind (U:=unit) cbThrow [JNull] nonNullish mockRest (idle tt) =
    (Thrown boom, mkWorld [(5, nonNullish :: mockRest)] tt [] []) /\
  (exists wb n,
     bindAsync (U:=unit) cbThrow [JNull] nonNullish mockRest (idle tt) = (Ok (JPromise 0), wb) /\
     forall m, n <= m ->
       settled (drain m wb) (JPromise 0) = Some (Rejected boom) /\
       log (drain m wb) = [(5, nonNullish :: mockRest)]) /\
  bind (U:=unit) cbThrow [JNull] JNull mockRest (idle tt) = (Ok JNull, idle tt).
Proof.
  split; [|split].
  - apply (proj1 (failures_propagate (U:=unit) cbThrow [JNull] nonNullish mockRest (idle tt)));
      reflexivity.
  - apply (proj1 (proj2 (failures_propagate (U:=unit) cbThrow [JNull] nonNullish mockRest
                           (idle tt)))).
    + reflexivity.
    + apply plain_cbThrow.
    + reflexivity.
    + apply awaited_value; reflexivity.
    + reflexivity.
  - apply (proj2 (proj2 (proj2 (failures_propagate (U:=unit) cbThrow [JNull] JNull mockRest
                                  (idle tt))))).
    reflexivity.
Defined.

Lemma setup_is_sugar_witness :
  exists step wb n,
    monadAsyncSetup (U:=unit) [minus_one; JNull] cbSingleAsync minus_one mockRest (idle tt) =
      (Ok step, wb) /\
    forall m, n <= m ->
      settled (drain m wb) (value step) = Some (Fulfilled minus_one) /\
      log (drain m wb) = [] /\
      ustate (drain m wb) = tt.
Proof.
  apply (proj2 (proj2 (proj2 (proj2
           (setup_is_sugar (U:=unit) [minus_one; JNull] cbSingleAsync minus_one mockRest
              (idle tt)))))).
  - reflexivity.
  - apply plain_cbSingleAsync.
Defined.

Lemma empty_markers_never_short_circuit_witness :
  chain (U:=unit) (monad JUndefined []) [(cbNull, []); (cbSingle, mockRest)] (idle tt) =
    (Ok [sstep [] JNull; sstep [] mockReturn],
     mkWorld [(3, [JUndefined]); (1, JNull :: mockRest)] tt [] []) /\
  length [(3, [JUndefined]); (1, JNull :: mockRest)] = 0 + 2.
Proof.
  assert (H : chain (U:=unit) (monad JUndefined []) [(cbNull, []); (cbSingle, mockRest)]
                (idle tt) =
              (Ok [sstep [] JNull; sstep [] mockReturn],
               mkWorld [(3, [JUndefined]); (1, JNull :: mockRest)] tt [] [])).
  { reflexivity. }
  split; [exact H|].
  exact (proj2 (proj2 (proj2 (empty_markers_never_short_circuit (U:=unit))))
           JUndefined [(cbNull, []); (cbSingle, mockRest)] (idle tt) _ _ H).
Defined.

(** ** The further statements at concrete inputs *)

Lemma isNullish_scalar_markers_witness :
  Forall (fun m => ~ composite m) [JNull; JBigInt 1] /\
  isNullish (JBigInt 1) [JNull; JBigInt 1] = Ok true /\
  isNullish (JObj 0 []) [JNull; JBigInt 1] = Ok false.
Proof.
  assert (H : Forall (fun m => ~ composite m) [JNull; JBigInt 1]).
  { repeat constructor; intros [Hn Ht]; [exact (Hn eq_refl) | discriminate Ht]. }
  split; [exact H|]. split.
  - exact (proj1 (isNullish_scalar_markers (JBigInt 1) [JNull; JBigInt 1] H)).
  - apply (proj2 (isNullish_scalar_markers (JObj 0 []) [JNull; JBigInt 1] H)).
    split; [discriminate | reflexivity].
Defined.

Lemma marker_is_nullish_witness :
  In (JArr 0 []) [JNull; JArr 0 []] /\
  isNullish (JArr 0 []) [JNull; JArr 0 []] = Ok true.
Proof.
  assert (H : In (JArr 0 []) [JNull; JArr 0 []]) by (right; left; reflexivity).
  split; [exact H|].
  apply (marker_is_nullish (JArr 0 []) [JNull; JArr 0 []] H).
  - discriminate.
  - repeat constructor; intros _; eexists; vm_compute; reflexivity.
  - intros _. eexists. vm_compute. reflexivity.
Defined.

Lemma isNullish_marker_order_witness :
  isNullish JNull [JNull; JUndefined] = isNullish JNull ([JUndefined] ++ [JNull]).
Proof.
  apply (proj2 (isNullish_marker_order JNull [JUndefined] [JNull])).
  - apply perm_swap.
  - repeat constructor; eexists; vm_compute; reflexivity.
Defined.

Lemma monadRun_short_cuts_on_undefined_only_witness :
  monadRun (U:=unit) cbSingle JUndefined mockRest (idle tt) =
    (Ok (sstep [JUndefined] JUndefined), idle tt) /\
  monadRun (U:=unit) cbSingle JNull mockRest (idle tt) =
    (Ok (sstep [JUndefined] mockReturn), mkWorld [(1, JNull :: mockRest)] tt [] []) /\
  (exists step wb n,
     monadAsyncRun (U:=unit) cbSingleAsync (JPromise 0) mockRest
       (mkWorld [] tt [Settled (Fulfilled JUndefined)] []) = (Ok step, wb) /\
     forall m, n <= m ->
       (JUndefined = JUndefined ->
        settled (drain m wb) (value step) = Some (Fulfilled JUndefined) /\
        log (drain m wb) = []) /\
       (JUndefined <> JUndefined ->
        settled (drain m wb) (value step) = Some (Fulfilled mockReturn) /\
        log (drain m wb) = [] ++ [(2, JUndefined :: mockRest)])) /\
  (exists step wb n,
     monadAsyncRun (U:=unit) cbSingleAsync JNull mockRest (idle tt) = (Ok step, wb) /\
     forall m, n <= m ->
       (JNull = JUndefined ->
        settled (drain m wb) (value step) = Some (Fulfilled JUndefined) /\
        log (drain m wb) = []) /\
       (JNull <> JUndefined ->
        settled (drain m wb) (value step) = Some (Fulfilled mockReturn) /\
        log (drain m wb) = [(2, JNull :: mockRest)])).
Proof.
  split; [|split; [|split]].
  - apply (proj1 (monadRun_short_cuts_on_undefined_only (U:=unit) cbSingle JUndefined
                    mockRest (idle tt))).
    reflexivity.
  - apply (proj1 (proj2 (monadRun_short_cuts_on_undefined_only (U:=unit) cbSingle JNull
                           mockRest (idle tt)))).
    discriminate.
  - apply (proj2 (proj2 (monadRun_short_cuts_on_undefined_only (U:=unit) cbSingleAsync
                           (JPromise 0) mockRest
                           (mkWorld [] tt [Settled (Fulfilled JUndefined)] [])))
             plain_cbSingleAsync JUndefined).
    + apply awaited_settled; reflexivity.
    + reflexivity.
  - apply (proj2 (proj2 (monadRun_short_cuts_on_undefined_only (U:=unit) cbSingleAsync JNull
                           mockRest (idle tt)))
             plain_cbSingleAsync JNull).
    + apply awaited_value; reflexivity.
    + reflexivity.
Defined.

Lemma chain_steps_shape_witness :
  length [sstep [JNull] mockReturn; sstep [JNull] JNull] =
    length [(cbSingle (U:=unit), mockRest); (cbNull, [])] /\
  Forall (fun s => pipe_fn s = PipeSync (value s) [JNull])
    [sstep [JNull] mockReturn; sstep [JNull] JNull].
Proof.
  apply (proj1 (chain_steps_shape (U:=unit) [JNull] [(cbSingle, mockRest); (cbNull, [])])
           nonNullish (idle tt) _
           (mkWorld [(1, nonNullish :: mockRest); (3, [mockReturn])] tt [] [])).
  reflexivity.
Defined.


Lemma calls_are_a_prefix_witness :
  exists inputs steps wb n,
    length inputs <= length [(cbNullAsync (U:=unit), mockRest); (cbSingleAsync, [])] /\
    monadAsync_chain (U:=unit) nonNullish [JNull] [(cbNullAsync, mockRest); (cbSingleAsync, [])]
      (idle tt) = (Ok steps, wb) /\
    forall m, n <= m ->
      log (drain m wb) =
      calls_of [(cbNullAsync (U:=unit), mockRest); (cbSingleAsync, [])] inputs.
Proof.
  refine (proj2 (calls_are_a_prefix (U:=unit) [JNull] nonNullish
                   [(cbNullAsync, mockRest); (cbSingleAsync, [])] (idle tt))
            (Fulfilled nonNullish) _ _ _).
  - apply awaited_value; reflexivity.
  - reflexivity.
  - plain_stages.
Defined.

Lemma rejection_propagates_witness :
  exists steps wk steps' wb n,
    monadAsync_chain (U:=unit) nonNullish [JNull] [(cbThrow, [])] (idle tt) = (Ok steps, wk) /\
    monadAsync_chain nonNullish [JNull]
      ([(cbThrow, [])] ++ [(cbSingleAsync, []); (cbSingle, [])]) (idle tt) =
      (Ok (steps ++ steps'), wb) /\
    length steps' = 2 /\
    forall m, n <= m -> forall sk e,
      last steps = Some sk ->
      settled (drain m wb) (value sk) = Some (Rejected e) ->
      Forall (fun s => settled (drain m wb) (value s) = Some (Rejected e)) steps' /\
      log (drain m wb) = log (drain m wk) /\
      ustate (drain m wb) = ustate (drain m wk).
Proof.
  apply (rejection_propagates (U:=unit) [JNull] nonNullish [(cbThrow, [])]
           [(cbSingleAsync, []); (cbSingle, [])] (idle tt) (Fulfilled nonNullish)).
  - apply awaited_value; reflexivity.
  - reflexivity.
  - plain_stages.
Defined.

Lemma nullish_test_failure_surfaces_witness :
  exists e,
    isNullish (JBigInt 1) [JObj 0 []] = Thrown e /\
    bind (U:=unit) cbSingle [JObj 0 []] (JBigInt 1) mockRest (idle tt) = (Thrown e, idle tt) /\
    pipe (U:=unit) (JBigInt 1) [JObj 0 []] cbSingle mockRest (idle tt) = (Thrown e, idle tt) /\
    exists wb n,
      bindAsync (U:=unit) cbSingleAsync [JObj 0 []] (JBigInt 1) mockRest (idle tt) =
        (Ok (JPromise (length (heap (idle (U:=unit) tt)))), wb) /\
      forall m, n <= m ->
        settled (drain m wb) (JPromise (length (heap (idle (U:=unit) tt)))) =
          Some (Rejected e) /\
        log (drain m wb) = log (idle tt) /\
        ustate (drain m wb) = ustate (idle tt).
Proof.
  destruct (isNullish (JBigInt 1) [JObj 0 []]) as [b|e] eqn:E; [discriminate E|].
  exists e. split; [reflexivity|].
  split; [|split].
  - apply (proj1 (nullish_test_failure_surfaces (U:=unit) cbSingle [JObj 0 []] (JBigInt 1)
                    mockRest (idle tt) e E)).
  - apply (proj1 (proj2 (nullish_test_failure_surfaces (U:=unit) cbSingle [JObj 0 []]
                           (JBigInt 1) mockRest (idle tt) e E))).
  - apply (proj2 (proj2 (nullish_test_failure_surfaces (U:=unit) cbSingleAsync [JObj 0 []]
                           (JBigInt 1) mockRest (idle tt) e E))).
    + apply plain_cbSingleAsync.
    + reflexivity.
    + apply awaited_value; reflexivity.
Defined.

Lemma async_lookup_chain_suggests_witness :
  exists steps wb n,
    monadAsync_chain (U:=unit) (JStr "thirdUser") [JUndefined] lookupsAsync (idle tt) =
      (Ok steps, wb) /\
    forall m, n <= m ->
      queue (drain m wb) = [] /\
      (exists sk, last steps = Some sk /\
         settled (drain m wb) (value sk) = Some (Fulfilled (suggestion (JStr "thirdUser")))) /\
      ustate (drain m wb) = ustate (idle tt) /\
      length (log (drain m wb)) = length (log (idle (U:=unit) tt)) + lookups_made (JStr "thirdUser").
Proof.
  apply (async_lookup_chain_suggests (U:=unit) (JStr "thirdUser") (idle tt)); reflexivity.
Defined.

Lemma direct_lookups_need_a_known_user_witness :
  (exists msg, fst (compose (U:=unit) lookups (JStr "missingUser") (idle tt)) =
               Thrown (TypeError msg)) /\
  fst (compose (U:=unit) lookups (JStr "secondUser") (idle tt)) = Ok runningPreference.
Proof.
  split.
  - apply (proj1 (direct_lookups_need_a_known_user (U:=unit) (JStr "missingUser") (idle tt))).
    reflexivity.
  - apply (proj2 (direct_lookups_need_a_known_user (U:=unit) (JStr "secondUser") (idle tt))).
    discriminate.
Defined.

(** ** Why the asynchronous chain of C6 starts from an empty queue *)

(** Two chains over one counter.  A first asynchronous chain waits for a
    promise that settles at the next turn; a second one is then built on
    ["nonNullish"] with two stages that count.  The reaction of the first
    chain runs between the two stages of the second, which therefore
    resolves to [3], while the synchronous chain with the same two stages
    returns [2]. *)
Example shared_counter_interleaves :
  let count := mkCallback (U:=nat) 8
                 (fun _ n => (Return (JNum (NInt (Z.of_nat (S n)))), S n)) in
  let countAsync := mkCallback (U:=nat) 9
                 (fun _ n => (ReturnAsync 1 (Fulfilled (JNum (NInt (Z.of_nat (S n))))), S n)) in
  let wa := snd (monadAsync_chain (JPromise 0) [JNull] [(countAsync, [])]
                   (waiting 0 nonNullish)) in
  same_behaviour (count, []) (countAsync, []) /\
  ustate wa = ustate (idle 0) /\
  queue wa <> [] /\
  sync_outcome (monad nonNullish [JNull])
    (chain (monad nonNullish [JNull]) [(count, []); (count, [])] (idle 0)) =
    Fulfilled (JNum (NInt 2)) /\
  match monadAsync_chain nonNullish [JNull] [(countAsync, []); (countAsync, [])] wa with
  | (Ok steps, wb) =>
      map (fun step => settled (drain 30 wb) (value step)) (tail steps) =
        [Some (Fulfilled (JNum (NInt 1))); Some (Fulfilled (JNum (NInt 3)))] /\
      queue (drain 30 wb) = []
  | (Thrown _, _) => False
  end.
Proof.
  cbv zeta. split; [split; [reflexivity | intros args u; split; reflexivity]|].
  split; [reflexivity|]. split; [discriminate|].
  split; [reflexivity|]. vm_compute. split; reflexivity.
Qed.

(** ** The test suite's scenarios *)

(** The table of "isNullish should return true if argument matches one of
    the nullishTypes". *)
Example isNullish_test_table :
  let objNull := JObj 10 [("type", JStr "null")]%string in
  let nullishArr := JArr 11 [JNum (NInt 1); JNum (NInt 2); JNum (NInt 3)] in
  Forall (fun t : JsVal * list JsVal * bool => isNullish (fst (fst t)) (snd (fst t)) = Ok (snd t))
    [ (JNull, [JUndefined], false);
      (JNull, [JNull; JUndefined], true);
      (JUndefined, [JNull; JUndefined], true);
      (JStr "something", [JNull; JUndefined], false);
      (objNull, [objNull], true);
      (JObj 12 [("type", JStr "null"); ("other", JStr "other")]%string, [objNull], false);
      (JArr 13 [], [JArr 14 []], true);
      (JArr 15 [JNull], [JArr 16 []], false);
      (nullishArr, [nullishArr], true);
      (JArr 17 [JNum (NInt 1); JNum (NInt 2)], [nullishArr], false);
      (JStr "string", [JNull], false);
      (JNum (NInt 5), [JNull], false);
      (minus_one, [minus_one], true) ].
Proof. repeat constructor. Qed.

(** "Should not call functions after a nullish value has been received",
    with a callback that returns [null] on its first call and
    [mockReturn] afterwards: one call, synchronous or not. *)
Example one_call_after_nullish :
  let once := mkCallback (U:=nat) 6
                (fun _ n => (if Nat.eqb n 0 then Return JNull else Return mockReturn, S n)) in
  let onceAsync := mkCallback (U:=nat) 7
                (fun _ n => (ReturnAsync 0 (Fulfilled (if Nat.eqb n 0 then JNull else mockReturn)),
                             S n)) in
  log (snd (chain (monad nonNullish [JNull]) [(once, []); (once, []); (once, [])] (idle 0))) =
    [(6, [nonNullish])] /\
  log (drain 9 (snd (monadAsync_chain nonNullish [JNull]
                       [(onceAsync, []); (onceAsync, []); (onceAsync, [])] (idle 0)))) =
    [(7, [nonNullish])].
Proof. split; vm_compute; reflexivity. Qed.

(** "Pipe and pipeAsync should provide appropriate returns": ten steps of
    [cbSingleAsync], each resolving to [mockReturn]. *)
Example ten_steps_resolve :
  let stages := repeat (cbSingleAsync (U:=unit), @nil JsVal) 10 in
  match monadAsync_chain nonNullish [JNull] stages (idle tt) with
  | (Ok steps, wb) =>
      map (fun step => settled (drain 60 wb) (value step)) (tail steps) =
      repeat (Some (Fulfilled mockReturn)) 10
  | (Thrown _, _) => False
  end.
Proof. vm_compute. reflexivity. Qed.
